(** * Ladder maintenance of the orders manager (orders_manager.ts)

    A shallow embedding of the order-ladder bot: the ladder initializer,
    the reconciliation against the gateway's open orders, the cooldown
    counter, the rebalancer and the batch cancellation of [PredictOrders],
    together with the JSON order storage they update.

    Numbers.  Every price the program handles is a decimal with three
    digits that it re-normalises with [parseFloat(x.toFixed(3))]; a price is
    held here as the integer number of ticks (thousandths) it denotes, so
    [0.620] is [620], one tick [0.001] is [1] and the bound [1] is [1000].
    On such prices [toFixed(3)] is the identity.  Bid values and quantities
    (products of a price and a size) are rationals.  Timestamps are integer
    milliseconds. *)

From Stdlib Require Import ZArith QArith Lia.
From stdpp Require Import base list strings gmap sorting pretty.

Local Open Scope Z_scope.

(** ** Data model (orders_manager.ts, lines 8-35) *)

Record MarketBid := {
  bid_price : Z;
  bid_quantity : Q;
  bid_value : Q
}.

Record TrackedOrder := {
  price : Z;
  orderHash : string
}.

Record TrackedMarket := {
  tm_id : Z;
  tm_title : string;
  orders : list TrackedOrder;
  cancelCount : Z;
  cooldownUntil : Z
}.

Definition VALUE_THRESHOLD : Q := 500%Q.
Definition MIN_DEPTH_CHECK_USD : Q := 500%Q.
Definition COOLDOWN_MS : Z := 30 * 60 * 1000.

Definition set_orders (t : TrackedMarket) (os : list TrackedOrder) : TrackedMarket :=
  {| tm_id := tm_id t; tm_title := tm_title t; orders := os;
     cancelCount := cancelCount t; cooldownUntil := cooldownUntil t |}.

Definition prices (os : list TrackedOrder) : list Z := map price os.
Definition hashes (os : list TrackedOrder) : list string := map orderHash os.

(** Comparisons on rationals as booleans: [a < b] and [a <= b]. *)
Definition Qltb (a b : Q) : bool := negb (Qle_bool b a).
Definition Qleb (a b : Q) : bool := Qle_bool a b.

(** ** [orders.sort((a, b) => b.price - a.price)]

    The array sort of the language is stable; a stable insertion sort
    gives the same array.  [insertDesc x l] puts [x] in front of the first
    element whose price is not above the price of [x]. *)

Fixpoint insertDesc (x : TrackedOrder) (l : list TrackedOrder) : list TrackedOrder :=
  match l with
  | [] => [x]
  | y :: l' => if price x <? price y then y :: insertDesc x l' else x :: y :: l'
  end.

Definition sortDesc (l : list TrackedOrder) : list TrackedOrder :=
  foldr insertDesc [] l.

(** Prices never go up along the list / go strictly down along the list. *)
Definition descending (os : list TrackedOrder) : Prop :=
  Sorted (fun a b => price b <= price a) os.

Definition strictlyDescending (ps : list Z) : Prop :=
  StronglySorted (fun a b => b < a) ps.

(** ** Ladder initializer (processMarket, lines 79-106; openBottomOrders,
    lines 617-635) *)

(** The scan [for (i = 0; i < Math.min(bids.length, 6); i++)]: [cum] is
    [cumulativeValue] on entry, [i] the index of the head of [bids]. *)
Fixpoint depthScan (cum : Q) (i : nat) (bids : list MarketBid) : option nat :=
  match bids with
  | [] => None
  | b :: rest =>
      let cum' := (cum + bid_value b)%Q in
      if Qltb MIN_DEPTH_CHECK_USD cum' then Some i
      else depthScan cum' (S i) rest
  end.

(** [startIndex], with [None] for [-1]. *)
Definition findStartIndex (bids : list MarketBid) : option nat :=
  depthScan 0%Q 0%nat (take 6 bids).

(** [for (i = 0; i < targetOrderCount && startPrice - i * 0.001 > 0; i++)]:
    [n] iterations are left and [i] is the loop counter. *)
Fixpoint targetLoop (startPrice : Z) (i : Z) (n : nat) : list Z :=
  match n with
  | O => []
  | S n' =>
      if 0 <? startPrice - i then (startPrice - i) :: targetLoop startPrice (i + 1) n'
      else []
  end.

Definition targetOrderCount (startIndex : nat) : nat := Nat.min 5 (6 - startIndex).



(** ** Objects of the remote API

    [OrderBody] is the nested [order] object of an API order (the signed
    order), [ApiOrder] an order as the API lists or details it.  A field
    that may be absent is an [option]; an amount, when present, is a
    positive integer (of wei). *)

Record OrderBody := {
  o_hash : option string;
  o_orderHash : option string;
  o_makerAmount : option positive;
  o_takerAmount : option positive;
  o_side : option Z
}.

Record ApiOrder := {
  api_id : string;
  api_marketId : Z;
  api_hash : option string;
  api_orderHash : option string;
  api_makerAmount : option positive;
  api_takerAmount : option positive;
  api_side : option Z;
  api_order : option OrderBody;
  api_isNegRisk : bool;
  api_isYieldBearing : bool;
  api_status : string
}.

(** A string is truthy when it is present and not empty. *)
Definition truthy (o : option string) : option string :=
  match o with
  | Some s => if decide (s = "") then None else Some s
  | None => None
  end.

(** [a || b] on possibly absent strings, [a ?? b] on possibly absent values. *)
Definition orElse (a b : option string) : option string :=
  match truthy a with Some s => Some s | None => b end.

Definition nullish {A} (a b : option A) : option A :=
  match a with Some x => Some x | None => b end.

(** [parseFloat((m / t).toFixed(3))] in ticks: the thousandth nearest to
    [m / t], the larger one on a tie. *)
Definition ratioTicks (m t : positive) : Z :=
  (2000 * Z.pos m + Z.pos t) / (2 * Z.pos t).

(** ** Order storage (order_storage.ts)

    The JSON file is a list of markets, each with its orders.  An order
    record starts with its id and hash; [updateOrderDetails] merges the
    details of the API into it. *)

Record StoredOrder := {
  orderId : string;
  st_orderHash : string;
  st_details : option ApiOrder
}.

Record StoredMarket := {
  market_id : Z;
  market_title : string;
  st_orders : list StoredOrder
}.

Definition Storage := list StoredMarket.

Definition findMarket (markets : Storage) (marketId : Z) : option StoredMarket :=
  List.find (fun m => bool_decide (market_id m = marketId)) markets.

(** [market.orders.push(orderRecord)] on the first market with this id. *)
Fixpoint pushToMarket (marketId : Z) (r : StoredOrder) (markets : Storage) : Storage :=
  match markets with
  | [] => []
  | m :: ms =>
      if bool_decide (market_id m = marketId)
      then {| market_id := market_id m; market_title := market_title m;
              st_orders := st_orders m ++ [r] |} :: ms
      else m :: pushToMarket marketId r ms
  end.

Definition addOrder (oid h : string) (marketId : Z) (marketTitle : string)
    (markets : Storage) : Storage :=
  let orderRecord := {| orderId := oid; st_orderHash := h; st_details := None |} in
  match findMarket markets marketId with
  | Some _ => pushToMarket marketId orderRecord markets
  | None =>
      markets ++ [{| market_id := marketId; market_title := marketTitle;
                     st_orders := [orderRecord] |}]
  end.

(** [updateOrderDetails]: the first record with this hash, in the first
    market that has one, takes the details. *)
Fixpoint updateInOrders (h : string) (d : ApiOrder) (os : list StoredOrder)
    : option (list StoredOrder) :=
  match os with
  | [] => None
  | o :: os' =>
      if bool_decide (st_orderHash o = h)
      then Some ({| orderId := orderId o; st_orderHash := st_orderHash o;
                    st_details := Some d |} :: os')
      else option_map (cons o) (updateInOrders h d os')
  end.

Fixpoint updateOrderDetails (h : string) (d : ApiOrder) (markets : Storage) : Storage :=
  match markets with
  | [] => []
  | m :: ms =>
      match updateInOrders h d (st_orders m) with
      | Some os => {| market_id := market_id m; market_title := market_title m;
                      st_orders := os |} :: ms
      | None => m :: updateOrderDetails h d ms
      end
  end.

Definition getOrdersForMarket (marketId : Z) (markets : Storage) : list StoredOrder :=
  match findMarket markets marketId with
  | Some m => st_orders m
  | None => []
  end.

(** [getOrderByHash] of the storage. *)
Fixpoint getStoredByHash (h : string) (markets : Storage) : option StoredOrder :=
  match markets with
  | [] => None
  | m :: ms =>
      match List.find (fun o => bool_decide (st_orderHash o = h)) (st_orders m) with
      | Some o => Some o
      | None => getStoredByHash h ms
      end
  end.

(** [deleteOrder]: the first market that holds the hash loses every record
    with it; when none is left there, every market with that id is dropped.
    [pre] is the part of the file already passed. *)
Fixpoint deleteOrderGo (h : string) (pre : Storage) (markets : Storage) : Storage :=
  match markets with
  | [] => pre
  | m :: ms =>
      let kept := List.filter (fun o => negb (bool_decide (st_orderHash o = h))) (st_orders m) in
      if (length kept <? length (st_orders m))%nat
      then
        if (length kept =? 0)%nat
        then List.filter (fun m' => negb (bool_decide (market_id m' = market_id m))) (pre ++ ms)
        else pre ++ {| market_id := market_id m; market_title := market_title m;
                       st_orders := kept |} :: ms
      else deleteOrderGo h (pre ++ [m]) ms
  end.

Definition deleteOrder (h : string) (markets : Storage) : Storage :=
  deleteOrderGo h [] markets.

(** Every hash the storage holds. *)
Definition storedHashes (markets : Storage) : list string :=
  concat (map (fun m => map st_orderHash (st_orders m)) markets).

(** ** The gateway and the world

    Everything outside the process (REST API, signing SDK, position seller,
    clock) is a [Gateway]: each call reads and advances an abstract remote
    state [R].  [api_createOrder m p] is the submission made by [openOrder]
    for market [m] at price [p] ([None] when any step of it fails),
    [sdk_cancelOrders] the batch cancel of the SDK for one type group
    ([result && result.success !== false]), [api_orderbook] the bids that
    [fetchOrderbook] returns ([[]] on failure), [api_openOrders] the
    accumulated pages of [getOpenOrdersRecursively] ([None] on failure). *)

Record SubmitResult := {
  sr_orderId : string;
  sr_hash : string;
  sr_title : string
}.

Record Gateway (R : Type) := {
  api_createOrder : Z -> Z -> R -> option SubmitResult * R;
  api_getOrder : string -> R -> option ApiOrder * R;
  sdk_cancelOrders : list OrderBody -> bool -> bool -> R -> bool * R;
  api_orderbook : Z -> R -> list MarketBid * R;
  api_openOrders : R -> option (list ApiOrder) * R;
  sellAllPositions : R -> bool * R;
  date_now : R -> Z
}.

Arguments api_createOrder {R}.
Arguments api_getOrder {R}.
Arguments sdk_cancelOrders {R}.
Arguments api_orderbook {R}.
Arguments api_openOrders {R}.
Arguments sellAllPositions {R}.
Arguments date_now {R}.

(** The calls that place or cancel orders are logged with their outcome. *)
Inductive Event :=
| EvOpenOrder (marketId price : Z) (res : option string)
| EvCancelOrders (group : list OrderBody) (isNegRisk isYieldBearing ok : bool).

Record World (R : Type) := {
  remote : R;
  storage : Storage;
  events : list Event
}.

Arguments remote {R}.
Arguments storage {R}.
Arguments events {R}.

(** A computation of the bot: a state transformer on the world. *)
Definition M (R A : Type) : Type := World R -> A * World R.

Definition ret {R A} (a : A) : M R A := fun w => (a, w).

Definition bind {R A B} (m : M R A) (k : A -> M R B) : M R B :=
  fun w => let (a, w') := m w in k a w'.

Notation "'let*' x ':=' m 'in' k" := (bind m (fun x => k))
  (at level 10, x pattern, m at level 100, k at level 200).

Definition call {R A} (f : R -> A * R) : M R A :=
  fun w => let (a, r) := f (remote w) in
           (a, {| remote := r; storage := storage w; events := events w |}).

Definition getStorage {R} : M R Storage := fun w => (storage w, w).

Definition modifyStorage {R} (f : Storage -> Storage) : M R unit :=
  fun w => (tt, {| remote := remote w; storage := f (storage w); events := events w |}).

Definition emit {R} (e : Event) : M R unit :=
  fun w => (tt, {| remote := remote w; storage := storage w; events := events w ++ [e] |}).

Fixpoint mapM {R A B} (f : A -> M R B) (l : list A) : M R (list B) :=
  match l with
  | [] => ret []
  | x :: l' => let* y := f x in let* ys := mapM f l' in ret (y :: ys)
  end.

(** ** PredictOrders (orders.ts) *)

Record OrderData := {
  od_order : OrderBody;
  od_id : string;
  od_marketId : Z;
  od_isNegRisk : bool;
  od_isYieldBearing : bool;
  od_status : string;
  od_hash : string
}.

Record GroupedOrders := {
  regular : list OrderBody;
  negRisk : list OrderBody;
  regularYieldBearing : list OrderBody;
  negRiskYieldBearing : list OrderBody
}.

Record CancelResult := {
  success : bool;
  res_regular : option bool;
  res_negRisk : option bool;
  res_regularYieldBearing : option bool;
  res_negRiskYieldBearing : option bool
}.

Definition ofType (neg yb : bool) (orders : list OrderData) : list OrderData :=
  List.filter (fun o => Bool.eqb (od_isNegRisk o) neg && Bool.eqb (od_isYieldBearing o) yb) orders.

Definition groupOrdersByType (orders : list OrderData) : GroupedOrders :=
  {| regular := map od_order (ofType false false orders);
     negRisk := map od_order (ofType true false orders);
     regularYieldBearing := map od_order (ofType false true orders);
     negRiskYieldBearing := map od_order (ofType true true orders) |}.

Section PredictOrders.
Context {R : Type} (G : Gateway R).

Definition now : M R Z := fun w => (date_now G (remote w), w).

Definition fetchOrderbook (marketId : Z) : M R (list MarketBid) :=
  call (api_orderbook G marketId).

(** [openOrder]: on success the order is saved to the storage and its hash
    returned. *)
Definition openOrder (marketId price : Z) : M R (option string) :=
  let* r := call (api_createOrder G marketId price) in
  match r with
  | Some sr =>
      let* _ := modifyStorage (addOrder (sr_orderId sr) (sr_hash sr) marketId (sr_title sr)) in
      let* _ := emit (EvOpenOrder marketId price (Some (sr_hash sr))) in
      ret (Some (sr_hash sr))
  | None =>
      let* _ := emit (EvOpenOrder marketId price None) in
      ret None
  end.

(** [getOrderByHash]: on success the storage record takes the details. *)
Definition getOrderByHash (h : string) : M R (option ApiOrder) :=
  let* r := call (api_getOrder G h) in
  match r with
  | Some d => let* _ := modifyStorage (updateOrderDetails h d) in ret (Some d)
  | None => ret None
  end.

Definition getStoredOrderByHash (h : string) : M R (option StoredOrder) :=
  let* st := getStorage in ret (getStoredByHash h st).

(** [removeOrdersFromStorage]: only an order that carries a hash is deleted. *)
Fixpoint removeOrdersFromStorage (orders : list OrderBody) : M R unit :=
  match orders with
  | [] => ret tt
  | o :: rest =>
      let* _ := match truthy (o_hash o) with
                | Some h => modifyStorage (deleteOrder h)
                | None => ret tt
                end in
      removeOrdersFromStorage rest
  end.

(** One type group of [cancelOrders]: [None] when the group is empty and the
    SDK is not called, otherwise whether the group succeeded. *)
Definition cancelGroup (group : list OrderBody) (neg yb : bool) : M R (option bool) :=
  match group with
  | [] => ret None
  | _ =>
      let* ok := call (sdk_cancelOrders G group neg yb) in
      let* _ := emit (EvCancelOrders group neg yb ok) in
      if ok then let* _ := removeOrdersFromStorage group in ret (Some true)
      else ret (Some false)
  end.

Definition groupOk (r : option bool) : bool :=
  match r with Some false => false | _ => true end.

Definition cancelOrders (orders : list OrderData) : M R CancelResult :=
  match orders with
  | [] => ret {| success := true; res_regular := None; res_negRisk := None;
                 res_regularYieldBearing := None; res_negRiskYieldBearing := None |}
  | _ =>
      let grouped := groupOrdersByType orders in
      let* r1 := cancelGroup (regular grouped) false false in
      let* r2 := cancelGroup (negRisk grouped) true false in
      let* r3 := cancelGroup (regularYieldBearing grouped) false true in
      let* r4 := cancelGroup (negRiskYieldBearing grouped) true true in
      ret {| success := groupOk r1 && groupOk r2 && groupOk r3 && groupOk r4;
             res_regular := r1; res_negRisk := r2;
             res_regularYieldBearing := r3; res_negRiskYieldBearing := r4 |}
  end.

End PredictOrders.

(** ** The orders manager (orders_manager.ts) *)

(** [price] of an order from its amounts: [maker / taker] for a buy,
    [taker / maker] for a sell, [0] when an amount is missing. *)
Definition priceFromAmounts (maker taker : option positive) (buy : bool) : Z :=
  match maker, taker with
  | Some m, Some t => if buy then ratioTicks m t else ratioTicks t m
  | _, _ => 0
  end.

(** [apiOrder.hash || apiOrder.orderHash || apiOrder.order?.hash ||
    apiOrder.order?.orderHash], kept when truthy. *)
Definition apiHashOf (a : ApiOrder) : option string :=
  truthy (orElse (api_hash a)
           (orElse (api_orderHash a)
             (orElse (api_order a ≫= o_hash) (api_order a ≫= o_orderHash)))).

(** The price given to an untracked order (monitorLoop, lines 242-268). *)
Definition derivedPrice (a : ApiOrder) : Z :=
  let maker := nullish (api_makerAmount a) (api_order a ≫= o_makerAmount) in
  let taker := nullish (api_takerAmount a) (api_order a ≫= o_takerAmount) in
  let side := nullish (api_side a) (api_order a ≫= o_side) in
  priceFromAmounts maker taker (bool_decide (side = Some 0)).

(** [apiOrdersByMarket[tracked.id] || []]: orders without a market id are
    not grouped. *)
Definition ordersOfMarket (allOpenOrders : list ApiOrder) (marketId : Z) : list ApiOrder :=
  List.filter (fun a => negb (api_marketId a =? 0) && (api_marketId a =? marketId)) allOpenOrders.

Definition triggerPrice (bids : list MarketBid) (startIndex : nat) : Z :=
  from_option bid_price 0 (bids !! startIndex).

Definition mkTracked (marketId : Z) (marketTitle : string) (os : list TrackedOrder)
    : TrackedMarket :=
  {| tm_id := marketId; tm_title := marketTitle; orders := sortDesc os;
     cancelCount := 0; cooldownUntil := 0 |}.

(** [ordersToMoveDown] before clamping: the orders at the head of the list
    priced at or above the best bid. *)
Fixpoint countAtOrAbove (best : Z) (os : list TrackedOrder) : nat :=
  match os with
  | [] => O
  | o :: rest => if best <=? price o then S (countAtOrAbove best rest) else O
  end.

(** Cumulative value of the bids above [p], from the best bid down to the
    first bid that is not above [p]. *)
Fixpoint depthAbove (p : Z) (bids : list MarketBid) (cum : Q) : Q :=
  match bids with
  | [] => cum
  | b :: rest => if bid_price b <=? p then cum else depthAbove p rest (cum + bid_value b)%Q
  end.

(** [for (i = 1; i <= ordersToMoveUp; i++)] of the up-shift: [n] steps are
    left, [valid] is [validMoves]. *)
Fixpoint validMovesLoop (top : Z) (bids : list MarketBid) (i n valid : nat) : nat :=
  match n with
  | O => valid
  | S n' =>
      if Qleb VALUE_THRESHOLD (depthAbove (top + Z.of_nat i) bids 0%Q)
      then validMovesLoop top bids (S i) n' i
      else valid
  end.

(** What [details] offers to the cancel functions, from the storage record
    or from the API. *)
Record Details := {
  d_order : option OrderBody;
  d_id : string;
  d_isNegRisk : bool;
  d_isYieldBearing : bool;
  d_status : string
}.

Definition detailsOfApi (a : ApiOrder) : Details :=
  {| d_order := api_order a; d_id := api_id a; d_isNegRisk := api_isNegRisk a;
     d_isYieldBearing := api_isYieldBearing a; d_status := api_status a |}.

Definition detailsOfStored (s : StoredOrder) : Details :=
  match st_details s with
  | Some a =>
      {| d_order := api_order a;
         d_id := if decide (api_id a = "") then orderId s else api_id a;
         d_isNegRisk := api_isNegRisk a; d_isYieldBearing := api_isYieldBearing a;
         d_status := api_status a |}
  | None =>
      {| d_order := None; d_id := orderId s; d_isNegRisk := false;
         d_isYieldBearing := false; d_status := "" |}
  end.

Definition hasOrder (d : option Details) : bool :=
  match d with
  | Some d' => match d_order d' with Some _ => true | None => false end
  | None => false
  end.

Definition hashSet (hs : list string) : gset string := list_to_set hs.

Section OrdersManager.
Context {R : Type} (G : Gateway R).

(** *** getExistingOrdersForMarket *)
Fixpoint existingLoop (stored : list StoredOrder) (activeOrders : list TrackedOrder)
    : M R (list TrackedOrder) :=
  match stored with
  | [] => ret activeOrders
  | order :: rest =>
      let* details := getOrderByHash G (st_orderHash order) in
      match details with
      | Some d =>
          if bool_decide (api_status d = "OPEN") then
            let p := match api_order d with
                     | Some b => priceFromAmounts (o_makerAmount b) (o_takerAmount b) true
                     | None => priceFromAmounts (api_makerAmount d) (api_takerAmount d) true
                     end in
            existingLoop rest
              (activeOrders ++ [{| price := p; orderHash := st_orderHash order |}])
          else
            let* _ := modifyStorage (deleteOrder (st_orderHash order)) in
            existingLoop rest activeOrders
      | None =>
          let* _ := modifyStorage (deleteOrder (st_orderHash order)) in
          existingLoop rest activeOrders
      end
  end.

Definition getExistingOrdersForMarket (marketId : Z) : M R (list TrackedOrder) :=
  let* st := getStorage in
  existingLoop (getOrdersForMarket marketId st) [].

(** *** processMarket *)
Fixpoint placeLoop (marketId : Z) (pricesToPlace : list Z) (placedOrders : list TrackedOrder)
    : M R (list TrackedOrder) :=
  match pricesToPlace with
  | [] => ret placedOrders
  | p :: rest =>
      let* result := openOrder G marketId p in
      match result with
      | Some h => placeLoop marketId rest (placedOrders ++ [{| price := p; orderHash := h |}])
      | None => placeLoop marketId rest placedOrders
      end
  end.

Definition processMarket (marketId : Z) (marketTitle : string) : M R (option TrackedMarket) :=
  let* existingOrders := getExistingOrdersForMarket marketId in
  let* bids := fetchOrderbook G marketId in
  match bids with
  | [] => ret None
  | _ =>
      match findStartIndex bids with
      | None =>
          match existingOrders with
          | [] => ret None
          | _ => ret (Some (mkTracked marketId marketTitle existingOrders))
          end
      | Some startIndex =>
          let startPrice := triggerPrice bids startIndex - 1 in
          let targets := targetLoop startPrice 0 (targetOrderCount startIndex) in
          let pricesToPlace :=
            List.filter (fun p => negb (bool_decide (p ∈ prices existingOrders))) targets in
          match pricesToPlace with
          | [] => ret (Some (mkTracked marketId marketTitle existingOrders))
          | _ =>
              let* placedOrders := placeLoop marketId pricesToPlace existingOrders in
              match placedOrders with
              | [] => ret None
              | _ => ret (Some (mkTracked marketId marketTitle placedOrders))
              end
          end
      end
  end.

(** *** Reconciliation (monitorLoop, lines 206-300) *)

(** Step 1 for one market: [currentHashes] is taken once, before the loop;
    [apiHashes] and the tracked orders grow along the API orders. *)
Fixpoint addUntracked (tracked : TrackedMarket) (currentHashes : gset string)
    (marketApiOrders : list ApiOrder) (apiHashes : gset string) (os : list TrackedOrder)
    : M R (gset string * list TrackedOrder) :=
  match marketApiOrders with
  | [] => ret (apiHashes, os)
  | apiOrder :: rest =>
      match apiHashOf apiOrder with
      | Some h =>
          if bool_decide (h ∈ currentHashes)
          then addUntracked tracked currentHashes rest ({[h]} ∪ apiHashes) os
          else
            let* _ := modifyStorage
                        (addOrder (api_id apiOrder) h (tm_id tracked) (tm_title tracked)) in
            addUntracked tracked currentHashes rest ({[h]} ∪ apiHashes)
              (os ++ [{| price := derivedPrice apiOrder; orderHash := h |}])
      | None => addUntracked tracked currentHashes rest apiHashes os
      end
  end.

Definition syncMarket (allOpenOrders : list ApiOrder) (tracked : TrackedMarket)
    : M R TrackedMarket :=
  let marketApiOrders := ordersOfMarket allOpenOrders (tm_id tracked) in
  let currentHashes := hashSet (hashes (orders tracked)) in
  let* (apiHashes, os) :=
    addUntracked tracked currentHashes marketApiOrders ∅ (orders tracked) in
  let kept := List.filter (fun o => bool_decide (orderHash o ∈ apiHashes)) os in
  ret (set_orders tracked (sortDesc kept)).

Definition syncOpenOrders (trackedMarkets : list TrackedMarket) : M R (list TrackedMarket) :=
  let* allOrdersRes := call (api_openOrders G) in
  match allOrdersRes with
  | Some allOpenOrders => mapM (syncMarket allOpenOrders) trackedMarkets
  | None => ret trackedMarkets
  end.

(** *** checkAndReopenFilledOrders *)
Fixpoint reopenLoop (marketId : Z) (os : list TrackedOrder)
    (ordersToRemove : list string) (ordersToAdd : list TrackedOrder)
    : M R (list string * list TrackedOrder) :=
  match os with
  | [] => ret (ordersToRemove, ordersToAdd)
  | order :: rest =>
      let* details := getOrderByHash G (orderHash order) in
      match details with
      | Some d =>
          if bool_decide (api_status d = "OPEN")
          then reopenLoop marketId rest ordersToRemove ordersToAdd
          else
            let* _ := modifyStorage (deleteOrder (orderHash order)) in
            let* result := openOrder G marketId (price order) in
            match result with
            | Some h =>
                let* _ := if decide (h = "") then ret None else getOrderByHash G h in
                reopenLoop marketId rest (ordersToRemove ++ [orderHash order])
                  (ordersToAdd ++ [{| price := price order; orderHash := h |}])
            | None =>
                reopenLoop marketId rest (ordersToRemove ++ [orderHash order]) ordersToAdd
            end
      | None => reopenLoop marketId rest ordersToRemove ordersToAdd
      end
  end.

Definition reopenMarket (tracked : TrackedMarket) : M R TrackedMarket :=
  let* (ordersToRemove, ordersToAdd) := reopenLoop (tm_id tracked) (orders tracked) [] [] in
  match ordersToRemove with
  | [] => ret tracked
  | _ =>
      let kept := List.filter (fun o => negb (bool_decide (orderHash o ∈ ordersToRemove)))
                    (orders tracked) in
      ret (set_orders tracked (sortDesc (kept ++ ordersToAdd)))
  end.

Definition checkAndReopenFilledOrders (trackedMarkets : list TrackedMarket)
    : M R (list TrackedMarket) :=
  mapM reopenMarket trackedMarkets.

(** *** incrementCancelCount *)
Definition incrementCancelCount (tracked : TrackedMarket) (count : nat) : M R TrackedMarket :=
  let c := cancelCount tracked + Z.of_nat count in
  if (10 <=? c) && (cooldownUntil tracked =? 0)
  then
    let* t := now G in
    ret {| tm_id := tm_id tracked; tm_title := tm_title tracked; orders := orders tracked;
           cancelCount := c; cooldownUntil := t + COOLDOWN_MS |}
  else
    ret {| tm_id := tm_id tracked; tm_title := tm_title tracked; orders := orders tracked;
           cancelCount := c; cooldownUntil := cooldownUntil tracked |}.

(** *** cancelTopOrders and cancelBottomOrders *)

(** Step 2 for one order: the storage record first, the API when the record
    is missing or has no [order] object. *)
Definition detailsFor (order : TrackedOrder) : M R (option Details) :=
  let* stored := getStoredOrderByHash (orderHash order) in
  let details := option_map detailsOfStored stored in
  if hasOrder details then ret details
  else
    let* res := getOrderByHash G (orderHash order) in
    match res with
    | Some d => ret (Some (detailsOfApi d))
    | None => ret details
    end.

Fixpoint collectOrderData (marketId : Z) (ordersToCancel : list TrackedOrder)
    (orderDataList : list OrderData) : M R (list OrderData) :=
  match ordersToCancel with
  | [] => ret orderDataList
  | order :: rest =>
      let* details := detailsFor order in
      match details with
      | Some d =>
          match d_order d with
          | Some body =>
              collectOrderData marketId rest
                (orderDataList ++
                 [{| od_order := body; od_id := d_id d; od_marketId := marketId;
                     od_isNegRisk := d_isNegRisk d; od_isYieldBearing := d_isYieldBearing d;
                     od_status := d_status d; od_hash := orderHash order |}])
          | None => collectOrderData marketId rest orderDataList
          end
      | None => collectOrderData marketId rest orderDataList
      end
  end.

(** Step 3, the same in both functions: the batch cancel and, on overall
    success, the removal of every attempted hash. *)
Definition batchCancel (tracked : TrackedMarket) (orderDataList : list OrderData)
    : M R (nat * TrackedMarket) :=
  match orderDataList with
  | [] => ret (O, tracked)
  | _ =>
      let* result := cancelOrders G orderDataList in
      if success result then
        let canceledHashes := hashSet (map od_hash orderDataList) in
        let kept := List.filter (fun o => negb (bool_decide (orderHash o ∈ canceledHashes)))
                      (orders tracked) in
        let* tracked' := incrementCancelCount (set_orders tracked kept) (size canceledHashes) in
        ret (size canceledHashes, tracked')
      else ret (O, tracked)
  end.

(** [cancelTopOrders]: [None] stands for the exception of the source when
    [count] exceeds the number of orders ([tracked.orders[i]] is then
    undefined and its hash is read in step 2, after the orders there are). *)
Definition cancelTopOrders (tracked : TrackedMarket) (count : nat)
    : M R (option (nat * TrackedMarket)) :=
  let ordersToCancel :=
    match orders tracked with [] => [] | _ => take count (orders tracked) end in
  match ordersToCancel with
  | [] => ret (Some (O, tracked))
  | _ =>
      let* orderDataList := collectOrderData (tm_id tracked) ordersToCancel [] in
      if (length (orders tracked) <? count)%nat then ret None
      else let* r := batchCancel tracked orderDataList in ret (Some r)
  end.

Definition cancelBottomOrders (tracked : TrackedMarket) (count : nat)
    : M R (nat * TrackedMarket) :=
  let ordersToCancel := take count (reverse (orders tracked)) in
  match ordersToCancel with
  | [] => ret (O, tracked)
  | _ =>
      let* orderDataList := collectOrderData (tm_id tracked) ordersToCancel [] in
      batchCancel tracked orderDataList
  end.

(** *** openBottomOrders and openTopOrders *)

(** The placement loop of [openBottomOrders]: [i] is the loop counter and
    [n] the iterations left. *)
Fixpoint bottomLoop (tracked : TrackedMarket) (startPrice i : Z) (n : nat)
    : M R TrackedMarket :=
  match n with
  | O => ret tracked
  | S n' =>
      let newPrice := startPrice - i in
      if newPrice <=? 0 then ret tracked
      else
        let* result := openOrder G (tm_id tracked) newPrice in
        match result with
        | Some h =>
            bottomLoop
              (set_orders tracked
                 (sortDesc (orders tracked ++ [{| price := newPrice; orderHash := h |}])))
              startPrice (i + 1) n'
        | None => bottomLoop tracked startPrice (i + 1) n'
        end
  end.

Definition openBottomOrders (tracked : TrackedMarket) (count : nat) : M R TrackedMarket :=
  match last (orders tracked) with
  | None =>
      let* bids := fetchOrderbook G (tm_id tracked) in
      match bids with
      | [] => ret tracked
      | _ =>
          match findStartIndex bids with
          | None => ret tracked
          | Some startIndex =>
              bottomLoop tracked (triggerPrice bids startIndex - 1) 0 count
          end
      end
  | Some lowestOrder => bottomLoop tracked (price lowestOrder - 1) 0 count
  end.

Fixpoint openTopOrders (tracked : TrackedMarket) (count : nat) : M R TrackedMarket :=
  match count with
  | O => ret tracked
  | S count' =>
      match orders tracked with
      | [] => ret tracked
      | highestOrder :: _ =>
          let newPrice := price highestOrder + 1 in
          if 1000 <=? newPrice then ret tracked
          else
            let* result := openOrder G (tm_id tracked) newPrice in
            match result with
            | Some h =>
                let* _ := if decide (h = "") then ret None else getOrderByHash G h in
                openTopOrders
                  (set_orders tracked
                     (sortDesc ({| price := newPrice; orderHash := h |} :: orders tracked)))
                  count'
            | None => openTopOrders tracked count'
            end
      end
  end.

(** *** checkAndRebalance *)

Definition resetCooldown (tracked : TrackedMarket) : TrackedMarket :=
  {| tm_id := tm_id tracked; tm_title := tm_title tracked; orders := orders tracked;
     cancelCount := 0; cooldownUntil := 0 |}.

(** The market is in its cooldown window at time [t]. *)
Definition inCooldown (tracked : TrackedMarket) (t : Z) : bool :=
  (0 <? cooldownUntil tracked) && negb (cooldownUntil tracked <=? t).

(** Lines 407-481: the directional rebalance of a ladder whose highest order
    is [highestOrder], against bids whose best is [bestBid]. *)
Definition shiftLadder (tracked : TrackedMarket) (bids : list MarketBid)
    (bestBid : MarketBid) (highestOrder : TrackedOrder) : M R TrackedMarket :=
  let cumulativeValue := depthAbove (price highestOrder) bids 0%Q in
  if (bid_price bestBid <=? price highestOrder) || Qltb cumulativeValue VALUE_THRESHOLD
  then
    let ordersToMoveDown :=
      Nat.min (Nat.max 1 (countAtOrAbove (bid_price bestBid) (orders tracked)))
              (length (orders tracked)) in
    let* r := cancelTopOrders tracked ordersToMoveDown in
    match r with
    | None => ret tracked
    | Some (cancelledCount, tracked') =>
        if (0 <? cancelledCount)%nat then openBottomOrders tracked' cancelledCount
        else ret tracked'
    end
  else if price highestOrder + 1 <? bid_price bestBid
  then
    let priceGap := bid_price bestBid - price highestOrder in
    let ordersToMoveUp := Nat.min (Z.to_nat priceGap) (length (orders tracked)) in
    let validMoves := validMovesLoop (price highestOrder) bids 1 ordersToMoveUp 0 in
    if (0 <? validMoves)%nat then
      let* (cancelledCount, tracked') := cancelBottomOrders tracked validMoves in
      if (0 <? cancelledCount)%nat then openTopOrders tracked' cancelledCount
      else ret tracked'
    else ret tracked
  else ret tracked.

(** Lines 388-393: enforce at most five orders, removing the lowest prices. *)
Definition trimExcess (tracked : TrackedMarket) : M R TrackedMarket :=
  if (5 <? length (orders tracked))%nat then
    let* (_, tracked') := cancelBottomOrders tracked (length (orders tracked) - 5) in
    ret tracked'
  else ret tracked.

(** Lines 395-481: fetch the book, refill up to five orders, then shift. *)
Definition refillAndShift (tracked : TrackedMarket) : M R TrackedMarket :=
  let* bids := fetchOrderbook G (tm_id tracked) in
  match bids with
  | [] => ret tracked
  | bestBid :: _ =>
      let* tracked :=
        if (length (orders tracked) <? 5)%nat
        then openBottomOrders tracked (5 - length (orders tracked))
        else ret tracked in
      match orders tracked with
      | [] => ret tracked
      | highestOrder :: _ => shiftLadder tracked bids bestBid highestOrder
      end
  end.

Definition checkAndRebalance (tracked : TrackedMarket) : M R TrackedMarket :=
  let* t := now G in
  if inCooldown tracked t then
    match orders tracked with
    | [] => ret tracked
    | _ =>
        let* (_, tracked') := cancelBottomOrders tracked (length (orders tracked)) in
        ret tracked'
    end
  else
    let tracked := if 0 <? cooldownUntil tracked then resetCooldown tracked else tracked in
    let* tracked := trimExcess tracked in
    refillAndShift tracked.

(** *** One iteration of monitorLoop *)
Definition tick (trackedMarkets : list TrackedMarket) : M R (list TrackedMarket) :=
  let* positionSold := call (sellAllPositions G) in
  let* trackedMarkets :=
    if positionSold : bool then checkAndReopenFilledOrders trackedMarkets
    else ret trackedMarkets in
  let* trackedMarkets := syncOpenOrders trackedMarkets in
  mapM checkAndRebalance trackedMarkets.

End OrdersManager.

(** ** Notions used in the statements *)


(** The first [m] terms of the sequence that starts at [start] and goes
    down by one tick. *)
Definition stepsDown (start : Z) (m : nat) : list Z :=
  map (fun j => start - Z.of_nat j) (seq 0 m).

(** The prices at which [openOrder] was called, in order. *)
Definition placedPrices (evs : list Event) : list Z :=
  omap (fun e => match e with EvOpenOrder _ p _ => Some p | _ => None end) evs.

(** A computation that logs no call. *)
Definition quiet {R A} (m : M R A) : Prop :=
  forall w, events (m w).2 = events w.

(** The hashes the gateway lists for a market. *)
Definition gatewayHashes (allOpenOrders : list ApiOrder) (marketId : Z) : gset string :=
  hashSet (omap apiHashOf (ordersOfMarket allOpenOrders marketId)).

(** The orders that step 1 of the reconciliation appends: one for each
    listed order with a hash outside [current], at its derived price. *)
Definition untrackedOrders (current : gset string) (marketApiOrders : list ApiOrder)
    : list TrackedOrder :=
  omap (fun a =>
          match apiHashOf a with
          | Some h =>
              if bool_decide (h ∈ current) then None
              else Some {| price := derivedPrice a; orderHash := h |}
          | None => None
          end) marketApiOrders.

(** [t'] is [t] reconciled against the listing [allOpenOrders]. *)
Definition reconciled (allOpenOrders : list ApiOrder) (t t' : TrackedMarket) : Prop :=
  let previous := hashSet (hashes (orders t)) in
  let gateway := gatewayHashes allOpenOrders (tm_id t) in
  tm_id t' = tm_id t /\ tm_title t' = tm_title t /\
  cancelCount t' = cancelCount t /\ cooldownUntil t' = cooldownUntil t /\
  hashSet (hashes (orders t')) = (gateway ∩ previous) ∪ (gateway ∖ previous) /\
  orders t' ≡ₚ
    List.filter (fun o => bool_decide (orderHash o ∈ gateway)) (orders t) ++
    untrackedOrders previous (ordersOfMarket allOpenOrders (tm_id t)) /\
  descending (orders t').

(** What a cancel function returns, [out], for the batch [attempted] it sent
    when the batch call reported [ok]. *)
Definition cancelOutcome (tracked : TrackedMarket) (attempted : list OrderData) (ok : bool)
    (out : nat * TrackedMarket) : Prop :=
  let hs := map od_hash attempted in
  if ok then
    out.1 = size (hashSet hs) /\
    orders out.2 =
      List.filter (fun o => negb (bool_decide (orderHash o ∈ hashSet hs))) (orders tracked) /\
    cancelCount out.2 = cancelCount tracked + Z.of_nat out.1 /\
    tm_id out.2 = tm_id tracked /\
    (NoDup (hashes (orders tracked)) ->
     out.1 = length attempted /\
     (length (orders out.2) + out.1 = length (orders tracked))%nat)
  else out.1 = O /\ out.2 = tracked.

(** The hashes that [cancelOrders] deletes from the storage: those of the
    orders, carrying a hash, of the groups that succeeded. *)
Definition bodyHashes (group : list OrderBody) : list string :=
  omap (fun o => truthy (o_hash o)) group.

Definition deletedGroup (group : list OrderBody) (r : option bool) : list string :=
  match r with Some true => bodyHashes group | _ => [] end.

Definition deletedByBatch (g : GroupedOrders) (res : CancelResult) : list string :=
  deletedGroup (regular g) (res_regular res) ++
  deletedGroup (negRisk g) (res_negRisk res) ++
  deletedGroup (regularYieldBearing g) (res_regularYieldBearing res) ++
  deletedGroup (negRiskYieldBearing g) (res_negRiskYieldBearing res).

Definition deleteAll (hs : list string) (st : Storage) : Storage :=
  fold_left (fun st h => deleteOrder h st) hs st.

(** A computation that calls [openOrder] for no price. *)
Definition noPlacement {R A} (m : M R A) : Prop :=
  forall w, placedPrices (events (m w).2) = placedPrices (events w).

(** Assumptions on a gateway that answers: the API details every order
    with its signed order, the SDK cancels every group, every submission is
    accepted. *)
Definition detailsAvailable {R} (G : Gateway R) : Prop :=
  forall h r, exists d body, (api_getOrder G h r).1 = Some d /\ api_order d = Some body.

Definition cancelsAlways {R} (G : Gateway R) : Prop :=
  forall group neg yb r, (sdk_cancelOrders G group neg yb r).1 = true.

Definition opensAlways {R} (G : Gateway R) : Prop :=
  forall m p r, (api_createOrder G m p r).1 <> None.

(** The shape the ladder keeps through the rebalancer: prices strictly
    decreasing along the list, each strictly between 0 and 1. *)
Definition ladderInv (os : list TrackedOrder) : Prop :=
  strictlyDescending (prices os) /\ Forall (fun p => 0 < p < 1000) (prices os).

(** Every book the gateway returns for [marketId] has its bids at or below 1. *)
Definition bidsWithinOne {R} (G : Gateway R) (marketId : Z) : Prop :=
  forall r, Forall (fun b => bid_price b <= 1000) (api_orderbook G marketId r).1.

(** A property of the result of a computation, whatever the world. *)
Definition always {R A} (m : M R A) (Q : A -> Prop) : Prop :=
  forall w, Q (m w).1.







(** A computation leaves the storage and the log of calls as they were. *)
Definition sameLogs {R} (w w' : World R) : Prop :=
  events w' = events w /\ storage w' = storage w.


(** ** Scripted gateways for the examples

    The remote state is a counter of the orders created; order [n] gets the
    hash ["o" ++ n].  The book, the listing, the clock and the answers to the
    cancel and detail calls are fixed by the script. *)

Record Script := {
  sc_book : list MarketBid;
  sc_listing : option (list ApiOrder);
  sc_now : Z;
  sc_sold : bool;
  sc_cancelOk : bool -> bool -> bool;
  sc_details : string -> option ApiOrder
}.

Definition scripted (s : Script) : Gateway nat :=
  {| api_createOrder := fun _ _ n =>
       (Some {| sr_orderId := pretty n; sr_hash := "o" +:+ pretty n; sr_title := "market" |},
        S n);
     api_getOrder := fun h n => (sc_details s h, n);
     sdk_cancelOrders := fun _ neg yb n => (sc_cancelOk s neg yb, n);
     api_orderbook := fun _ n => (sc_book s, n);
     api_openOrders := fun n => (sc_listing s, n);
     sellAllPositions := fun n => (sc_sold s, n);
     date_now := fun _ => sc_now s |}.

Definition bid (p : Z) (v : Z) : MarketBid :=
  {| bid_price := p; bid_quantity := 1%Q; bid_value := inject_Z v |}.

Definition bodyOf (h : string) (p : Z) : OrderBody :=
  {| o_hash := Some h; o_orderHash := None; o_makerAmount := Some (Z.to_pos p);
     o_takerAmount := Some 1000%positive; o_side := Some 0 |}.

(** An open buy order of market 1 as the API shows it: maker and taker
    amounts in the ratio [p / 1000]. *)
Definition apiOrderOf (h : string) (p : Z) (neg : bool) (st : string) : ApiOrder :=
  {| api_id := h; api_marketId := 1; api_hash := Some h; api_orderHash := None;
     api_makerAmount := Some (Z.to_pos p); api_takerAmount := Some 1000%positive;
     api_side := Some 0; api_order := Some (bodyOf h p);
     api_isNegRisk := neg; api_isYieldBearing := false; api_status := st |}.

(** A hash that names the price. *)
Definition priceHash (p : Z) : string := "a" +:+ pretty p.

Definition ord (p : Z) : TrackedOrder := {| price := p; orderHash := priceHash p |}.


(** The SDK refuses every group. *)
Definition refusing : Script :=
  {| sc_book := []; sc_listing := None; sc_now := 1000; sc_sold := false;
     sc_cancelOk := fun _ _ => false;
     sc_details := fun h => Some {| api_id := h; api_marketId := 1; api_hash := Some h;
                                    api_orderHash := None; api_makerAmount := None;
                                    api_takerAmount := None; api_side := Some 0;
                                    api_order := Some {| o_hash := Some h; o_orderHash := None;
                                                         o_makerAmount := None;
                                                         o_takerAmount := None;
                                                         o_side := Some 0 |};
                                    api_isNegRisk := false; api_isYieldBearing := false;
                                    api_status := "OPEN" |} |}.

Definition ladder (ps : list Z) : TrackedMarket :=
  {| tm_id := 1; tm_title := "market"; orders := map ord ps; cancelCount := 0;
     cooldownUntil := 0 |}.

Definition world0 : World nat := {| remote := O; storage := []; events := [] |}.

(** Every call succeeds, every order is a regular open order. *)
Definition cooperative (book : list MarketBid) : Script :=
  {| sc_book := book; sc_listing := None; sc_now := 1000; sc_sold := false;
     sc_cancelOk := fun _ _ => true;
     sc_details := fun h => Some (apiOrderOf h 500 false "OPEN") |}.

(** The SDK refuses the negRisk group; the order ["b619"] is a negRisk order. *)
Definition negRiskRefused : Script :=
  {| sc_book := []; sc_listing := None; sc_now := 1000; sc_sold := false;
     sc_cancelOk := fun neg _ => negb neg;
     sc_details := fun h => Some (apiOrderOf h 500 (bool_decide (h = "b619")) "OPEN") |}.

Definition mixedLadder : TrackedMarket :=
  {| tm_id := 1; tm_title := "market";
     orders := [{| price := 620; orderHash := "a620" |}; {| price := 619; orderHash := "b619" |}];
     cancelCount := 0; cooldownUntil := 0 |}.

Definition mixedWorld : World nat :=
  {| remote := O;
     storage := [{| market_id := 1; market_title := "market";
                    st_orders := [{| orderId := "1"; st_orderHash := "a620"; st_details := None |};
                                  {| orderId := "2"; st_orderHash := "b619"; st_details := None |}] |}];
     events := [] |}.



(** A position was sold and the order ["a500"] is reported filled. *)
Definition filledAfterSale : Script :=
  {| sc_book := [bid 510 1000]; sc_listing := None; sc_now := 1000; sc_sold := true;
     sc_cancelOk := fun _ _ => true;
     sc_details := fun h =>
       Some (apiOrderOf h 500 false (if bool_decide (h = "a500") then "FILLED" else "OPEN")) |}.

(** A market that entered its cooldown at time 0. *)
Definition cooling (os : list TrackedOrder) : TrackedMarket :=
  {| tm_id := 1; tm_title := "market"; orders := os; cancelCount := 10;
     cooldownUntil := COOLDOWN_MS |}.

(** The gateway lists two untracked orders at the same price and one
    without amounts. *)
Definition listingTwice : list ApiOrder :=
  [apiOrderOf "x1" 500 false "OPEN"; apiOrderOf "x2" 500 false "OPEN";
   {| api_id := "x3"; api_marketId := 1; api_hash := Some "x3"; api_orderHash := None;
      api_makerAmount := None; api_takerAmount := None; api_side := Some 0;
      api_order := None; api_isNegRisk := false; api_isYieldBearing := false;
      api_status := "OPEN" |}].


Definition openAt (ps : list Z) : list ApiOrder :=
  map (fun p => apiOrderOf (priceHash p) p false "OPEN") ps.


(** ** More of the order storage (order_storage.ts, lines 142-236) *)

Definition getMarketById (marketId : Z) (markets : Storage) : option StoredMarket :=
  findMarket markets marketId.

(** [markets.reduce((count, market) => count + market.orders.length, 0)] *)
Definition getOrdersCount (markets : Storage) : nat :=
  fold_left (fun count market => (count + length (st_orders market))%nat) markets O.

Definition getMarketsCount (markets : Storage) : nat := length markets.

Definition clearAll : Storage := [].

(** The record that [addOrder] writes. *)
Definition orderRecord (oid h : string) : StoredOrder :=
  {| orderId := oid; st_orderHash := h; st_details := None |}.


(** The shape of a file that only [addOrder], [updateOrderDetails] and
    [deleteOrder] have written: one entry for each market id, none without
    orders. *)
Definition storageOk (markets : Storage) : Prop :=
  NoDup (map market_id markets) /\ Forall (fun m => st_orders m <> []) markets.

(** ** Order amounts (orders.ts, openOrder, lines 601-628)

    The amounts are BigInt values: [/] truncates toward zero ([Z.quot]),
    [%] takes the sign of the dividend ([Z.rem]), and a division by [0n]
    throws, which [openOrder] catches and reports as a failure ([None]). *)

Definition PRECISION : Z := 10000000000000.
Definition WEI : Z := 1000000000000000000.

Inductive Side := BUY | SELL.

(** [makerAmount] once it is made a multiple of [PRECISION]. *)
Definition roundMakerAmount (makerAmount : Z) : Z :=
  let remainder := Z.rem makerAmount PRECISION in
  if negb (remainder =? 0) then makerAmount - remainder else makerAmount.

(** [takerAmount] recomputed from the maker amount and the price per share. *)
Definition takerAmountFor (side : Side) (makerAmount price : Z) : option Z :=
  match side with
  | BUY =>
      if price =? 0 then None
      else Some (Z.quot (makerAmount * 1000000000000000000 + price - 1) price)
  | SELL =>
      Some (Z.quot (makerAmount * price + 1000000000000000000 - 1) 1000000000000000000)
  end.


(** The price per share, in wei, of a price of [p] ticks. *)
Definition tickPriceWei (p : Z) : Z := p * 1000000000000000.

(** The calls of the SDK that [cancelOrders] logs for a batch with these
    results, in the order of the source. *)
Definition groupEvent (group : list OrderBody) (neg yb : bool) (r : option bool) : list Event :=
  match r with Some ok => [EvCancelOrders group neg yb ok] | None => [] end.

Definition batchEvents (g : GroupedOrders) (res : CancelResult) : list Event :=
  groupEvent (regular g) false false (res_regular res) ++
  groupEvent (negRisk g) true false (res_negRisk res) ++
  groupEvent (regularYieldBearing g) false true (res_regularYieldBearing res) ++
  groupEvent (negRiskYieldBearing g) true true (res_negRiskYieldBearing res).

(** A group is sent to the SDK exactly when it is not empty. *)
Definition sentIfNonEmpty (group : list OrderBody) (r : option bool) : Prop :=
  r = None <-> group = [].

(** ** Start-up (main, lines 39-68)

    [main] runs [processMarket] on the markets of the file, in order, and
    tracks those for which it returns a market. *)

Section Main.
Context {R : Type} (G : Gateway R).

Fixpoint trackAll (markets : list (Z * string)) : M R (list TrackedMarket) :=
  match markets with
  | [] => ret []
  | market :: rest =>
      let* result := processMarket G market.1 market.2 in
      let* trackedMarkets := trackAll rest in
      ret (match result with
           | Some t => t :: trackedMarkets
           | None => trackedMarkets
           end)
  end.

End Main.

(** A market as [processMarket] returns it: the given id and title, the
    counters at zero, the orders sorted. *)
Definition freshlyTracked (marketId : Z) (marketTitle : string) (t : TrackedMarket) : Prop :=
  tm_id t = marketId /\ tm_title t = marketTitle /\
  cancelCount t = 0 /\ cooldownUntil t = 0 /\ descending (orders t).

(** The details [det] report the order as no longer open (filled or
    cancelled); an order whose details cannot be fetched is left alone. *)
Definition reportedClosed (det : string -> option ApiOrder) (o : TrackedOrder) : bool :=
  match det (orderHash o) with
  | Some d => negb (bool_decide (api_status d = "OPEN"))
  | None => false
  end.

(** [evs] are submissions for market [marketId], one for each order of [os],
    at its price and in the same order. *)
Definition resubmissions (marketId : Z) (os : list TrackedOrder) (evs : list Event) : Prop :=
  Forall2 (fun o e => exists res, e = EvOpenOrder marketId (price o) res) os evs.

(** The cooldown bookkeeping is consistent: the timestamp is never negative
    and a market that has counted ten cancellations has its timestamp set. *)
Definition cooldownOk (t : TrackedMarket) : Prop :=
  0 <= cooldownUntil t /\ (10 <= cancelCount t -> 0 < cooldownUntil t).

(** The clock of the gateway never shows a negative time. *)
Definition clockStarted {R} (G : Gateway R) : Prop := forall r, 0 <= date_now G r.

(** [t'] is the market [t], possibly with other orders and counters. *)
Definition sameMarket (t t' : TrackedMarket) : Prop :=
  tm_id t' = tm_id t /\ tm_title t' = tm_title t.

Definition carried {R} (G : Gateway R) (t t' : TrackedMarket) : Prop :=
  sameMarket t t' /\ (clockStarted G -> cooldownOk t -> cooldownOk t').

(** ** getOpenOrdersRecursively (orders.ts, lines 793-834)

    [Page] is the body of one answer of the listing endpoint
    ([response.data]); [server c] is the answer to the request with
    [after = c] (no [after] for [None]), [None] when the request throws.
    The recursion follows the cursors of the server: [fuel] bounds the
    number of requests, and the function gives [None] when the bound is
    reached before the last page. *)

Record Page := {
  pg_success : bool;
  pg_data : list ApiOrder;
  pg_cursor : option string
}.

Record ListingResult := {
  lr_success : bool;
  lr_data : option (list ApiOrder)
}.

(** The result of the [catch] branch:
    [data: accumulatedOrders.length > 0 ? accumulatedOrders : undefined]. *)
Definition failedListing (accumulatedOrders : list ApiOrder) : ListingResult :=
  {| lr_success := false;
     lr_data := match accumulatedOrders with [] => None | _ => Some accumulatedOrders end |}.

Fixpoint getOpenOrdersRecursively (server : option string -> option Page) (fuel : nat)
    (cursor : option string) (accumulatedOrders : list ApiOrder) : option ListingResult :=
  match fuel with
  | O => None
  | S fuel' =>
      match server (truthy cursor) with
      | None => Some (failedListing accumulatedOrders)
      | Some page =>
          if pg_success page then
            let accumulatedOrders := accumulatedOrders ++ pg_data page in
            match truthy (pg_cursor page) with
            | Some nextCursor =>
                getOpenOrdersRecursively server fuel' (Some nextCursor) accumulatedOrders
            | None => Some {| lr_success := true; lr_data := Some accumulatedOrders |}
            end
          else Some (failedListing accumulatedOrders)
      end
  end.

(** What the monitor loop reconciles against:
    [allOrdersRes.success && allOrdersRes.data]. *)
Definition usableListing (res : ListingResult) : option (list ApiOrder) :=
  if lr_success res then lr_data res else None.

(** [served server c pages]: asked from cursor [c] on, the server answers
    the pages [pages], each with success and each but the last with the
    cursor of the next.  [broken server c pages]: it answers [pages] in this
    way and then fails, by an exception or an answer without success. *)
Inductive served (server : option string -> option Page) : option string -> list Page -> Prop :=
| served_last c page :
    server (truthy c) = Some page -> pg_success page = true ->
    truthy (pg_cursor page) = None -> served server c [page]
| served_next c page next pages :
    server (truthy c) = Some page -> pg_success page = true ->
    truthy (pg_cursor page) = Some next -> served server (Some next) pages ->
    served server c (page :: pages).

Inductive broken (server : option string -> option Page) : option string -> list Page -> Prop :=
| broken_throws c : server (truthy c) = None -> broken server c []
| broken_refused c page :
    server (truthy c) = Some page -> pg_success page = false -> broken server c []
| broken_next c page next pages :
    server (truthy c) = Some page -> pg_success page = true ->
    truthy (pg_cursor page) = Some next -> broken server (Some next) pages ->
    broken server c (page :: pages).

Definition allData (pages : list Page) : list ApiOrder := concat (map pg_data pages).

(** A server with two pages, and the same server when the second request
    fails. *)
Definition firstPage : Page :=
  {| pg_success := true; pg_data := openAt [620; 619]; pg_cursor := Some "p2" |}.

Definition lastPage : Page :=
  {| pg_success := true; pg_data := openAt [618]; pg_cursor := None |}.

Definition twoPages (c : option string) : option Page :=
  match c with
  | None => Some firstPage
  | Some _ => Some lastPage
  end.

Definition secondPageFails (c : option string) : option Page :=
  match c with
  | None => Some firstPage
  | Some _ => None
  end.

(** ** Lemmas on the sort *)

Lemma insertDesc_perm x l : insertDesc x l ≡ₚ x :: l.
Proof.
  induction l as [|y l IH]; simpl; [done|].
  destruct (price x <? price y); [|done].
  rewrite IH. apply Permutation_swap.
Qed.

Lemma sortDesc_perm l : sortDesc l ≡ₚ l.
Proof.
  induction l as [|x l IH]; simpl; [done|].
  by rewrite insertDesc_perm, IH.
Qed.

Lemma insertDesc_hd x l :
  HdRel (fun a b => price b <= price a) x l ->
  insertDesc x l = x :: l.
Proof.
  destruct l as [|y l]; simpl; [done|].
  intros H. inversion H; subst.
  destruct (Z.ltb_spec (price x) (price y)); [lia|done].
Qed.

Lemma insertDesc_sorted x l : descending l -> descending (insertDesc x l).
Proof.
  unfold descending. induction l as [|y l IH]; simpl; intros Hs.
  - repeat constructor.
  - destruct (Z.ltb_spec (price x) (price y)) as [Hlt|Hge].
    + inversion Hs as [|? ? Hs' Hhd]; subst. constructor; [by apply IH|].
      destruct l as [|z l]; simpl.
      * constructor. lia.
      * destruct (Z.ltb_spec (price x) (price z)); constructor; try lia.
        by inversion Hhd.
    + constructor; [done|]. constructor. lia.
Qed.

Lemma sortDesc_sorted l : descending (sortDesc l).
Proof.
  induction l as [|x l IH]; simpl; [constructor|].
  by apply insertDesc_sorted.
Qed.

Lemma sortDesc_id l : descending l -> sortDesc l = l.
Proof.
  unfold descending. induction l as [|x l IH]; simpl; intros Hs; [done|].
  inversion Hs; subst. rewrite IH by done. by apply insertDesc_hd.
Qed.


Lemma sortDesc_length l : length (sortDesc l) = length l.
Proof. by rewrite sortDesc_perm. Qed.

(** ** The ladder initializer *)









Lemma stepsDown_S start m : stepsDown start (S m) = start :: stepsDown (start - 1) m.
Proof.
  unfold stepsDown. simpl. f_equal; [lia|].
  rewrite <- seq_shift, map_map. apply map_ext. intros; lia.
Qed.


Lemma stepsDown_strict start m : strictlyDescending (stepsDown start m).
Proof.
  revert start. induction m as [|m IH]; intros start.
  - constructor.
  - rewrite stepsDown_S. constructor; [apply IH|].
    apply Forall_forall. intros x Hx. unfold stepsDown in Hx.
    apply list_elem_of_fmap in Hx as (j & -> & _). lia.
Qed.

Lemma stepsDown_positive start m :
  (m <= Z.to_nat start)%nat -> Forall (fun p => 0 < p) (stepsDown start m).
Proof.
  intros Hm. apply Forall_forall. intros x Hx. unfold stepsDown in Hx.
  apply list_elem_of_fmap in Hx as (j & -> & Hj). apply elem_of_seq in Hj. lia.
Qed.

Lemma stepsDown_length start m : length (stepsDown start m) = m.
Proof. unfold stepsDown. by rewrite length_map, length_seq. Qed.

(** ** Running computations *)

Lemma bind_run {R A B} (m : M R A) (k : A -> M R B) w :
  bind m k w = k (m w).1 (m w).2.
Proof. unfold bind. by destruct (m w). Qed.


Lemma quiet_ret {R A} (a : A) : quiet (@ret R A a).
Proof. done. Qed.

Lemma quiet_bind {R A B} (m : M R A) (k : A -> M R B) :
  quiet m -> (forall a, quiet (k a)) -> quiet (bind m k).
Proof. intros Hm Hk w. rewrite bind_run, Hk. apply Hm. Qed.

Lemma quiet_call {R A} (f : R -> A * R) : quiet (call f).
Proof. intros w. unfold call. by destruct (f (remote w)). Qed.

Lemma quiet_modifyStorage {R} f : quiet (@modifyStorage R f).
Proof. done. Qed.

Lemma quiet_getStorage {R} : quiet (@getStorage R).
Proof. done. Qed.

Lemma quiet_getOrderByHash {R} (G : Gateway R) h : quiet (getOrderByHash G h).
Proof.
  apply quiet_bind; [apply quiet_call|]. intros [d|]; [|apply quiet_ret].
  apply quiet_bind; [apply quiet_modifyStorage|]. intros; apply quiet_ret.
Qed.

Lemma quiet_fetchOrderbook {R} (G : Gateway R) m : quiet (fetchOrderbook G m).
Proof. apply quiet_call. Qed.

Lemma quiet_existingLoop {R} (G : Gateway R) stored acc : quiet (existingLoop G stored acc).
Proof.
  revert acc. induction stored as [|o rest IH]; intros acc; simpl; [apply quiet_ret|].
  apply quiet_bind; [apply quiet_getOrderByHash|]. intros [d|].
  - destruct (bool_decide _); [apply IH|].
    apply quiet_bind; [apply quiet_modifyStorage|]. intros; apply IH.
  - apply quiet_bind; [apply quiet_modifyStorage|]. intros; apply IH.
Qed.

Lemma quiet_getExisting {R} (G : Gateway R) m : quiet (getExistingOrdersForMarket G m).
Proof.
  apply quiet_bind; [apply quiet_getStorage|]. intros; apply quiet_existingLoop.
Qed.

Lemma openOrder_events {R} (G : Gateway R) m p w :
  events (openOrder G m p w).2 =
  events w ++ [EvOpenOrder m p (option_map sr_hash (api_createOrder G m p (remote w)).1)].
Proof.
  unfold openOrder. rewrite bind_run. unfold call.
  destruct (api_createOrder G m p (remote w)) as [[sr|] r]; done.
Qed.

Lemma placedPrices_app evs evs' :
  placedPrices (evs ++ evs') = placedPrices evs ++ placedPrices evs'.
Proof. apply omap_app. Qed.


Lemma call_fst {R A} (f : R -> A * R) (w : World R) : (call f w).1 = (f (remote w)).1.
Proof. unfold call. by destruct (f (remote w)). Qed.

Lemma call_events {R A} (f : R -> A * R) (w : World R) : events (call f w).2 = events w.
Proof. apply quiet_call. Qed.




(** ** Reconciliation *)

Lemma ratioTicks_nearest m t :
  2 * Z.abs (1000 * Z.pos m - ratioTicks m t * Z.pos t) <= Z.pos t.
Proof.
  unfold ratioTicks.
  pose proof (Z.div_mod (2000 * Z.pos m + Z.pos t) (2 * Z.pos t) ltac:(lia)) as Hdm.
  pose proof (Z.mod_pos_bound (2000 * Z.pos m + Z.pos t) (2 * Z.pos t) ltac:(lia)) as Hb.
  nia.
Qed.

Lemma hashSet_app (l1 l2 : list string) : hashSet (l1 ++ l2) = hashSet l1 ∪ hashSet l2.
Proof. unfold hashSet. apply list_to_set_app_L. Qed.

Lemma elem_of_hashSet (h : string) (l : list string) : h ∈ hashSet l <-> h ∈ l.
Proof. unfold hashSet. apply elem_of_list_to_set. Qed.

Lemma mapM_Forall2 {R A B} (f : A -> M R B) (P : A -> B -> Prop) l :
  (forall x w, P x (f x w).1) -> forall w, Forall2 P l (mapM f l w).1.
Proof.
  intros Hf. induction l as [|x l IH]; intros w; simpl; [constructor|].
  rewrite !bind_run. simpl. constructor; [apply Hf|apply IH].
Qed.


Lemma addUntracked_fst {R} t cur apis ah os (w : World R) :
  (addUntracked t cur apis ah os w).1 =
  (hashSet (omap apiHashOf apis) ∪ ah, os ++ untrackedOrders cur apis).
Proof.
  revert ah os w. induction apis as [|a apis IH]; intros ah os w; simpl.
  - f_equal; [unfold hashSet; set_solver|by rewrite app_nil_r].
  - unfold untrackedOrders. simpl. destruct (apiHashOf a) as [h|] eqn:Eh; simpl.
    + destruct (bool_decide (h ∈ cur)) eqn:Ec.
      * rewrite IH. f_equal. unfold hashSet. simpl. set_solver.
      * rewrite bind_run, IH. f_equal; [unfold hashSet; simpl; set_solver|].
        by rewrite <- app_assoc.
    + apply IH.
Qed.


Lemma untrackedOrders_hashes cur apis :
  hashSet (hashes (untrackedOrders cur apis)) = hashSet (omap apiHashOf apis) ∖ cur.
Proof.
  induction apis as [|a apis IH]; simpl.
  - unfold hashSet. set_solver.
  - unfold untrackedOrders in *. simpl. destruct (apiHashOf a) as [h|]; simpl; [|done].
    destruct (bool_decide_reflect (h ∈ cur)); unfold hashSet in *; simpl.
    + rewrite IH. set_solver.
    + rewrite IH. set_solver.
Qed.

Lemma filter_hashes (P : string -> bool) os :
  hashes (List.filter (fun o => P (orderHash o)) os) = List.filter P (hashes os).
Proof.
  induction os as [|o os IH]; simpl; [done|].
  destruct (P (orderHash o)); simpl; by rewrite IH.
Qed.

Lemma filter_all {A} (P : A -> bool) l : Forall (fun x => P x = true) l -> List.filter P l = l.
Proof.
  induction 1 as [|x l Hx _ IH]; simpl; [done|]. by rewrite Hx, IH.
Qed.

Lemma untrackedOrders_listed cur apis o :
  o ∈ untrackedOrders cur apis -> orderHash o ∈ hashSet (omap apiHashOf apis).
Proof.
  intros Ho. assert (orderHash o ∈ hashSet (hashes (untrackedOrders cur apis))) as H.
  { apply elem_of_hashSet. unfold hashes. apply list_elem_of_fmap. eauto. }
  rewrite untrackedOrders_hashes in H. set_solver.
Qed.

Lemma kept_hashes (gateway : gset string) os h :
  h ∈ hashes (List.filter (fun o => bool_decide (orderHash o ∈ gateway)) os) <->
  h ∈ gateway /\ h ∈ hashes os.
Proof.
  unfold hashes. rewrite !list_elem_of_fmap. split.
  - intros (o & -> & Ho). apply list_elem_of_In, filter_In in Ho as [Ho Hg].
    apply bool_decide_eq_true in Hg. split; [done|]. exists o. by rewrite list_elem_of_In.
  - intros [Hg (o & -> & Ho)]. exists o. split; [done|].
    apply list_elem_of_In, filter_In. split; [by apply list_elem_of_In|].
    by apply bool_decide_eq_true.
Qed.

Lemma syncMarket_reconciled {R} allOpenOrders t (w : World R) :
  reconciled allOpenOrders t (syncMarket allOpenOrders t w).1.
Proof.
  unfold syncMarket. rewrite bind_run.
  rewrite addUntracked_fst. simpl.
  set (previous := hashSet (hashes (orders t))).
  set (apis := ordersOfMarket allOpenOrders (tm_id t)).
  assert (hashSet (omap apiHashOf apis) ∪ ∅ = gatewayHashes allOpenOrders (tm_id t)) as ->.
  { unfold gatewayHashes. fold apis. set_solver. }
  set (gateway := gatewayHashes allOpenOrders (tm_id t)).
  assert (List.filter (fun o => bool_decide (orderHash o ∈ gateway))
            (orders t ++ untrackedOrders previous apis) =
          List.filter (fun o => bool_decide (orderHash o ∈ gateway)) (orders t) ++
          untrackedOrders previous apis) as Hf.
  { rewrite List.filter_app. f_equal. apply filter_all, Forall_forall.
    intros o Ho. apply bool_decide_eq_true. by apply untrackedOrders_listed in Ho. }
  unfold reconciled. simpl. fold previous. fold gateway. fold apis.
  do 4 (split; [done|]). rewrite Hf. split; [|split].
  - apply set_eq. intros h. rewrite elem_of_hashSet.
    assert (h ∈ hashes (sortDesc
              (List.filter (fun o => bool_decide (orderHash o ∈ gateway)) (orders t) ++
               untrackedOrders previous apis)) <->
            h ∈ hashes (List.filter (fun o => bool_decide (orderHash o ∈ gateway)) (orders t)) \/
            h ∈ hashes (untrackedOrders previous apis)) as ->.
    { unfold hashes. rewrite sortDesc_perm, map_app. apply elem_of_app. }
    rewrite kept_hashes, <- (elem_of_hashSet h (hashes (untrackedOrders _ _))).
    rewrite untrackedOrders_hashes. fold gateway.
    rewrite <- (elem_of_hashSet h (hashes (orders t))). fold previous. set_solver.
  - apply sortDesc_perm.
  - apply sortDesc_sorted.
Qed.


Lemma storedHashes_cons m st :
  storedHashes (m :: st) = map st_orderHash (st_orders m) ++ storedHashes st.
Proof. done. Qed.

Lemma storedHashes_app st1 st2 : storedHashes (st1 ++ st2) = storedHashes st1 ++ storedHashes st2.
Proof. unfold storedHashes. by rewrite map_app, concat_app. Qed.

Lemma pushToMarket_hashes marketId r st h :
  findMarket st marketId <> None ->
  h ∈ storedHashes (pushToMarket marketId r st) <-> h = st_orderHash r \/ h ∈ storedHashes st.
Proof.
  unfold findMarket. induction st as [|m st IH]; simpl; [done|].
  destruct (bool_decide (market_id m = marketId)); intros Hf.
  - rewrite !storedHashes_cons. simpl. rewrite map_app, !elem_of_app. simpl.
    rewrite list_elem_of_singleton. tauto.
  - rewrite !storedHashes_cons, !elem_of_app, IH by done. tauto.
Qed.

Lemma addOrder_hashes oid h marketId marketTitle st h' :
  h' ∈ storedHashes (addOrder oid h marketId marketTitle st) <-> h' = h \/ h' ∈ storedHashes st.
Proof.
  unfold addOrder. destruct (findMarket st marketId) eqn:Ef.
  - rewrite pushToMarket_hashes by congruence. done.
  - rewrite storedHashes_app, elem_of_app. unfold storedHashes at 2. simpl.
    rewrite list_elem_of_singleton. tauto.
Qed.





(** ** Cancellation *)

Lemma incrementCancelCount_run {R} (G : Gateway R) t n w :
  (incrementCancelCount G t n w).2 = w /\
  let t' := (incrementCancelCount G t n w).1 in
  tm_id t' = tm_id t /\ tm_title t' = tm_title t /\ orders t' = orders t /\
  cancelCount t' = cancelCount t + Z.of_nat n /\
  cooldownUntil t' =
    (if (10 <=? cancelCount t + Z.of_nat n) && (cooldownUntil t =? 0)
     then date_now G (remote w) + COOLDOWN_MS else cooldownUntil t).
Proof.
  unfold incrementCancelCount.
  destruct ((10 <=? cancelCount t + Z.of_nat n) && (cooldownUntil t =? 0)); simpl; done.
Qed.

Lemma collectOrderData_hashes {R} (G : Gateway R) marketId toCancel acc w :
  exists hs, map od_hash (collectOrderData G marketId toCancel acc w).1 = map od_hash acc ++ hs /\
             hs `sublist_of` hashes toCancel.
Proof.
  revert acc w. induction toCancel as [|o rest IH]; intros acc w; simpl.
  - exists []. by rewrite app_nil_r.
  - rewrite bind_run. destruct (detailsFor G o w).1 as [d|].
    + destruct (d_order d) as [body|].
      * destruct (IH (acc ++ [{| od_order := body; od_id := d_id d; od_marketId := marketId;
                                 od_isNegRisk := d_isNegRisk d;
                                 od_isYieldBearing := d_isYieldBearing d;
                                 od_status := d_status d; od_hash := orderHash o |}])
                     (detailsFor G o w).2) as (hs & -> & Hs).
        exists (orderHash o :: hs). rewrite map_app, <- app_assoc. split; [done|].
        by apply sublist_skip.
      * destruct (IH acc (detailsFor G o w).2) as (hs & -> & Hs).
        exists hs. split; [done|]. by apply sublist_cons.
    + destruct (IH acc (detailsFor G o w).2) as (hs & -> & Hs).
      exists hs. split; [done|]. by apply sublist_cons.
Qed.

Lemma size_hashSet_NoDup (hs : list string) : NoDup hs -> size (hashSet hs) = length hs.
Proof. unfold hashSet. apply size_list_to_set. Qed.

Lemma filter_out_length (os : list TrackedOrder) :
  forall hs : list string,
  NoDup (hashes os) -> NoDup hs -> hs ⊆ hashes os ->
  (length (List.filter (fun o => negb (bool_decide (orderHash o ∈ hashSet hs))) os) + length hs
   = length os)%nat.
Proof.
  induction os as [|o os IH]; intros hs Hnd Hhs Hsub; simpl.
  - destruct hs as [|h hs]; [done|]. exfalso. specialize (Hsub h). set_solver.
  - unfold hashes in Hnd. simpl in Hnd. apply NoDup_cons in Hnd as [Hnotin Hnd].
    destruct (bool_decide_reflect (orderHash o ∈ hashSet hs)) as [Hin|Hout]; simpl.
    + apply elem_of_hashSet in Hin.
      apply list_elem_of_split in Hin as (h1 & h2 & ->).
      apply NoDup_app in Hhs as (Hn1 & Hn12 & Hn2). apply NoDup_cons in Hn2 as [Hn2a Hn2].
      assert (NoDup (h1 ++ h2)) as Hnd'.
      { apply NoDup_app. split; [done|]. split; [|done].
        intros x Hx Hx2. apply (Hn12 x Hx). by right. }
      assert (h1 ++ h2 ⊆ hashes os) as Hsub'.
      { intros x Hx. assert (x ∈ h1 ++ orderHash o :: h2) as Hx' by set_solver.
        apply Hsub in Hx'. unfold hashes in Hx'. simpl in Hx'.
        apply elem_of_cons in Hx' as [->|Hx']; [|done].
        exfalso. apply elem_of_app in Hx as [Hx|Hx]; [|done].
        apply (Hn12 _ Hx). by left. }
      specialize (IH (h1 ++ h2) Hnd Hnd' Hsub').
      rewrite length_app in *. simpl.
      assert (List.filter (fun o0 => negb (bool_decide (orderHash o0 ∈ hashSet (h1 ++ orderHash o :: h2)))) os
              = List.filter (fun o0 => negb (bool_decide (orderHash o0 ∈ hashSet (h1 ++ h2)))) os) as ->.
      { apply List.filter_ext_in. intros x Hx. f_equal. apply bool_decide_ext.
        rewrite !elem_of_hashSet, !elem_of_app, elem_of_cons.
        assert (orderHash x <> orderHash o).
        { intros E. apply Hnotin. rewrite <- E. apply list_elem_of_fmap.
          exists x. split; [done|]. by apply list_elem_of_In. }
        tauto. }
      lia.
    + assert (hs ⊆ hashes os) as Hsub'.
      { intros x Hx. pose proof (Hsub x Hx) as Hx'. unfold hashes in Hx'. simpl in Hx'.
        apply elem_of_cons in Hx' as [->|Hx']; [|done].
        exfalso. apply Hout. by apply elem_of_hashSet. }
      specialize (IH hs Hnd Hhs Hsub'). lia.
Qed.

Lemma hashSet_nil : hashSet [] = ∅.
Proof. done. Qed.

Lemma batchCancel_nonempty {R} (G : Gateway R) tracked batch w :
  batch <> [] ->
  batchCancel G tracked batch w =
  (let* result := cancelOrders G batch in
   if success result then
     let canceledHashes := hashSet (map od_hash batch) in
     let kept := List.filter (fun o => negb (bool_decide (orderHash o ∈ canceledHashes)))
                   (orders tracked) in
     let* tracked' := incrementCancelCount G (set_orders tracked kept) (size canceledHashes) in
     ret (size canceledHashes, tracked')
   else ret (O, tracked)) w.
Proof. by destruct batch. Qed.

Lemma batchCancel_outcome {R} (G : Gateway R) tracked batch w :
  map od_hash batch ⊆ hashes (orders tracked) ->
  (NoDup (hashes (orders tracked)) -> NoDup (map od_hash batch)) ->
  cancelOutcome tracked batch (success (cancelOrders G batch w).1) (batchCancel G tracked batch w).1.
Proof.
  intros Hsub Hnodup. unfold cancelOutcome.
  destruct (decide (batch = [])) as [->|Hne].
  - unfold batchCancel, ret. cbn [fst snd map]. rewrite hashSet_nil, size_empty.
    split; [done|]. split.
    + symmetry. apply filter_all, Forall_forall. intros o _.
      apply negb_true_iff, bool_decide_eq_false. set_solver.
    + split; [lia|]. split; [done|]. intros _. split; [done|]. lia.
  - rewrite batchCancel_nonempty by done. rename batch into b.
    rewrite bind_run.
    destruct (success (cancelOrders G b w).1); [|done].
    rewrite bind_run.
    destruct (incrementCancelCount_run G
                (set_orders tracked
                   (List.filter (fun o => negb (bool_decide (orderHash o ∈ hashSet (map od_hash b))))
                      (orders tracked)))
                (size (hashSet (map od_hash b))) (cancelOrders G b w).2)
      as (_ & Hid & _ & Hos & Hcc & _).
    simpl in *. split; [done|]. split; [done|]. split; [done|]. split; [done|].
    intros Hnd. rewrite Hos.
    assert (NoDup (map od_hash b)) as Hndb by auto.
    rewrite size_hashSet_NoDup by done. rewrite length_map. split; [done|].
    rewrite <- (length_map od_hash b). by apply filter_out_length.
Qed.

Lemma collected_within {R} (G : Gateway R) marketId toCancel w os :
  hashes toCancel `sublist_of` os ->
  map od_hash (collectOrderData G marketId toCancel [] w).1 `sublist_of` os.
Proof.
  intros Hs. destruct (collectOrderData_hashes G marketId toCancel [] w) as (hs & -> & Hhs).
  simpl. by etrans.
Qed.

Lemma hashes_take n os : hashes (take n os) = take n (hashes os).
Proof. unfold hashes. by rewrite <- fmap_take. Qed.

Lemma hashes_reverse os : hashes (reverse os) = reverse (hashes os).
Proof. unfold hashes. by rewrite <- fmap_reverse. Qed.

Lemma cancelBottomOrders_run {R} (G : Gateway R) tracked count w :
  cancelBottomOrders G tracked count w =
  batchCancel G tracked
    (collectOrderData G (tm_id tracked) (take count (reverse (orders tracked))) [] w).1
    (collectOrderData G (tm_id tracked) (take count (reverse (orders tracked))) [] w).2.
Proof.
  unfold cancelBottomOrders.
  destruct (take count (reverse (orders tracked))) as [|o rest] eqn:E; [done|].
  by rewrite bind_run.
Qed.

Lemma cancelTopOrders_run {R} (G : Gateway R) tracked count w :
  (count <= length (orders tracked))%nat ->
  cancelTopOrders G tracked count w =
  let r := batchCancel G tracked
    (collectOrderData G (tm_id tracked) (take count (orders tracked)) [] w).1
    (collectOrderData G (tm_id tracked) (take count (orders tracked)) [] w).2 in
  (Some r.1, r.2).
Proof.
  intros Hc. unfold cancelTopOrders.
  assert (match orders tracked with [] => [] | _ => take count (orders tracked) end
          = take count (orders tracked)) as ->.
  { destruct (orders tracked); [by rewrite take_nil|done]. }
  destruct (take count (orders tracked)) as [|o rest] eqn:E; [done|].
  rewrite bind_run. destruct (Nat.ltb_spec (length (orders tracked)) count); [lia|].
  rewrite bind_run. simpl. by destruct (batchCancel _ _ _ _).
Qed.

(** C10. [cancelBottomOrders], and [cancelTopOrders] called with a count
    within the list, send the batch of the orders whose details they could
    get.  When the batch call reports overall failure they return 0 and
    return the tracked market unchanged (orders and cancel count).  When it
    reports overall success they remove the tracked orders with an
    attempted hash, add the number of attempted hashes to the cancel count
    and return that number; with distinct tracked hashes this number is the
    number of orders in the batch and the list is shorter by it. *)
Theorem cancel_functions_outcome {R} (G : Gateway R) (tracked : TrackedMarket)
    (count : nat) (w : World R) :
  (let batch := collectOrderData G (tm_id tracked)
                  (take count (reverse (orders tracked))) [] w in
   cancelOutcome tracked batch.1 (success (cancelOrders G batch.1 batch.2).1)
     (cancelBottomOrders G tracked count w).1)
  /\
  ((count <= length (orders tracked))%nat ->
   let batch := collectOrderData G (tm_id tracked) (take count (orders tracked)) [] w in
   exists out, (cancelTopOrders G tracked count w).1 = Some out /\
     cancelOutcome tracked batch.1 (success (cancelOrders G batch.1 batch.2).1) out).
Proof.
  split.
  - cbv zeta. rewrite cancelBottomOrders_run. apply batchCancel_outcome.
    + intros x Hx. eapply (elem_of_sublist _ (hashes (take count (reverse (orders tracked))))) in Hx;
        [|apply collected_within; done].
      rewrite hashes_take, hashes_reverse in Hx.
      apply elem_of_take in Hx as (i & Hx & _). apply list_elem_of_lookup_2 in Hx.
      by rewrite elem_of_reverse in Hx.
    + intros Hnd. eapply sublist_NoDup; [|apply collected_within; done].
      rewrite hashes_take, hashes_reverse.
      eapply sublist_NoDup; [|apply sublist_take]. by rewrite reverse_Permutation.
  - intros Hc. cbv zeta. rewrite cancelTopOrders_run by done. cbv zeta. simpl.
    eexists. split; [done|]. apply batchCancel_outcome.
    + apply sublist_subseteq. etrans; [apply collected_within; done|].
      rewrite hashes_take. apply sublist_take.
    + intros Hnd. eapply sublist_NoDup; [|apply collected_within; done].
      rewrite hashes_take. eapply sublist_NoDup; [done|apply sublist_take].
Qed.

(** ** Partial success of a batch *)

Lemma deleteAll_app hs1 hs2 st : deleteAll (hs1 ++ hs2) st = deleteAll hs2 (deleteAll hs1 st).
Proof. unfold deleteAll. apply fold_left_app. Qed.

Lemma removeOrdersFromStorage_run {R} (group : list OrderBody) (w : World R) :
  removeOrdersFromStorage group w =
  (tt, {| remote := remote w; storage := deleteAll (bodyHashes group) (storage w);
          events := events w |}).
Proof.
  revert w. induction group as [|o group IH]; intros w; simpl.
  - by destruct w.
  - rewrite bind_run. unfold bodyHashes. simpl.
    destruct (truthy (o_hash o)) as [h|]; simpl; rewrite IH; done.
Qed.

Lemma cancelGroup_nonempty {R} (G : Gateway R) group neg yb w :
  group <> [] ->
  cancelGroup G group neg yb w =
  (let* ok := call (sdk_cancelOrders G group neg yb) in
   let* _ := emit (EvCancelOrders group neg yb ok) in
   if ok then let* _ := removeOrdersFromStorage group in ret (Some true)
   else ret (Some false)) w.
Proof. by destruct group. Qed.

Lemma cancelGroup_storage {R} (G : Gateway R) group neg yb w :
  storage (cancelGroup G group neg yb w).2 =
  deleteAll (deletedGroup group (cancelGroup G group neg yb w).1) (storage w).
Proof.
  destruct (decide (group = [])) as [->|Hne]; [done|].
  rewrite cancelGroup_nonempty by done.
  rewrite !bind_run. unfold call.
  destruct (sdk_cancelOrders G group neg yb (remote w)) as [[|] r]; cbn [fst snd]; [|done].
  rewrite bind_run, removeOrdersFromStorage_run. done.
Qed.

Lemma cancelOrders_storage {R} (G : Gateway R) batch w :
  storage (cancelOrders G batch w).2 =
  deleteAll (deletedByBatch (groupOrdersByType batch) (cancelOrders G batch w).1) (storage w).
Proof.
  unfold cancelOrders. destruct batch as [|od batch]; [done|].
  set (g := groupOrdersByType (od :: batch)).
  rewrite !bind_run. unfold ret, deletedByBatch. cbn [fst snd res_regular res_negRisk
    res_regularYieldBearing res_negRiskYieldBearing].
  rewrite !deleteAll_app, <- !cancelGroup_storage. done.
Qed.

Lemma cancelOrders_success {R} (G : Gateway R) batch w :
  let res := (cancelOrders G batch w).1 in
  success res = true <->
  res_regular res <> Some false /\ res_negRisk res <> Some false /\
  res_regularYieldBearing res <> Some false /\ res_negRiskYieldBearing res <> Some false.
Proof.
  unfold cancelOrders. destruct batch as [|od batch]; [done|].
  rewrite !bind_run. unfold ret. cbn [fst snd success res_regular res_negRisk
    res_regularYieldBearing res_negRiskYieldBearing].
  rewrite !andb_true_iff.
  assert (forall r, groupOk r = true <-> r <> Some false) as Hg.
  { intros [[|]|]; simpl; split; congruence. }
  rewrite !Hg. tauto.
Qed.

Lemma batchCancel_failed {R} (G : Gateway R) tracked batch w :
  success (cancelOrders G batch w).1 = false ->
  batchCancel G tracked batch w = ((O, tracked), (cancelOrders G batch w).2).
Proof.
  intros Hf. destruct (decide (batch = [])) as [->|Hne]; [done|].
  rewrite batchCancel_nonempty by done. rewrite bind_run, Hf. done.
Qed.

(** C8, amended.  When some type group of a batch fails, the batch call
    reports overall failure: the cancel functions then return 0 and leave the
    tracked list and the cancel count as they were, so every attempted
    order, of a successful group or not, stays tracked in memory; in the
    storage, exactly the orders carrying a hash of the groups that succeeded
    are deleted. *)
Theorem partial_batch_cancellation {R} (G : Gateway R) (tracked : TrackedMarket)
    (count : nat) (w : World R) :
  (forall batch w1,
     let res := (cancelOrders G batch w1).1 in
     (success res = true <->
      res_regular res <> Some false /\ res_negRisk res <> Some false /\
      res_regularYieldBearing res <> Some false /\ res_negRiskYieldBearing res <> Some false) /\
     storage (cancelOrders G batch w1).2 =
       deleteAll (deletedByBatch (groupOrdersByType batch) res) (storage w1))
  /\
  (let batch := collectOrderData G (tm_id tracked)
                  (take count (reverse (orders tracked))) [] w in
   success (cancelOrders G batch.1 batch.2).1 = false ->
   cancelBottomOrders G tracked count w = ((O, tracked), (cancelOrders G batch.1 batch.2).2))
  /\
  (let batch := collectOrderData G (tm_id tracked) (take count (orders tracked)) [] w in
   (count <= length (orders tracked))%nat ->
   success (cancelOrders G batch.1 batch.2).1 = false ->
   cancelTopOrders G tracked count w =
     (Some (O, tracked), (cancelOrders G batch.1 batch.2).2)).
Proof.
  split; [|split].
  - intros batch w1. split; [apply cancelOrders_success|apply cancelOrders_storage].
  - cbv zeta. intros Hf. rewrite cancelBottomOrders_run. by apply batchCancel_failed.
  - cbv zeta. intros Hc Hf. rewrite cancelTopOrders_run by done. cbv zeta.
    by rewrite batchCancel_failed.
Qed.

(** C8 as stated fails: the regular group of the batch succeeds and the
    negRisk group is refused; the regular order ["a620"] is cancelled at the
    gateway and deleted from the storage, yet both orders stay in the
    tracked list. *)
Lemma successful_group_stays_tracked :
  let out := cancelBottomOrders (scripted negRiskRefused) mixedLadder 2 mixedWorld in
  events out.2 =
    [EvCancelOrders [bodyOf "a620" 500] false false true;
     EvCancelOrders [bodyOf "b619" 500] true false false] /\
  out.1 = (O, mixedLadder) /\
  hashes (orders out.1.2) = ["a620"; "b619"] /\
  storedHashes (storage out.2) = ["b619"].
Proof. vm_compute. done. Qed.

(** ** Instances of the theorems above *)



Lemma cancel_functions_outcome_witness :
  (2 <= length (orders mixedLadder))%nat /\
  exists out, (cancelTopOrders (scripted negRiskRefused) mixedLadder 2 mixedWorld).1 = Some out /\
              out.1 = O /\ out.2 = mixedLadder.
Proof.
  split; [simpl; lia|].
  destruct (cancel_functions_outcome (scripted negRiskRefused) mixedLadder 2 mixedWorld)
    as [_ H].
  destruct (H ltac:(simpl; lia)) as (out & Hout & Hspec).
  exists out. split; [exact Hout|]. exact Hspec.
Defined.

Lemma partial_batch_cancellation_witness :
  success (cancelOrders (scripted negRiskRefused)
             (collectOrderData (scripted negRiskRefused) 1
                (take 2 (reverse (orders mixedLadder))) [] mixedWorld).1
             (collectOrderData (scripted negRiskRefused) 1
                (take 2 (reverse (orders mixedLadder))) [] mixedWorld).2).1 = false /\
  (cancelBottomOrders (scripted negRiskRefused) mixedLadder 2 mixedWorld).1 = (O, mixedLadder).
Proof.
  split; [vm_compute; reflexivity|].
  destruct (partial_batch_cancellation (scripted negRiskRefused) mixedLadder 2 mixedWorld)
    as (_ & H & _).
  rewrite H; [reflexivity|vm_compute; reflexivity].
Defined.

(** ** Cooldown *)

Lemma noPlacement_quiet {R A} (m : M R A) : quiet m -> noPlacement m.
Proof. intros Hq w. by rewrite Hq. Qed.

Lemma noPlacement_bind {R A B} (m : M R A) (k : A -> M R B) :
  noPlacement m -> (forall a, noPlacement (k a)) -> noPlacement (bind m k).
Proof. intros Hm Hk w. rewrite bind_run, Hk. apply Hm. Qed.

Lemma noPlacement_ret {R A} (a : A) : noPlacement (@ret R A a).
Proof. done. Qed.

Lemma noPlacement_emit_cancel {R} group neg yb ok :
  noPlacement (@emit R (EvCancelOrders group neg yb ok)).
Proof. intros w. simpl. rewrite placedPrices_app. simpl. by rewrite app_nil_r. Qed.

Lemma quiet_removeOrdersFromStorage {R} group : quiet (@removeOrdersFromStorage R group).
Proof. intros w. by rewrite removeOrdersFromStorage_run. Qed.

Lemma noPlacement_cancelGroup {R} (G : Gateway R) group neg yb :
  noPlacement (cancelGroup G group neg yb).
Proof.
  destruct group as [|o group]; [apply noPlacement_ret|].
  apply noPlacement_bind; [apply noPlacement_quiet, quiet_call|]. intros ok.
  apply noPlacement_bind; [apply noPlacement_emit_cancel|]. intros _.
  destruct ok; [|apply noPlacement_ret].
  apply noPlacement_bind; [apply noPlacement_quiet, quiet_removeOrdersFromStorage|].
  intros; apply noPlacement_ret.
Qed.

Lemma noPlacement_cancelOrders {R} (G : Gateway R) batch : noPlacement (cancelOrders G batch).
Proof.
  destruct batch as [|od batch]; [apply noPlacement_ret|].
  unfold cancelOrders.
  repeat (apply noPlacement_bind; [apply noPlacement_cancelGroup|]; intros ?).
  apply noPlacement_ret.
Qed.

Lemma quiet_detailsFor {R} (G : Gateway R) o : quiet (detailsFor G o).
Proof.
  apply quiet_bind.
  { apply quiet_bind; [apply quiet_getStorage|]. intros; apply quiet_ret. }
  intros stored. cbv zeta.
  destruct (hasOrder (option_map detailsOfStored stored)); [apply quiet_ret|].
  apply quiet_bind; [apply quiet_getOrderByHash|]. intros [d|]; apply quiet_ret.
Qed.

Lemma quiet_collectOrderData {R} (G : Gateway R) marketId toCancel acc :
  quiet (collectOrderData G marketId toCancel acc).
Proof.
  revert acc. induction toCancel as [|o rest IH]; intros acc; simpl; [apply quiet_ret|].
  apply quiet_bind; [apply quiet_detailsFor|]. intros [d|]; [|apply IH].
  destruct (d_order d); apply IH.
Qed.

Lemma quiet_incrementCancelCount {R} (G : Gateway R) t n : quiet (incrementCancelCount G t n).
Proof. intros w. by destruct (incrementCancelCount_run G t n w) as [-> _]. Qed.

Lemma noPlacement_batchCancel {R} (G : Gateway R) tracked batch :
  noPlacement (batchCancel G tracked batch).
Proof.
  destruct batch as [|od batch]; [apply noPlacement_ret|].
  apply noPlacement_bind; [apply noPlacement_cancelOrders|]. intros res.
  destruct (success res); [|apply noPlacement_ret].
  apply noPlacement_bind; [apply noPlacement_quiet, quiet_incrementCancelCount|].
  intros; apply noPlacement_ret.
Qed.

Lemma noPlacement_cancelBottomOrders {R} (G : Gateway R) tracked count :
  noPlacement (cancelBottomOrders G tracked count).
Proof.
  intros w. rewrite cancelBottomOrders_run, noPlacement_batchCancel.
  by rewrite quiet_collectOrderData.
Qed.

Lemma batchCancel_cooldown {R} (G : Gateway R) tracked batch w :
  cooldownUntil tracked <> 0 ->
  cooldownUntil (batchCancel G tracked batch w).1.2 = cooldownUntil tracked.
Proof.
  intros Hc. destruct (decide (batch = [])) as [->|Hne]; [done|].
  rewrite batchCancel_nonempty by done. rewrite bind_run.
  destruct (success (cancelOrders G batch w).1); [|done].
  rewrite bind_run. cbn [fst snd ret].
  match goal with |- cooldownUntil (incrementCancelCount G ?t ?n ?w').1 = _ =>
    destruct (incrementCancelCount_run G t n w') as (_ & _ & _ & _ & _ & ->) end.
  cbn [cooldownUntil set_orders].
  destruct (Z.eqb_spec (cooldownUntil tracked) 0); [done|]. by rewrite andb_false_r.
Qed.

Lemma detailsFor_available {R} (G : Gateway R) o w :
  detailsAvailable G ->
  exists d body, (detailsFor G o w).1 = Some d /\ d_order d = Some body.
Proof.
  intros Hd. unfold detailsFor. rewrite bind_run.
  set (details := option_map detailsOfStored (getStoredOrderByHash (orderHash o) w).1).
  destruct (hasOrder details) eqn:Eh.
  - destruct details as [d|]; [|done]. simpl in Eh.
    destruct (d_order d) as [body|] eqn:Eb; [|done]. by exists d, body.
  - rewrite bind_run. unfold getOrderByHash. rewrite bind_run, call_fst.
    destruct (Hd (orderHash o) (remote (getStoredOrderByHash (orderHash o) w).2))
      as (d & body & -> & Hb).
    rewrite bind_run. exists (detailsOfApi d), body. done.
Qed.

Lemma collectOrderData_all {R} (G : Gateway R) marketId toCancel acc w :
  detailsAvailable G ->
  map od_hash (collectOrderData G marketId toCancel acc w).1 = map od_hash acc ++ hashes toCancel.
Proof.
  intros Hd. revert acc w. induction toCancel as [|o rest IH]; intros acc w; simpl.
  - by rewrite app_nil_r.
  - rewrite bind_run. destruct (detailsFor_available G o w Hd) as (d & body & -> & ->).
    rewrite IH, map_app, <- app_assoc. done.
Qed.

Lemma cancelGroup_ok {R} (G : Gateway R) group neg yb w :
  cancelsAlways G -> groupOk (cancelGroup G group neg yb w).1 = true.
Proof.
  intros Hc. destruct (decide (group = [])) as [->|Hne]; [done|].
  rewrite cancelGroup_nonempty by done. rewrite !bind_run, call_fst, Hc.
  by rewrite bind_run.
Qed.

Lemma cancelOrders_ok {R} (G : Gateway R) batch w :
  cancelsAlways G -> success (cancelOrders G batch w).1 = true.
Proof.
  intros Hc. unfold cancelOrders. destruct batch as [|od batch]; [done|].
  rewrite !bind_run. cbn [fst snd ret success]. by rewrite !cancelGroup_ok.
Qed.

Lemma reopenMarket_fields {R} (G : Gateway R) t w :
  cancelCount (reopenMarket G t w).1 = cancelCount t /\
  cooldownUntil (reopenMarket G t w).1 = cooldownUntil t.
Proof.
  unfold reopenMarket. rewrite bind_run.
  destruct (reopenLoop G (tm_id t) (orders t) [] [] w).1 as [[|h hs] adds]; done.
Qed.

Lemma checkAndRebalance_cooldown {R} (G : Gateway R) t w :
  inCooldown t (date_now G (remote w)) = true ->
  checkAndRebalance G t w =
  match orders t with
  | [] => (t, w)
  | _ => ((cancelBottomOrders G t (length (orders t)) w).1.2,
          (cancelBottomOrders G t (length (orders t)) w).2)
  end.
Proof.
  intros Hc. unfold checkAndRebalance. rewrite bind_run. unfold now at 1 2.
  cbn [fst snd]. rewrite Hc. destruct (orders t) as [|o os]; [done|].
  rewrite bind_run. by destruct (cancelBottomOrders G t _ w).1.
Qed.

Lemma checkAndRebalance_expired {R} (G : Gateway R) t w :
  0 < cooldownUntil t -> cooldownUntil t <= date_now G (remote w) ->
  checkAndRebalance G t w = checkAndRebalance G (resetCooldown t) w.
Proof.
  intros Hpos Hexp. unfold checkAndRebalance. rewrite !bind_run. unfold now.
  cbn [fst snd]. unfold inCooldown. cbn [cooldownUntil resetCooldown].
  destruct (Z.ltb_spec 0 (cooldownUntil t)); [|lia].
  destruct (Z.leb_spec (cooldownUntil t) (date_now G (remote w))); [|lia].
  simpl. done.
Qed.

Lemma filter_none {A} (P : A -> bool) l :
  (forall x, In x l -> P x = false) -> List.filter P l = [].
Proof.
  induction l as [|x l IH]; intros H; simpl; [done|].
  rewrite (H x) by (by left). apply IH. intros y Hy. apply H. by right.
Qed.

Lemma cancelBottomOrders_all {R} (G : Gateway R) t w :
  detailsAvailable G -> cancelsAlways G ->
  orders (cancelBottomOrders G t (length (orders t)) w).1.2 = [].
Proof.
  intros Hd Hc. rewrite cancelBottomOrders_run.
  set (c := collectOrderData G (tm_id t) (take (length (orders t)) (reverse (orders t))) [] w).
  assert (map od_hash c.1 = hashes (reverse (orders t))) as Hh.
  { unfold c. rewrite collectOrderData_all by done. simpl.
    by rewrite <- (length_reverse (orders t)), firstn_all. }
  pose proof (batchCancel_outcome G t c.1 c.2) as Ho. unfold cancelOutcome in Ho.
  rewrite cancelOrders_ok in Ho by done.
  destruct Ho as (_ & -> & _).
  - rewrite Hh, hashes_reverse. intros x. apply elem_of_reverse.
  - intros Hnd. rewrite Hh, hashes_reverse. by rewrite reverse_Permutation.
  - apply filter_none. intros o Ho. apply negb_false_iff, bool_decide_eq_true.
    rewrite Hh, elem_of_hashSet, hashes_reverse, elem_of_reverse.
    apply list_elem_of_fmap. exists o. split; [done|]. by apply list_elem_of_In.
Qed.

(** C5, amended.  Reconciliation and the reopening of filled orders leave
    the cancel count and the cooldown timestamp as they are; the count grows
    only in [incrementCancelCount], by the size of a cancel batch that
    succeeded, and this function sets the timestamp to now plus thirty
    minutes exactly when the new count is at least 10 and the timestamp is
    unset, leaving a set timestamp alone.  A rebalance pass that finds the
    timestamp expired runs as on the market with count 0 and timestamp
    cleared.  A rebalance pass that finds the market in cooldown sends the
    cancel batch of all its tracked orders and nothing else: it places no
    order, keeps the timestamp, and the list ends empty when the details of
    the orders are available and the batch succeeds. *)
Theorem cooldown_state_machine {R} (G : Gateway R) (tracked : TrackedMarket) (w : World R) :
  (forall allOpenOrders,
     cancelCount (syncMarket allOpenOrders tracked w).1 = cancelCount tracked /\
     cooldownUntil (syncMarket allOpenOrders tracked w).1 = cooldownUntil tracked)
  /\ (cancelCount (reopenMarket G tracked w).1 = cancelCount tracked /\
      cooldownUntil (reopenMarket G tracked w).1 = cooldownUntil tracked)
  /\ (forall n,
        let t' := (incrementCancelCount G tracked n w).1 in
        cancelCount t' = cancelCount tracked + Z.of_nat n /\
        cooldownUntil t' =
          if (10 <=? cancelCount tracked + Z.of_nat n) && (cooldownUntil tracked =? 0)
          then date_now G (remote w) + 30 * 60 * 1000 else cooldownUntil tracked)
  /\ (forall batch,
        let out := (batchCancel G tracked batch w).1 in
        (success (cancelOrders G batch w).1 = false -> out.2 = tracked) /\
        (success (cancelOrders G batch w).1 = true ->
         cancelCount out.2 = cancelCount tracked + Z.of_nat out.1) /\
        (cooldownUntil tracked <> 0 -> cooldownUntil out.2 = cooldownUntil tracked))
  /\ (0 < cooldownUntil tracked -> cooldownUntil tracked <= date_now G (remote w) ->
      checkAndRebalance G tracked w = checkAndRebalance G (resetCooldown tracked) w)
  /\ (0 < cooldownUntil tracked -> date_now G (remote w) < cooldownUntil tracked ->
      let out := checkAndRebalance G tracked w in
      out = match orders tracked with
            | [] => (tracked, w)
            | _ => ((cancelBottomOrders G tracked (length (orders tracked)) w).1.2,
                    (cancelBottomOrders G tracked (length (orders tracked)) w).2)
            end /\
      placedPrices (events out.2) = placedPrices (events w) /\
      cooldownUntil out.1 = cooldownUntil tracked /\
      (detailsAvailable G -> cancelsAlways G -> orders out.1 = [])).
Proof.
  split; [|split; [|split; [|split; [|split]]]].
  - intros allOpenOrders.
    destruct (syncMarket_reconciled allOpenOrders tracked w) as (_ & _ & ? & ? & _). done.
  - apply reopenMarket_fields.
  - intros n. destruct (incrementCancelCount_run G tracked n w) as (_ & _ & _ & _ & ? & ?).
    done.
  - intros batch. cbv zeta. split; [|split].
    + intros Hf. by rewrite batchCancel_failed.
    + intros Hs. destruct (decide (batch = [])) as [->|Hne]; [simpl; lia|].
      rewrite batchCancel_nonempty by done. rewrite bind_run, Hs, bind_run. cbn [fst snd ret].
      match goal with |- cancelCount (incrementCancelCount G ?t ?n ?w').1 = _ =>
        destruct (incrementCancelCount_run G t n w') as (_ & _ & _ & _ & -> & _) end.
      done.
    + apply batchCancel_cooldown.
  - apply checkAndRebalance_expired.
  - intros Hpos Hnow. cbv zeta.
    assert (inCooldown tracked (date_now G (remote w)) = true) as Hc.
    { unfold inCooldown. destruct (Z.ltb_spec 0 (cooldownUntil tracked)); [|lia].
      destruct (Z.leb_spec (cooldownUntil tracked) (date_now G (remote w))); [lia|done]. }
    rewrite checkAndRebalance_cooldown by done.
    split; [done|]. destruct (orders tracked) as [|o os] eqn:Eo.
    + do 2 (split; [done|]). done.
    + cbn [fst snd]. rewrite <- Eo. split; [apply noPlacement_cancelBottomOrders|]. split.
      * rewrite cancelBottomOrders_run. apply batchCancel_cooldown. lia.
      * intros Hd Hca. by apply cancelBottomOrders_all.
Qed.

(** C5 as stated fails on a tick that starts in cooldown.  After a sale,
    [checkAndReopenFilledOrders] places a new order at 0.500 for the market
    although its cooldown has 30 minutes to run; and when the SDK refuses a
    group, the orders of the market stay resting. *)
Lemma cooldown_tick_places_and_keeps_orders :
  inCooldown (cooling [ord 500]) (sc_now filledAfterSale) = true /\
  placedPrices (events (tick (scripted filledAfterSale) [cooling [ord 500]] world0).2) = [500] /\
  inCooldown (cooling (orders mixedLadder)) (sc_now negRiskRefused) = true /\
  hashes (orders (checkAndRebalance (scripted negRiskRefused)
                    (cooling (orders mixedLadder)) mixedWorld).1) = ["a620"; "b619"].
Proof. vm_compute. done. Qed.

Lemma cooldown_state_machine_witness :
  0 < cooldownUntil (cooling [ord 500]) /\
  date_now (scripted (cooperative [])) (remote world0) < cooldownUntil (cooling [ord 500]) /\
  placedPrices (events (checkAndRebalance (scripted (cooperative [])) (cooling [ord 500]) world0).2)
    = placedPrices (events world0) /\
  orders (checkAndRebalance (scripted (cooperative [])) (cooling [ord 500]) world0).1 = [].
Proof.
  split; [reflexivity|]. split; [reflexivity|].
  destruct (cooldown_state_machine (scripted (cooperative [])) (cooling [ord 500]) world0)
    as (_ & _ & _ & _ & _ & H).
  destruct (H eq_refl eq_refl) as (_ & Hp & _ & Hall).
  split; [exact Hp|]. apply Hall.
  - intros h r. eexists _, _. split; reflexivity.
  - intros group neg yb r. reflexivity.
Defined.

(** ** The shape of the ladder *)

Lemma always_ret {R A} (a : A) (Q : A -> Prop) : Q a -> always (@ret R A a) Q.
Proof. by intros H w. Qed.

Lemma always_bind {R A B} (m : M R A) (k : A -> M R B) (Q1 : A -> Prop) (Q : B -> Prop) :
  always m Q1 -> (forall a, Q1 a -> always (k a) Q) -> always (bind m k) Q.
Proof. intros Hm Hk w. rewrite bind_run. apply Hk, Hm. Qed.

Lemma always_bind_any {R A B} (m : M R A) (k : A -> M R B) (Q : B -> Prop) :
  (forall a, always (k a) Q) -> always (bind m k) Q.
Proof. intros Hk w. rewrite bind_run. apply Hk. Qed.

Lemma always_weaken {R A} (m : M R A) (Q1 Q2 : A -> Prop) :
  always m Q1 -> (forall a, Q1 a -> Q2 a) -> always m Q2.
Proof. intros Hm HQ w. apply HQ, Hm. Qed.

Lemma prices_app os1 os2 : prices (os1 ++ os2) = prices os1 ++ prices os2.
Proof. unfold prices. apply map_app. Qed.

Lemma strict_descending os : strictlyDescending (prices os) -> descending os.
Proof.
  unfold strictlyDescending, descending, prices.
  induction os as [|o os IH]; simpl; intros H; [constructor|].
  apply StronglySorted_inv in H as [Hs Hf]. constructor; [by apply IH|].
  destruct os as [|o' os]; constructor. simpl in Hf. apply Forall_cons in Hf as [Hf _]. lia.
Qed.

Lemma strict_filter (P : TrackedOrder -> bool) os :
  strictlyDescending (prices os) -> strictlyDescending (prices (List.filter P os)).
Proof.
  unfold strictlyDescending, prices.
  induction os as [|o os IH]; simpl; intros H; [constructor|].
  apply StronglySorted_inv in H as [Hs Hf].
  destruct (P o); simpl; [|by apply IH]. constructor; [by apply IH|].
  apply Forall_forall. intros q Hq. rewrite Forall_forall in Hf. apply Hf.
  apply list_elem_of_fmap in Hq as (o' & -> & Ho').
  apply list_elem_of_fmap. exists o'. split; [done|].
  apply list_elem_of_In. apply list_elem_of_In, filter_In in Ho'. tauto.
Qed.

Lemma range_filter (P : TrackedOrder -> bool) (Q : Z -> Prop) os :
  Forall Q (prices os) -> Forall Q (prices (List.filter P os)).
Proof.
  unfold prices. rewrite !Forall_forall. intros H q Hq. apply H.
  apply list_elem_of_fmap in Hq as (o' & -> & Ho').
  apply list_elem_of_fmap. exists o'. split; [done|].
  apply list_elem_of_In. apply list_elem_of_In, filter_In in Ho'. tauto.
Qed.

Lemma ladderInv_filter (P : TrackedOrder -> bool) os :
  ladderInv os -> ladderInv (List.filter P os).
Proof. intros [Hs Hr]. split; [by apply strict_filter|by apply range_filter]. Qed.

Lemma strict_snoc ps p :
  strictlyDescending ps -> Forall (fun q => p < q) ps -> strictlyDescending (ps ++ [p]).
Proof.
  unfold strictlyDescending. intros Hs Hf. apply StronglySorted_app.
  split; [|split; [done|repeat constructor]].
  intros x1 x2 H1 H2. apply list_elem_of_singleton in H2 as ->.
  rewrite Forall_forall in Hf. by apply Hf.
Qed.

Lemma ladderInv_snoc os x :
  ladderInv os -> Forall (fun q => price x < q) (prices os) -> 0 < price x < 1000 ->
  ladderInv (os ++ [x]) /\ sortDesc (os ++ [x]) = os ++ [x].
Proof.
  intros [Hs Hr] Hbelow Hx.
  assert (ladderInv (os ++ [x])) as Hinv.
  { split; rewrite prices_app; [by apply strict_snoc|].
    apply Forall_app. split; [done|]. by apply Forall_singleton. }
  split; [done|]. apply sortDesc_id, strict_descending, Hinv.
Qed.

Lemma ladderInv_cons os x :
  ladderInv os -> Forall (fun q => q < price x) (prices os) -> 0 < price x < 1000 ->
  ladderInv (x :: os) /\ sortDesc (x :: os) = x :: os.
Proof.
  intros [Hs Hr] Habove Hx.
  assert (ladderInv (x :: os)) as Hinv.
  { split; unfold prices; simpl; [by constructor|by constructor]. }
  split; [done|]. apply sortDesc_id, strict_descending, Hinv.
Qed.

Lemma ladderInv_head o os : ladderInv (o :: os) -> Forall (fun q => q < price o + 1) (prices (o :: os)).
Proof.
  intros [Hs _]. unfold prices in *. simpl in *.
  apply StronglySorted_inv in Hs as [_ Hf]. constructor; [lia|].
  eapply Forall_impl; [exact Hf|]. intros; simpl in *; lia.
Qed.

Lemma ladderInv_last os l :
  ladderInv os -> last os = Some l -> Forall (fun q => price l - 1 < q) (prices os).
Proof.
  intros [Hs _] Hl. apply last_Some in Hl as [os' ->].
  rewrite prices_app in *. unfold strictlyDescending in Hs.
  apply StronglySorted_app in Hs as (Hx & _ & _).
  apply Forall_app. split; [|apply Forall_singleton; simpl; lia].
  apply Forall_forall. intros q Hq. specialize (Hx q (price l) Hq).
  simpl in Hx. rewrite list_elem_of_singleton in Hx. specialize (Hx eq_refl). lia.
Qed.

Lemma always_fetchOrderbook {R} (G : Gateway R) marketId :
  bidsWithinOne G marketId ->
  always (fetchOrderbook G marketId) (Forall (fun b => bid_price b <= 1000)).
Proof. intros Hb w. unfold fetchOrderbook. rewrite call_fst. apply Hb. Qed.

Lemma bottomLoop_shape {R} (G : Gateway R) n :
  forall t sp i,
  0 <= i -> sp < 1000 -> ladderInv (orders t) ->
  Forall (fun q => sp - i < q) (prices (orders t)) ->
  always (bottomLoop G t sp i n) (fun t' => tm_id t' = tm_id t /\ ladderInv (orders t')).
Proof.
  induction n as [|n IH]; intros t sp i Hi Hsp Hinv Hlow; simpl.
  - by apply always_ret.
  - destruct (Z.leb_spec (sp - i) 0) as [Hle|Hpos]; [by apply always_ret|].
    apply always_bind_any. intros [h|].
    + destruct (ladderInv_snoc (orders t) {| price := sp - i; orderHash := h |} Hinv)
        as [Hinv' Hsort]; [done|simpl; lia|].
      rewrite Hsort.
      eapply always_weaken; [apply IH; simpl; try done; try lia|].
      * rewrite prices_app. apply Forall_app. split.
        -- eapply Forall_impl; [exact Hlow|]. intros; simpl in *; lia.
        -- apply Forall_singleton. simpl. lia.
      * intros t' [Hid Hl]. done.
    + apply IH; try done; try lia.
      eapply Forall_impl; [exact Hlow|]. intros; simpl in *; lia.
Qed.

Lemma triggerPrice_bound bids k :
  Forall (fun b => bid_price b <= 1000) bids -> triggerPrice bids k <= 1000.
Proof.
  intros Hb. unfold triggerPrice. destruct (bids !! k) as [b|] eqn:E; simpl; [|lia].
  rewrite Forall_forall in Hb. apply Hb. by eapply list_elem_of_lookup_2.
Qed.

Lemma openBottomOrders_shape {R} (G : Gateway R) t n :
  bidsWithinOne G (tm_id t) -> ladderInv (orders t) ->
  always (openBottomOrders G t n) (fun t' => tm_id t' = tm_id t /\ ladderInv (orders t')).
Proof.
  intros Hb Hinv. unfold openBottomOrders.
  destruct (last (orders t)) as [l|] eqn:El.
  - apply bottomLoop_shape; [lia| |done|].
    + assert (price l ∈ prices (orders t)) as Hl.
      { apply last_Some in El as [os' ->]. rewrite prices_app. set_solver. }
      destruct Hinv as [_ Hr]. rewrite Forall_forall in Hr. specialize (Hr _ Hl). lia.
    + rewrite Z.sub_0_r. by apply ladderInv_last.
  - eapply always_bind; [by apply always_fetchOrderbook|]. intros bids Hbids.
    destruct bids as [|b bids]; [by apply always_ret|].
    destruct (findStartIndex (b :: bids)) as [k|]; [|by apply always_ret].
    apply bottomLoop_shape; [lia| |done|].
    + pose proof (triggerPrice_bound (b :: bids) k Hbids). lia.
    + apply last_None in El. rewrite El. constructor.
Qed.

Lemma openTopOrders_shape {R} (G : Gateway R) n :
  forall t, ladderInv (orders t) ->
  always (openTopOrders G t n) (fun t' => tm_id t' = tm_id t /\ ladderInv (orders t')).
Proof.
  induction n as [|n IH]; intros t Hinv; simpl; [by apply always_ret|].
  destruct (orders t) as [|o os] eqn:Eo; [apply always_ret; by rewrite Eo|].
  destruct (Z.leb_spec 1000 (price o + 1)) as [Hge|Hlt]; [apply always_ret; by rewrite Eo|].
  apply always_bind_any. intros [h|].
  - apply always_bind_any. intros _.
    destruct (ladderInv_cons (o :: os) {| price := price o + 1; orderHash := h |} Hinv)
      as [Hinv' Hsort].
    + by apply ladderInv_head.
    + destruct Hinv as [_ Hr]. unfold prices in Hr. simpl in *.
      apply Forall_cons in Hr as [Hr _]. lia.
    + change (insertDesc ?x (sortDesc ?l)) with (sortDesc (x :: l)).
      rewrite Hsort. eapply always_weaken; [apply IH; done|]. done.
  - eapply always_weaken; [apply IH; by rewrite Eo|]. done.
Qed.

Lemma batchCancel_shape {R} (G : Gateway R) t batch w :
  let r := (batchCancel G t batch w).1 in
  tm_id r.2 = tm_id t /\
  ((r.1 = O /\ r.2 = t) \/
   (batch <> [] /\ r.1 = size (hashSet (map od_hash batch)) /\
    orders r.2 = List.filter
                   (fun o => negb (bool_decide (orderHash o ∈ hashSet (map od_hash batch))))
                   (orders t))).
Proof.
  cbv zeta. destruct (decide (batch = [])) as [->|Hne]; [split; [done|by left]|].
  rewrite batchCancel_nonempty by done. rewrite bind_run.
  destruct (success (cancelOrders G batch w).1); [|split; [done|by left]].
  rewrite bind_run. cbn [fst snd ret].
  match goal with |- context [incrementCancelCount G ?t ?n ?w'] =>
    destruct (incrementCancelCount_run G t n w') as (_ & Hid & _ & Hos & _) end.
  split; [done|]. right. done.
Qed.

Lemma batchCancel_ladder {R} (G : Gateway R) t batch :
  ladderInv (orders t) ->
  always (batchCancel G t batch) (fun r => tm_id r.2 = tm_id t /\ ladderInv (orders r.2)).
Proof.
  intros Hinv w. destruct (batchCancel_shape G t batch w) as [Hid [[_ ->]|(_ & _ & ->)]].
  - done.
  - split; [done|]. by apply ladderInv_filter.
Qed.

Lemma cancelBottomOrders_ladder {R} (G : Gateway R) t count :
  ladderInv (orders t) ->
  always (cancelBottomOrders G t count)
    (fun r => tm_id r.2 = tm_id t /\ ladderInv (orders r.2)).
Proof. intros Hinv w. rewrite cancelBottomOrders_run. by apply batchCancel_ladder. Qed.

Lemma cancelTopOrders_ladder {R} (G : Gateway R) t count :
  ladderInv (orders t) ->
  always (cancelTopOrders G t count)
    (fun r => match r with
              | Some r' => tm_id r'.2 = tm_id t /\ ladderInv (orders r'.2)
              | None => True
              end).
Proof.
  intros Hinv w. unfold cancelTopOrders.
  destruct (match orders t with [] => [] | _ => take count (orders t) end) as [|o rest];
    [done|].
  rewrite bind_run. destruct (length (orders t) <? count)%nat; [done|].
  rewrite bind_run. cbn [fst snd ret]. by apply batchCancel_ladder.
Qed.

Lemma shiftLadder_shape {R} (G : Gateway R) t bids bestBid highestOrder :
  bidsWithinOne G (tm_id t) -> ladderInv (orders t) ->
  always (shiftLadder G t bids bestBid highestOrder)
    (fun t' => tm_id t' = tm_id t /\ ladderInv (orders t')).
Proof.
  intros Hb Hinv. unfold shiftLadder.
  destruct (_ || _).
  - eapply always_bind; [by apply cancelTopOrders_ladder|].
    intros [[c t']|] Hr; [|by apply always_ret].
    destruct Hr as [Hid Hinv']. simpl in Hid, Hinv'.
    destruct (0 <? c)%nat; [|by apply always_ret].
    eapply always_weaken; [apply openBottomOrders_shape; [by rewrite Hid|done]|].
    intros t'' [? ?]. split; [congruence|done].
  - destruct (_ <? _); [|by apply always_ret].
    destruct (0 <? _)%nat; [|by apply always_ret].
    eapply always_bind; [by apply cancelBottomOrders_ladder|].
    intros [c t'] [Hid Hinv']. simpl in *.
    destruct (0 <? c)%nat; [|by apply always_ret].
    eapply always_weaken; [by apply openTopOrders_shape|].
    intros t'' [? ?]. split; [congruence|done].
Qed.

Lemma trimExcess_shape {R} (G : Gateway R) t :
  ladderInv (orders t) ->
  always (trimExcess G t) (fun t' => tm_id t' = tm_id t /\ ladderInv (orders t')).
Proof.
  intros Hinv. unfold trimExcess.
  destruct (5 <? length (orders t))%nat; [|by apply always_ret].
  eapply always_bind; [by apply cancelBottomOrders_ladder|].
  intros [c t'] [? ?]. simpl in *. by apply always_ret.
Qed.

Lemma refillAndShift_shape {R} (G : Gateway R) t :
  bidsWithinOne G (tm_id t) -> ladderInv (orders t) ->
  always (refillAndShift G t) (fun t' => tm_id t' = tm_id t /\ ladderInv (orders t')).
Proof.
  intros Hb Hinv. unfold refillAndShift.
  apply always_bind_any. intros bids.
  destruct bids as [|bestBid bids]; [by apply always_ret|].
  eapply (always_bind _ _ (fun t2 => tm_id t2 = tm_id t /\ ladderInv (orders t2))).
  { destruct (length (orders t) <? 5)%nat; [|by apply always_ret].
    by apply openBottomOrders_shape. }
  intros t2 [Hid2 Hinv2].
  destruct (orders t2) as [|highestOrder os] eqn:Eo; [apply always_ret; by rewrite Eo|].
  eapply always_weaken; [apply shiftLadder_shape; [by rewrite Hid2|by rewrite Eo]|].
  intros t3 [? ?]. split; [congruence|done].
Qed.

Lemma checkAndRebalance_shape {R} (G : Gateway R) t :
  bidsWithinOne G (tm_id t) -> ladderInv (orders t) ->
  always (checkAndRebalance G t) (fun t' => tm_id t' = tm_id t /\ ladderInv (orders t')).
Proof.
  intros Hb Hinv. unfold checkAndRebalance.
  apply always_bind_any. intros now.
  destruct (inCooldown t now).
  - destruct (orders t) as [|o os] eqn:Eo; [apply always_ret; by rewrite Eo|].
    eapply always_bind; [apply cancelBottomOrders_ladder; by rewrite Eo|].
    intros [c t'] ?. by apply always_ret.
  - set (t0 := if 0 <? cooldownUntil t then resetCooldown t else t).
    assert (tm_id t0 = tm_id t /\ orders t0 = orders t) as [Hid0 Hos0].
    { unfold t0. by destruct (0 <? cooldownUntil t). }
    eapply always_bind; [apply trimExcess_shape; by rewrite Hos0|].
    intros t1 [Hid1 Hinv1].
    eapply always_weaken; [apply refillAndShift_shape; [by rewrite Hid1, Hid0|done]|].
    intros t2 [? ?]. split; [congruence|done].
Qed.

(** *** Reopening filled orders *)

Lemma submseteq_NoDup_inv {A} (l k : list A) : l ⊆+ k -> NoDup k -> NoDup l.
Proof.
  intros Hs Hk. apply submseteq_sublist_l in Hs as (l2 & Hsub & Hperm).
  eapply sublist_NoDup; [|exact Hsub]. by rewrite Hperm.
Qed.

Lemma strict_NoDup ps : strictlyDescending ps -> NoDup ps.
Proof.
  unfold strictlyDescending. induction 1 as [|p ps Hs IH Hf]; constructor; [|done].
  intros Hin. rewrite Forall_forall in Hf. specialize (Hf p Hin). lia.
Qed.

Lemma descending_NoDup_strict os :
  descending os -> NoDup (prices os) -> strictlyDescending (prices os).
Proof.
  unfold descending, strictlyDescending, prices. intros Hs Hnd.
  assert (StronglySorted (fun a b => price b <= price a) os) as Hss.
  { apply Sorted_StronglySorted; [|done]. intros a b c ? ?; simpl in *; lia. }
  clear Hs. induction Hss as [|o os Hss IH Hf]; simpl in *; [constructor|].
  apply NoDup_cons in Hnd as [Hnotin Hnd]. constructor; [by apply IH|].
  apply Forall_forall. intros q Hq. apply list_elem_of_fmap in Hq as (o' & -> & Ho').
  rewrite Forall_forall in Hf. specialize (Hf o' Ho').
  assert (price o' <> price o); [|lia].
  intros E. apply Hnotin. rewrite <- E. apply list_elem_of_fmap. eauto.
Qed.

Lemma filter_rest_submseteq (P : TrackedOrder -> bool) S os :
  S `sublist_of` os -> (forall s, s ∈ S -> P s = false) ->
  List.filter P os ++ S ⊆+ os.
Proof.
  induction 1 as [|x S os Hsub IH|x S os Hsub IH]; intros HP; simpl.
  - done.
  - rewrite (HP x) by (by left).
    rewrite <- Permutation_middle. constructor. apply IH. intros s Hs. apply HP. by right.
  - destruct (P x); simpl.
    + constructor. by apply IH.
    + apply submseteq_cons. by apply IH.
Qed.

Lemma reopenLoop_spec {R} (G : Gateway R) marketId os :
  forall toRemove adds w,
  exists S A,
    (reopenLoop G marketId os toRemove adds w).1 = (toRemove ++ hashes S, adds ++ A) /\
    prices A `sublist_of` prices S /\ S `sublist_of` os.
Proof.
  induction os as [|o os IH]; intros toRemove adds w; simpl.
  - exists [], []. rewrite !app_nil_r. done.
  - rewrite bind_run. destruct (getOrderByHash G (orderHash o) w).1 as [d|].
    + destruct (bool_decide (api_status d = "OPEN")).
      * destruct (IH toRemove adds (getOrderByHash G (orderHash o) w).2) as (S & A & -> & ? & ?).
        exists S, A. split; [done|]. split; [done|]. by apply sublist_cons.
      * rewrite !bind_run. cbn [fst snd modifyStorage].
        match goal with |- context [openOrder G marketId (price o) ?w1] =>
          destruct (openOrder G marketId (price o) w1).1 as [h|] eqn:Eh;
          set (w2 := (openOrder G marketId (price o) w1).2) end.
        -- rewrite bind_run.
           match goal with |- context [reopenLoop G marketId os ?tr ?ad ?w3] =>
             destruct (IH tr ad w3) as (S & A & -> & HA & HS) end.
           exists (o :: S), ({| price := price o; orderHash := h |} :: A).
           rewrite <- !app_assoc. split; [done|]. split; [|by apply sublist_skip].
           unfold prices. simpl. by apply sublist_skip.
        -- match goal with |- context [reopenLoop G marketId os ?tr ?ad ?w3] =>
             destruct (IH tr ad w3) as (S & A & -> & HA & HS) end.
           exists (o :: S), A.
           rewrite <- !app_assoc. split; [done|]. split; [|by apply sublist_skip].
           unfold prices. simpl. by apply sublist_cons.
    + destruct (IH toRemove adds (getOrderByHash G (orderHash o) w).2) as (S & A & -> & ? & ?).
      exists S, A. split; [done|]. split; [done|]. by apply sublist_cons.
Qed.

Lemma reopenMarket_shape {R} (G : Gateway R) t :
  ladderInv (orders t) ->
  always (reopenMarket G t) (fun t' => tm_id t' = tm_id t /\ ladderInv (orders t')).
Proof.
  intros [Hs Hr] w. unfold reopenMarket. rewrite bind_run.
  destruct (reopenLoop_spec G (tm_id t) (orders t) [] [] w) as (S & A & -> & HA & HS).
  simpl. destruct (hashes S) as [|h hs] eqn:Eh; [done|]. rewrite <- Eh.
  cbn [ret fst set_orders tm_id orders]. split; [done|].
  set (kept := List.filter (fun o => negb (bool_decide (orderHash o ∈ hashes S))) (orders t)).
  assert (prices (kept ++ A) ⊆+ prices (orders t)) as Hsub.
  { rewrite prices_app. trans (prices kept ++ prices S).
    - apply submseteq_skips_l. by apply sublist_submseteq.
    - rewrite <- prices_app. unfold prices. apply fmap_submseteq.
      apply filter_rest_submseteq; [done|]. intros s Hs'.
      apply negb_false_iff, bool_decide_eq_true. unfold hashes.
      apply list_elem_of_fmap. eauto. }
  assert (prices (sortDesc (kept ++ A)) ≡ₚ prices (kept ++ A)) as Hperm.
  { unfold prices. by rewrite sortDesc_perm. }
  split.
  - apply descending_NoDup_strict; [apply sortDesc_sorted|].
    rewrite Hperm. eapply submseteq_NoDup_inv; [exact Hsub|]. by apply strict_NoDup.
  - rewrite Hperm. apply Forall_forall. intros q Hq.
    rewrite Forall_forall in Hr. apply Hr. by eapply elem_of_submseteq.
Qed.

Lemma processMarket_sorted {R} (G : Gateway R) marketId marketTitle w t :
  (processMarket G marketId marketTitle w).1 = Some t -> descending (orders t).
Proof.
  unfold processMarket. rewrite !bind_run.
  set (existing := (getExistingOrdersForMarket G marketId w).1).
  set (w1 := (getExistingOrdersForMarket G marketId w).2).
  destruct (fetchOrderbook G marketId w1).1 as [|b bids]; [done|].
  assert (forall os (w' : World R) r,
            (match os with
             | [] => ret None
             | _ => ret (Some (mkTracked marketId marketTitle os))
             end w').1 = Some r -> descending (orders r)) as Hmk.
  { intros [|o os] w' r; [done|]. intros [= <-]. apply sortDesc_sorted. }
  destruct (findStartIndex (b :: bids)) as [k|]; [|apply Hmk].
  destruct (List.filter _ _) as [|p ps].
  - intros [= <-]. apply sortDesc_sorted.
  - rewrite bind_run. apply Hmk.
Qed.

(** C9, amended.  Reconciliation and the initial placement return the list
    sorted by non-increasing price; they take the orders the gateway reports
    at the prices derived from their amounts, so equal prices and prices
    outside the open interval from 0 to 1 can enter there.  The reopening of
    filled orders and a rebalance pass keep a list whose prices are strictly
    decreasing and strictly between 0 and 1 in that shape, the rebalance
    pass as long as no bid of the book is above 1. *)
Theorem ladder_order_invariant {R} (G : Gateway R) (tracked : TrackedMarket) (w : World R) :
  (forall allOpenOrders, descending (orders (syncMarket allOpenOrders tracked w).1))
  /\ (forall marketId marketTitle t,
        (processMarket G marketId marketTitle w).1 = Some t -> descending (orders t))
  /\ (ladderInv (orders tracked) -> ladderInv (orders (reopenMarket G tracked w).1))
  /\ (ladderInv (orders tracked) -> bidsWithinOne G (tm_id tracked) ->
      ladderInv (orders (checkAndRebalance G tracked w).1)).
Proof.
  split; [|split; [|split]].
  - intros allOpenOrders.
    by destruct (syncMarket_reconciled allOpenOrders tracked w) as (_ & _ & _ & _ & _ & _ & ?).
  - intros marketId marketTitle t. apply processMarket_sorted.
  - intros Hinv. by apply reopenMarket_shape.
  - intros Hinv Hb. by apply checkAndRebalance_shape.
Qed.

(** C9 as stated fails after a reconciliation: two listed orders at 0.500
    and one without amounts are tracked at the prices 0.500, 0.500 and 0. *)
Lemma reconciliation_admits_equal_prices :
  prices (orders (syncMarket listingTwice (ladder []) world0).1) = [500; 500; 0] /\
  ~ strictlyDescending [500; 500; 0] /\
  ~ Forall (fun p => 0 < p < 1000) [500; 500; 0].
Proof.
  split; [vm_compute; reflexivity|]. split.
  - intros H. apply StronglySorted_inv in H as [_ H].
    apply Forall_cons in H as [H _]. lia.
  - intros H. apply Forall_cons in H as [_ H]. apply Forall_cons in H as [_ H].
    apply Forall_cons in H as [H _]. lia.
Qed.

Lemma ladder_order_invariant_witness :
  ladderInv (orders (ladder [620; 619; 618; 617; 616])) /\
  bidsWithinOne (scripted (cooperative [bid 618 1000])) 1 /\
  ladderInv (orders (checkAndRebalance (scripted (cooperative [bid 618 1000]))
                       (ladder [620; 619; 618; 617; 616]) world0).1).
Proof.
  assert (ladderInv (orders (ladder [620; 619; 618; 617; 616]))) as Hinv.
  { split; unfold prices, strictlyDescending; simpl;
      repeat (constructor; try lia). }
  assert (bidsWithinOne (scripted (cooperative [bid 618 1000])) 1) as Hb.
  { intros r. simpl. repeat constructor. simpl. lia. }
  split; [exact Hinv|]. split; [exact Hb|].
  destruct (ladder_order_invariant (scripted (cooperative [bid 618 1000]))
              (ladder [620; 619; 618; 617; 616]) world0) as (_ & _ & _ & H).
  apply H; [exact Hinv|exact Hb].
Defined.

(** ** The rebalancer against a gateway that answers *)









Lemma openOrder_coop {R} (G : Gateway R) m p w :
  opensAlways G ->
  exists sr, (api_createOrder G m p (remote w)).1 = Some sr /\
             (openOrder G m p w).1 = Some (sr_hash sr).
Proof.
  intros Ho. unfold openOrder. rewrite bind_run, call_fst.
  destruct (api_createOrder G m p (remote w)).1 as [sr|] eqn:E.
  - exists sr. split; [done|]. by rewrite !bind_run.
  - by destruct (Ho m p (remote w)).
Qed.











Lemma scripted_detailsAvailable s :
  (forall h, exists d body, sc_details s h = Some d /\ api_order d = Some body) ->
  detailsAvailable (scripted s).
Proof. intros H h r. apply H. Qed.














(** ** The size of the ladder *)

Lemma size_hashSet_le (l : list string) : (size (hashSet l) <= length l)%nat.
Proof.
  induction l as [|x l IH]; [by rewrite hashSet_nil, size_empty|].
  unfold hashSet in *. simpl. rewrite size_union_alt, size_singleton.
  pose proof (subseteq_size (list_to_set l ∖ {[x]}) (list_to_set l : gset string)
                ltac:(set_solver)). lia.
Qed.
































Lemma priceHash_inj p q : priceHash p = priceHash q -> p = q.
Proof.
  unfold priceHash. intros H. apply (inj (String.app "a")) in H. by apply (inj pretty) in H.
Defined.


(** ** A settled ladder *)

Lemma sameLogs_refl {R} (w : World R) : sameLogs w w.
Proof. done. Qed.


Lemma call_sameLogs {R A} (f : R -> A * R) (w : World R) : sameLogs w (call f w).2.
Proof. unfold call. by destruct (f (remote w)). Qed.









(** ** The order storage *)

Lemma findMarket_app_None st1 st2 marketId :
  findMarket st1 marketId = None ->
  findMarket (st1 ++ st2) marketId = findMarket st2 marketId.
Proof.
  unfold findMarket. induction st1 as [|m st1 IH]; simpl; [done|].
  destruct (bool_decide (market_id m = marketId)); [done|]. apply IH.
Qed.

Lemma findMarket_app_Some st1 st2 marketId m :
  findMarket st1 marketId = Some m ->
  findMarket (st1 ++ st2) marketId = Some m.
Proof.
  unfold findMarket. induction st1 as [|m' st1 IH]; simpl; [done|].
  destruct (bool_decide (market_id m' = marketId)); [done|]. apply IH.
Qed.

Lemma findMarket_push marketId r st m :
  findMarket st marketId = Some m ->
  findMarket (pushToMarket marketId r st) marketId =
  Some {| market_id := market_id m; market_title := market_title m;
          st_orders := st_orders m ++ [r] |}.
Proof.
  unfold findMarket. induction st as [|m' st IH]; simpl; [done|].
  destruct (bool_decide (market_id m' = marketId)) eqn:E; simpl.
  - intros [= ->]. by rewrite E.
  - rewrite E. apply IH.
Qed.

Lemma findMarket_push_other marketId r st m' :
  m' <> marketId ->
  findMarket (pushToMarket marketId r st) m' = findMarket st m'.
Proof.
  intros Hne. unfold findMarket. induction st as [|m st IH]; simpl; [done|].
  destruct (bool_decide_reflect (market_id m = marketId)) as [Hm|Hm]; simpl.
  - rewrite !bool_decide_eq_false_2 by congruence. done.
  - destruct (bool_decide (market_id m = m')); [done|apply IH].
Qed.

Lemma addOrder_market_orders oid h marketId marketTitle markets :
  getOrdersForMarket marketId (addOrder oid h marketId marketTitle markets) =
  getOrdersForMarket marketId markets ++ [orderRecord oid h].
Proof.
  unfold getOrdersForMarket, addOrder. fold (orderRecord oid h).
  destruct (findMarket markets marketId) as [m|] eqn:E.
  - by rewrite (findMarket_push _ _ _ _ E).
  - rewrite findMarket_app_None by done. unfold findMarket. simpl.
    by rewrite bool_decide_eq_true_2.
Qed.

Lemma addOrder_other_market oid h marketId marketTitle markets other :
  other <> marketId ->
  getOrdersForMarket other (addOrder oid h marketId marketTitle markets) =
  getOrdersForMarket other markets.
Proof.
  intros Hne. unfold getOrdersForMarket, addOrder.
  destruct (findMarket markets marketId) as [m|] eqn:E.
  - by rewrite findMarket_push_other.
  - destruct (findMarket markets other) as [m|] eqn:E'.
    + by rewrite (findMarket_app_Some _ _ _ _ E').
    + rewrite findMarket_app_None by done. unfold findMarket. simpl.
      by rewrite bool_decide_eq_false_2.
Qed.

(** X1.  [addOrder] followed by [getOrdersForMarket]: the orders of the
    market are those it had, followed by the new record (alone for a market
    the file did not have); the orders of every other market are as
    before. *)
Theorem addOrder_appends_to_market (oid h : string) (marketId : Z) (marketTitle : string)
    (markets : Storage) :
  getOrdersForMarket marketId (addOrder oid h marketId marketTitle markets) =
    getOrdersForMarket marketId markets ++ [orderRecord oid h] /\
  forall other, other <> marketId ->
    getOrdersForMarket other (addOrder oid h marketId marketTitle markets) =
    getOrdersForMarket other markets.
Proof.
  split; [apply addOrder_market_orders|]. intros other Hne. by apply addOrder_other_market.
Qed.

Lemma addOrder_appends_to_market_witness :
  getOrdersForMarket 2 (addOrder "7" "h7" 1 "market" (storage mixedWorld)) = [] /\
  getOrdersForMarket 1 (addOrder "7" "h7" 1 "market" (storage mixedWorld)) =
    getOrdersForMarket 1 (storage mixedWorld) ++ [orderRecord "7" "h7"].
Proof.
  destruct (addOrder_appends_to_market "7" "h7" 1 "market" (storage mixedWorld)) as [H1 H2].
  split; [|exact H1]. rewrite (H2 2); [reflexivity|lia].
Defined.

Lemma getStoredByHash_None h st : h ∉ storedHashes st -> getStoredByHash h st = None.
Proof.
  induction st as [|m st IH]; simpl; [done|]. rewrite storedHashes_cons, elem_of_app.
  intros Hn. destruct (List.find _ (st_orders m)) as [o|] eqn:E.
  - apply find_some in E as [Hin Ho]. apply bool_decide_eq_true in Ho.
    exfalso. apply Hn. left. apply list_elem_of_fmap. exists o. split; [done|].
    by apply list_elem_of_In.
  - apply IH. tauto.
Qed.

Lemma find_app {A} (P : A -> bool) l1 l2 :
  List.find P (l1 ++ l2) = match List.find P l1 with Some x => Some x | None => List.find P l2 end.
Proof. induction l1 as [|x l1 IH]; simpl; [done|]. by destruct (P x). Qed.

Lemma find_hash_None h os :
  h ∉ map st_orderHash os -> List.find (fun o => bool_decide (st_orderHash o = h)) os = None.
Proof.
  induction os as [|o os IH]; simpl; [done|]. rewrite elem_of_cons. intros Hn.
  rewrite bool_decide_eq_false_2 by (intros E; apply Hn; by left). apply IH. tauto.
Qed.

Lemma getStoredByHash_app h st1 st2 :
  getStoredByHash h (st1 ++ st2) =
  match getStoredByHash h st1 with Some o => Some o | None => getStoredByHash h st2 end.
Proof.
  induction st1 as [|m st1 IH]; simpl; [done|].
  by destruct (List.find _ (st_orders m)).
Qed.

Lemma getStoredByHash_push_fresh h oid marketId st :
  h ∉ storedHashes st -> findMarket st marketId <> None ->
  getStoredByHash h (pushToMarket marketId (orderRecord oid h) st) = Some (orderRecord oid h).
Proof.
  unfold findMarket. induction st as [|m st IH]; simpl; [done|].
  rewrite storedHashes_cons, elem_of_app. intros Hn Hf.
  destruct (bool_decide (market_id m = marketId)); simpl.
  - rewrite find_app, find_hash_None by tauto. simpl. by rewrite bool_decide_eq_true_2.
  - rewrite find_hash_None by tauto. apply IH; tauto.
Qed.

Lemma getStoredByHash_push_other h' r marketId st :
  h' <> st_orderHash r ->
  getStoredByHash h' (pushToMarket marketId r st) = getStoredByHash h' st.
Proof.
  intros Hne. induction st as [|m st IH]; simpl; [done|].
  destruct (bool_decide (market_id m = marketId)); simpl.
  - rewrite find_app. simpl. rewrite bool_decide_eq_false_2 by congruence.
    by destruct (List.find _ (st_orders m)).
  - by rewrite IH.
Qed.

Lemma getStoredByHash_Some h st o : getStoredByHash h st = Some o -> st_orderHash o = h.
Proof.
  induction st as [|m st IH]; simpl; [done|].
  destruct (List.find _ (st_orders m)) as [o'|] eqn:E; [|done].
  intros [= <-]. apply find_some in E as [_ Ho]. by apply bool_decide_eq_true in Ho.
Qed.

Lemma getStoredByHash_is_Some h st : h ∈ storedHashes st -> is_Some (getStoredByHash h st).
Proof.
  intros Hin. destruct (getStoredByHash h st) eqn:E; [done|]. exfalso.
  revert Hin E. induction st as [|m st IH]; simpl.
  - by intros ?%elem_of_nil.
  - rewrite storedHashes_cons, elem_of_app.
    destruct (List.find _ (st_orders m)) as [o'|] eqn:E; [done|].
    intros [Hin|Hin] E'; [|by apply IH].
    apply list_elem_of_fmap in Hin as (o & -> & Ho).
    apply list_elem_of_In in Ho.
    apply (find_none _ _ E) in Ho. by apply bool_decide_eq_false in Ho.
Qed.

(** X2.  [addOrder] followed by [getOrderByHash]: the hash just added is
    always found; when it was not stored before, the record found is the new
    one, with the given id and no details yet; the lookup of every other hash
    answers as before. *)
Theorem addOrder_then_getOrderByHash (oid h : string) (marketId : Z) (marketTitle : string)
    (markets : Storage) :
  is_Some (getStoredByHash h (addOrder oid h marketId marketTitle markets)) /\
  (h ∉ storedHashes markets ->
   getStoredByHash h (addOrder oid h marketId marketTitle markets) = Some (orderRecord oid h)) /\
  forall other, other <> h ->
    getStoredByHash other (addOrder oid h marketId marketTitle markets) =
    getStoredByHash other markets.
Proof.
  split; [|split].
  - apply getStoredByHash_is_Some, addOrder_hashes. by left.
  - intros Hn. unfold addOrder. fold (orderRecord oid h).
    destruct (findMarket markets marketId) eqn:E.
    + apply getStoredByHash_push_fresh; [done|]. by rewrite E.
    + rewrite getStoredByHash_app, getStoredByHash_None by done. simpl.
      by rewrite bool_decide_eq_true_2.
  - intros other Hne. unfold addOrder. destruct (findMarket markets marketId).
    + by apply getStoredByHash_push_other.
    + rewrite getStoredByHash_app. destruct (getStoredByHash other markets); [done|].
      simpl. by rewrite bool_decide_eq_false_2 by congruence.
Qed.

Lemma addOrder_then_getOrderByHash_witness :
  ("h7" ∉ storedHashes (storage mixedWorld)) /\
  getStoredByHash "h7" (addOrder "7" "h7" 1 "market" (storage mixedWorld)) =
    Some (orderRecord "7" "h7") /\
  getStoredByHash "a620" (addOrder "7" "h7" 1 "market" (storage mixedWorld)) =
    getStoredByHash "a620" (storage mixedWorld).
Proof.
  assert ("h7" ∉ storedHashes (storage mixedWorld)) as Hn.
  { vm_compute. intros H. repeat (apply elem_of_cons in H as [H|H]; [discriminate H|]).
    by apply elem_of_nil in H. }
  destruct (addOrder_then_getOrderByHash "7" "h7" 1 "market" (storage mixedWorld))
    as (_ & H2 & H3).
  split; [exact Hn|]. split; [exact (H2 Hn)|]. apply H3. discriminate.
Defined.

Lemma filter_sublist {A} (P : A -> bool) l : List.filter P l `sublist_of` l.
Proof.
  induction l as [|x l IH]; simpl; [done|].
  destruct (P x); [by apply sublist_skip|by apply sublist_cons].
Qed.

Lemma filter_hash_absent h os :
  h ∉ map st_orderHash os ->
  List.filter (fun o => negb (bool_decide (st_orderHash o = h))) os = os.
Proof.
  intros Hn. apply filter_all, Forall_forall. intros o Ho.
  apply negb_true_iff, bool_decide_eq_false. intros <-. apply Hn.
  apply list_elem_of_fmap. eauto.
Qed.

Lemma filter_hash_present h os :
  h ∈ map st_orderHash os ->
  (length (List.filter (fun o => negb (bool_decide (st_orderHash o = h))) os) < length os)%nat.
Proof.
  induction os as [|o os IH]; simpl.
  - by intros ?%elem_of_nil.
  - destruct (bool_decide_reflect (st_orderHash o = h)) as [E|E]; simpl.
    + intros _. pose proof (sublist_length _ _ (filter_sublist
        (fun o => negb (bool_decide (st_orderHash o = h))) os)). lia.
    + rewrite elem_of_cons. intros [?|Hin]; [congruence|]. apply IH in Hin. lia.
Qed.

Lemma filter_hash_length h os :
  (length (List.filter (fun o => negb (bool_decide (st_orderHash o = h))) os) <? length os)%nat
  = bool_decide (h ∈ map st_orderHash os).
Proof.
  destruct (bool_decide_reflect (h ∈ map st_orderHash os)) as [Hin|Hn].
  - apply Nat.ltb_lt. by apply filter_hash_present.
  - rewrite filter_hash_absent by done. apply Nat.ltb_irrefl.
Qed.

Lemma storedHashes_filter (P : StoredMarket -> bool) st :
  storedHashes (List.filter P st) `sublist_of` storedHashes st.
Proof.
  induction st as [|m st IH]; simpl; [done|]. rewrite storedHashes_cons.
  destruct (P m).
  - rewrite storedHashes_cons. by apply sublist_app.
  - by apply sublist_inserts_l.
Qed.

Lemma deleteOrderGo_absent h pre ms :
  h ∉ storedHashes ms -> deleteOrderGo h pre ms = pre ++ ms.
Proof.
  revert pre. induction ms as [|m ms IH]; intros pre; simpl.
  - by rewrite app_nil_r.
  - rewrite storedHashes_cons, elem_of_app. intros Hn.
    rewrite filter_hash_length, bool_decide_eq_false_2 by tauto.
    rewrite IH by tauto. by rewrite <- app_assoc.
Qed.

Lemma deleteOrderGo_skip h pre st rest :
  h ∉ storedHashes st -> deleteOrderGo h pre (st ++ rest) = deleteOrderGo h (pre ++ st) rest.
Proof.
  revert pre. induction st as [|m st IH]; intros pre; simpl.
  - by rewrite app_nil_r.
  - rewrite storedHashes_cons, elem_of_app. intros Hn.
    rewrite filter_hash_length, bool_decide_eq_false_2 by tauto.
    rewrite IH by tauto. by rewrite <- app_assoc.
Qed.

Lemma deleteOrderGo_sublist h pre ms :
  storedHashes (deleteOrderGo h pre ms) `sublist_of` storedHashes (pre ++ ms).
Proof.
  revert pre. induction ms as [|m ms IH]; intros pre; simpl.
  - by rewrite app_nil_r.
  - destruct (_ <? _)%nat.
    + destruct (_ =? _)%nat.
      * etrans; [apply storedHashes_filter|].
        rewrite !storedHashes_app, storedHashes_cons.
        apply sublist_app; [done|]. by apply sublist_inserts_l.
      * rewrite !storedHashes_app, !storedHashes_cons. simpl.
        apply sublist_app; [done|]. apply sublist_app; [|done].
        apply (fmap_sublist st_orderHash), filter_sublist.
    + specialize (IH (pre ++ [m])). by rewrite <- app_assoc in IH.
Qed.

Lemma deleteOrderGo_shorter h pre ms :
  h ∈ storedHashes ms ->
  (length (storedHashes (deleteOrderGo h pre ms)) < length (storedHashes (pre ++ ms)))%nat.
Proof.
  revert pre. induction ms as [|m ms IH]; intros pre; simpl.
  - by intros ?%elem_of_nil.
  - rewrite storedHashes_cons, elem_of_app. intros Hin.
    rewrite filter_hash_length.
    destruct (bool_decide_reflect (h ∈ map st_orderHash (st_orders m))) as [Hm|Hm].
    + pose proof (filter_hash_present h _ Hm) as Hlt.
      destruct (_ =? _)%nat.
      * pose proof (sublist_length _ _ (storedHashes_filter
          (fun m' => negb (bool_decide (market_id m' = market_id m))) (pre ++ ms))) as Hle.
        rewrite !storedHashes_app, storedHashes_cons, !length_app, length_map in *. lia.
      * rewrite !storedHashes_app, !storedHashes_cons, !length_app, !length_map. simpl. lia.
    + destruct Hin as [?|Hin]; [done|].
      specialize (IH (pre ++ [m]) Hin). by rewrite <- app_assoc in IH.
Qed.

(** X3.  [deleteOrder] only removes records: the hashes left are a
    sublist of those stored before; the file is left as it was when no record
    has the hash, and holds fewer records when one has. *)
Theorem deleteOrder_only_removes (h : string) (markets : Storage) :
  storedHashes (deleteOrder h markets) `sublist_of` storedHashes markets /\
  (h ∉ storedHashes markets -> deleteOrder h markets = markets) /\
  (h ∈ storedHashes markets ->
   (length (storedHashes (deleteOrder h markets)) < length (storedHashes markets))%nat).
Proof.
  unfold deleteOrder. split; [|split].
  - apply (deleteOrderGo_sublist h [] markets).
  - intros Hn. by rewrite deleteOrderGo_absent.
  - intros Hin. by apply (deleteOrderGo_shorter h [] markets).
Qed.

Lemma mixed_stored_hashes : storedHashes (storage mixedWorld) = ["a620"; "b619"].
Proof. reflexivity. Defined.

Lemma deleteOrder_only_removes_witness :
  ("zz" ∉ storedHashes (storage mixedWorld)) /\
  deleteOrder "zz" (storage mixedWorld) = storage mixedWorld /\
  ("a620" ∈ storedHashes (storage mixedWorld)) /\
  (length (storedHashes (deleteOrder "a620" (storage mixedWorld))) < 2)%nat.
Proof.
  assert ("zz" ∉ storedHashes (storage mixedWorld)) as Hn.
  { rewrite mixed_stored_hashes. intros H.
    repeat (apply elem_of_cons in H as [H|H]; [discriminate H|]). by apply elem_of_nil in H. }
  assert ("a620" ∈ storedHashes (storage mixedWorld)) as Hin.
  { rewrite mixed_stored_hashes. by left. }
  destruct (deleteOrder_only_removes "zz" (storage mixedWorld)) as (_ & H2 & _).
  destruct (deleteOrder_only_removes "a620" (storage mixedWorld)) as (_ & _ & H3).
  split; [exact Hn|]. split; [exact (H2 Hn)|]. split; [exact Hin|]. exact (H3 Hin).
Defined.

Lemma pushToMarket_delete h oid marketId pre st :
  h ∉ storedHashes st -> findMarket st marketId <> None ->
  Forall (fun m => st_orders m <> []) st ->
  deleteOrderGo h pre (pushToMarket marketId (orderRecord oid h) st) = pre ++ st.
Proof.
  unfold findMarket. revert pre. induction st as [|m st IH]; intros pre; simpl; [done|].
  rewrite storedHashes_cons, elem_of_app. intros Hn Hf Hne. inversion_clear Hne as [|? ? Hm Hst].
  destruct (bool_decide (market_id m = marketId)); simpl.
  - rewrite List.filter_app. simpl. rewrite bool_decide_eq_true_2 by done. simpl.
    rewrite app_nil_r, filter_hash_absent by tauto.
    rewrite length_app. simpl.
    replace (length (st_orders m) <? length (st_orders m) + 1)%nat with true
      by (symmetry; apply Nat.ltb_lt; lia).
    destruct (st_orders m) as [|o os] eqn:Eo; [done|]. simpl.
    rewrite <- Eo. by destruct m.
  - rewrite filter_hash_length, bool_decide_eq_false_2 by tauto.
    rewrite IH by tauto. by rewrite <- app_assoc.
Qed.

Lemma findMarket_None_filter st marketId :
  findMarket st marketId = None ->
  List.filter (fun m' => negb (bool_decide (market_id m' = marketId))) st = st.
Proof.
  unfold findMarket. intros Hf. apply filter_all, Forall_forall. intros m Hm.
  apply list_elem_of_In in Hm. apply (find_none _ _ Hf) in Hm. by rewrite Hm.
Qed.

(** X4.  Adding an order and deleting it again is a round trip: on a file
    with one entry for each market and no entry without orders,
    [deleteOrder h] after [addOrder] of a hash [h] that was not stored gives
    the file back, whether the market was in the file or not. *)
Theorem deleteOrder_undoes_addOrder (oid h : string) (marketId : Z) (marketTitle : string)
    (markets : Storage) :
  storageOk markets -> h ∉ storedHashes markets ->
  deleteOrder h (addOrder oid h marketId marketTitle markets) = markets.
Proof.
  intros [_ Hne] Hn. unfold deleteOrder, addOrder. fold (orderRecord oid h).
  destruct (findMarket markets marketId) eqn:E.
  - rewrite pushToMarket_delete; [done..| |done]. by rewrite E.
  - rewrite deleteOrderGo_skip by done. simpl.
    rewrite bool_decide_eq_true_2 by done. simpl.
    rewrite app_nil_r. by apply findMarket_None_filter.
Qed.

Lemma mixed_storageOk : storageOk (storage mixedWorld).
Proof.
  split; simpl.
  - apply NoDup_singleton.
  - by repeat constructor.
Defined.

Lemma deleteOrder_undoes_addOrder_witness :
  storageOk (storage mixedWorld) /\
  deleteOrder "h7" (addOrder "7" "h7" 2 "other" (storage mixedWorld)) = storage mixedWorld /\
  deleteOrder "h7" (addOrder "7" "h7" 1 "market" (storage mixedWorld)) = storage mixedWorld.
Proof.
  assert ("h7" ∉ storedHashes (storage mixedWorld)) as Hn.
  { rewrite mixed_stored_hashes. intros H.
    repeat (apply elem_of_cons in H as [H|H]; [discriminate H|]). by apply elem_of_nil in H. }
  split; [exact mixed_storageOk|]. split.
  - exact (deleteOrder_undoes_addOrder "7" "h7" 2 "other" _ mixed_storageOk Hn).
  - exact (deleteOrder_undoes_addOrder "7" "h7" 1 "market" _ mixed_storageOk Hn).
Defined.

Lemma pushToMarket_ids marketId r st :
  map market_id (pushToMarket marketId r st) = map market_id st.
Proof.
  induction st as [|m st IH]; simpl; [done|].
  destruct (bool_decide (market_id m = marketId)); simpl; [done|]. by rewrite IH.
Qed.

Lemma pushToMarket_nonempty marketId r st :
  Forall (fun m => st_orders m <> []) st ->
  Forall (fun m => st_orders m <> []) (pushToMarket marketId r st).
Proof.
  induction 1 as [|m st Hm Hst IH]; simpl; [done|].
  destruct (bool_decide (market_id m = marketId)); constructor; try done.
  simpl. by destruct (st_orders m).
Qed.

Lemma findMarket_None_ids st marketId :
  findMarket st marketId = None -> marketId ∉ map market_id st.
Proof.
  unfold findMarket. intros Hf Hin. apply list_elem_of_fmap in Hin as (m & -> & Hm).
  apply list_elem_of_In in Hm. apply (find_none _ _ Hf) in Hm.
  by apply bool_decide_eq_false in Hm.
Qed.

Lemma addOrder_storageOk oid h marketId marketTitle st :
  storageOk st -> storageOk (addOrder oid h marketId marketTitle st).
Proof.
  intros [Hid Hne]. unfold addOrder. destruct (findMarket st marketId) eqn:E; split.
  - by rewrite pushToMarket_ids.
  - by apply pushToMarket_nonempty.
  - rewrite map_app. simpl. apply NoDup_app. split; [done|]. split; [|apply NoDup_singleton].
    intros x Hx ->%list_elem_of_singleton. by apply (findMarket_None_ids _ _ E).
  - apply Forall_app. split; [done|]. by repeat constructor.
Qed.

Lemma filter_Forall {A} (P : A -> bool) (Q : A -> Prop) l :
  Forall Q l -> Forall Q (List.filter P l).
Proof.
  induction 1 as [|x l Hx Hl IH]; simpl; [done|]. destruct (P x); [by constructor|done].
Qed.

Lemma deleteOrderGo_storageOk h pre ms :
  storageOk (pre ++ ms) -> storageOk (deleteOrderGo h pre ms).
Proof.
  revert pre. induction ms as [|m ms IH]; intros pre; simpl.
  - by rewrite app_nil_r.
  - intros [Hid Hne]. destruct (_ <? _)%nat.
    + destruct (length _ =? 0)%nat eqn:E0.
      * split.
        -- eapply sublist_NoDup; [exact Hid|].
           apply (fmap_sublist market_id). etrans; [apply filter_sublist|].
           apply sublist_app; [done|]. by apply sublist_cons.
        -- apply filter_Forall. apply Forall_app in Hne as [H1 H2].
           inversion_clear H2. by apply Forall_app.
      * split.
        -- by rewrite map_app in *.
        -- apply Forall_app in Hne as [H1 H2]. inversion_clear H2.
           apply Forall_app. split; [done|]. constructor; [|done]. simpl.
           apply Nat.eqb_neq in E0. intros E. by rewrite E in E0.
    + apply IH. by rewrite <- app_assoc.
Qed.

Lemma updateInOrders_length h d os os' :
  updateInOrders h d os = Some os' -> length os' = length os.
Proof.
  revert os'. induction os as [|o os IH]; intros os'; simpl; [done|].
  destruct (bool_decide (st_orderHash o = h)); [by intros [= <-]|].
  destruct (updateInOrders h d os); simpl; [|done].
  intros [= <-]. simpl. f_equal. by apply IH.
Qed.

Lemma updateInOrders_hashes h d os os' :
  updateInOrders h d os = Some os' -> map st_orderHash os' = map st_orderHash os.
Proof.
  revert os'. induction os as [|o os IH]; intros os'; simpl; [done|].
  destruct (bool_decide (st_orderHash o = h)); [by intros [= <-]|].
  destruct (updateInOrders h d os); simpl; [|done].
  intros [= <-]. simpl. f_equal. by apply IH.
Qed.

Lemma updateOrderDetails_ids h d st :
  map market_id (updateOrderDetails h d st) = map market_id st.
Proof.
  induction st as [|m st IH]; simpl; [done|].
  destruct (updateInOrders h d (st_orders m)); simpl; [done|]. by rewrite IH.
Qed.

Lemma updateOrderDetails_storageOk h d st :
  storageOk st -> storageOk (updateOrderDetails h d st).
Proof.
  intros [Hid Hne]. split; [by rewrite updateOrderDetails_ids|].
  clear Hid. induction Hne as [|m st Hm Hst IH]; simpl; [done|].
  destruct (updateInOrders h d (st_orders m)) as [os|] eqn:E; constructor; try done.
  simpl. apply updateInOrders_length in E. destruct os, (st_orders m); done.
Qed.

(** X5.  The storage keeps its shape: a file with one entry for each
    market id and no entry without orders is again such a file after
    [addOrder], after [updateOrderDetails] and after [deleteOrder] (which
    drops the entry of a market when it deletes its last order), whatever
    their arguments. *)
Theorem storage_shape_is_kept (markets : Storage) :
  storageOk markets ->
  (forall oid h marketId marketTitle, storageOk (addOrder oid h marketId marketTitle markets)) /\
  (forall h d, storageOk (updateOrderDetails h d markets)) /\
  (forall h, storageOk (deleteOrder h markets)) /\
  storageOk clearAll.
Proof.
  intros Hok. split; [|split; [|split]].
  - intros. by apply addOrder_storageOk.
  - intros. by apply updateOrderDetails_storageOk.
  - intros. by apply (deleteOrderGo_storageOk h []).
  - split; constructor.
Qed.

Lemma storage_shape_is_kept_witness :
  storageOk (deleteOrder "b619" (deleteOrder "a620" (storage mixedWorld))) /\
  deleteOrder "b619" (deleteOrder "a620" (storage mixedWorld)) = [].
Proof.
  split; [|reflexivity].
  destruct (storage_shape_is_kept (storage mixedWorld) mixed_storageOk) as (_ & _ & H & _).
  destruct (storage_shape_is_kept _ (H "a620")) as (_ & _ & H' & _).
  exact (H' "b619").
Defined.

Lemma filter_ids_unchanged (marketId : Z) st :
  marketId ∉ map market_id st ->
  List.filter (fun m' => negb (bool_decide (market_id m' = marketId))) st = st.
Proof.
  intros Hn. apply filter_all, Forall_forall. intros m Hm.
  apply negb_true_iff, bool_decide_eq_false. intros E. apply Hn.
  apply list_elem_of_fmap. eauto.
Qed.

Lemma filter_app_strings (P : string -> bool) l1 l2 :
  List.filter P (l1 ++ l2) = List.filter P l1 ++ List.filter P l2.
Proof. apply List.filter_app. Qed.

Lemma filter_map_hash h os :
  List.filter (fun x => negb (bool_decide (x = h))) (map st_orderHash os) =
  map st_orderHash (List.filter (fun o => negb (bool_decide (st_orderHash o = h))) os).
Proof.
  induction os as [|o os IH]; simpl; [done|].
  destruct (bool_decide (st_orderHash o = h)); simpl; by rewrite IH.
Qed.

Lemma filter_strings_absent (h : string) l :
  h ∉ l -> List.filter (fun x => negb (bool_decide (x = h))) l = l.
Proof.
  intros Hn. apply filter_all, Forall_forall. intros x Hx.
  apply negb_true_iff, bool_decide_eq_false. by intros ->.
Qed.

Lemma deleteOrderGo_hashes h pre ms :
  NoDup (map market_id (pre ++ ms)) -> NoDup (storedHashes ms) ->
  storedHashes (deleteOrderGo h pre ms) =
  storedHashes pre ++ List.filter (fun x => negb (bool_decide (x = h))) (storedHashes ms).
Proof.
  revert pre. induction ms as [|m ms IH]; intros pre Hid Hnd; simpl.
  - by rewrite app_nil_r.
  - rewrite storedHashes_cons in Hnd. apply NoDup_app in Hnd as (Hm & Hcross & Hms).
    rewrite storedHashes_cons, filter_app_strings, filter_map_hash, filter_hash_length.
    destruct (bool_decide_reflect (h ∈ map st_orderHash (st_orders m))) as [Hin|Hn].
    + rewrite (filter_strings_absent h (storedHashes ms)) by (by apply Hcross).
      destruct (length _ =? 0)%nat eqn:E0.
      * apply Nat.eqb_eq, nil_length_inv in E0. rewrite E0. simpl.
        rewrite filter_ids_unchanged.
        -- by rewrite storedHashes_app.
        -- rewrite map_app in *. simpl in Hid.
           apply NoDup_app in Hid as (H1 & H2 & H3). inversion_clear H3 as [|? ? H4 H5].
           rewrite elem_of_app. intros [Hx|Hx]; [|done].
           apply (H2 _ Hx). by left.
      * by rewrite storedHashes_app, storedHashes_cons.
    + rewrite filter_hash_absent by done. rewrite IH.
      * rewrite storedHashes_app, <- app_assoc. f_equal.
        rewrite storedHashes_cons. simpl. by rewrite <- app_assoc.
      * by rewrite <- app_assoc.
      * done.
Qed.

(** X6.  On a file with one entry for each market id in which no hash is
    stored twice, [deleteOrder h] removes the hash [h] and nothing else: the
    hashes left are those stored before, in their order, without [h]. *)
Theorem deleteOrder_removes_the_hash (h : string) (markets : Storage) :
  NoDup (map market_id markets) -> NoDup (storedHashes markets) ->
  storedHashes (deleteOrder h markets) =
  List.filter (fun x => negb (bool_decide (x = h))) (storedHashes markets).
Proof. intros Hid Hnd. unfold deleteOrder. by rewrite (deleteOrderGo_hashes h [] markets). Qed.

Lemma deleteOrder_removes_the_hash_witness :
  NoDup (storedHashes (storage mixedWorld)) /\
  storedHashes (deleteOrder "a620" (storage mixedWorld)) = ["b619"].
Proof.
  assert (NoDup (storedHashes (storage mixedWorld))) as Hnd.
  { rewrite mixed_stored_hashes. apply NoDup_cons. split.
    - intros H. repeat (apply elem_of_cons in H as [H|H]; [discriminate H|]).
      by apply elem_of_nil in H.
    - apply NoDup_singleton. }
  split; [exact Hnd|].
  rewrite (deleteOrder_removes_the_hash "a620" (storage mixedWorld)
             (proj1 mixed_storageOk) Hnd).
  reflexivity.
Defined.




Lemma updateOrderDetails_hashes h d st :
  storedHashes (updateOrderDetails h d st) = storedHashes st.
Proof.
  induction st as [|m st IH]; simpl; [done|].
  destruct (updateInOrders h d (st_orders m)) as [os|] eqn:E.
  - rewrite !storedHashes_cons. simpl. by rewrite (updateInOrders_hashes _ _ _ _ E).
  - by rewrite !storedHashes_cons, IH.
Qed.



Lemma getOrdersCount_from (n : nat) st :
  fold_left (fun count market => (count + length (st_orders market))%nat) st n =
  (n + length (storedHashes st))%nat.
Proof.
  revert n. induction st as [|m st IH]; intros n; simpl; [lia|].
  rewrite IH, storedHashes_cons, length_app, length_map. lia.
Qed.

Lemma getOrdersCount_length st : getOrdersCount st = length (storedHashes st).
Proof. unfold getOrdersCount. by rewrite getOrdersCount_from. Qed.

Lemma pushToMarket_count marketId r st :
  findMarket st marketId <> None ->
  length (storedHashes (pushToMarket marketId r st)) = S (length (storedHashes st)).
Proof.
  unfold findMarket. induction st as [|m st IH]; simpl; [done|].
  destruct (bool_decide (market_id m = marketId)); simpl; intros Hf.
  - rewrite !storedHashes_cons. simpl. rewrite !length_app, !length_map, length_app. simpl. lia.
  - rewrite !storedHashes_cons, !length_app, IH by done. lia.
Qed.

Lemma pushToMarket_length marketId r st : length (pushToMarket marketId r st) = length st.
Proof.
  induction st as [|m st IH]; simpl; [done|].
  destruct (bool_decide (market_id m = marketId)); simpl; [done|]. by rewrite IH.
Qed.

Lemma deleteOrderGo_length h pre ms :
  (length (deleteOrderGo h pre ms) <= length (pre ++ ms))%nat.
Proof.
  revert pre. induction ms as [|m ms IH]; intros pre; simpl.
  - rewrite app_nil_r. lia.
  - destruct (_ <? _)%nat.
    + destruct (_ =? _)%nat.
      * etrans; [apply sublist_length, filter_sublist|]. rewrite !length_app. simpl. lia.
      * rewrite !length_app. simpl. lia.
    + specialize (IH (pre ++ [m])). by rewrite <- app_assoc in IH.
Qed.

(** X8.  The counters of the storage: [getOrdersCount] is the number of
    records in the file; [addOrder] raises it by one and raises
    [getMarketsCount] by one exactly when the market was not in the file;
    [updateOrderDetails] keeps both; [deleteOrder] raises neither; after
    [clearAll] both are 0. *)
Theorem storage_counters (markets : Storage) (oid h : string) (marketId : Z)
    (marketTitle : string) (d : ApiOrder) :
  getOrdersCount markets = length (storedHashes markets) /\
  getOrdersCount (addOrder oid h marketId marketTitle markets) = S (getOrdersCount markets) /\
  getMarketsCount (addOrder oid h marketId marketTitle markets) =
    (match getMarketById marketId markets with
     | Some _ => getMarketsCount markets
     | None => S (getMarketsCount markets)
     end) /\
  getOrdersCount (updateOrderDetails h d markets) = getOrdersCount markets /\
  getMarketsCount (updateOrderDetails h d markets) = getMarketsCount markets /\
  (getOrdersCount (deleteOrder h markets) <= getOrdersCount markets)%nat /\
  (getMarketsCount (deleteOrder h markets) <= getMarketsCount markets)%nat /\
  getOrdersCount clearAll = O /\ getMarketsCount clearAll = O.
Proof.
  rewrite !getOrdersCount_length. unfold getMarketsCount, getMarketById.
  split; [done|]. split; [|split; [|split; [|split; [|split; [|split]]]]].
  - unfold addOrder. destruct (findMarket markets marketId) eqn:E.
    + apply pushToMarket_count. by rewrite E.
    + rewrite storedHashes_app, length_app. simpl. lia.
  - unfold addOrder. destruct (findMarket markets marketId).
    + apply pushToMarket_length.
    + rewrite length_app. simpl. lia.
  - by rewrite updateOrderDetails_hashes.
  - rewrite <- (length_map market_id), updateOrderDetails_ids. by rewrite length_map.
  - apply sublist_length, (deleteOrderGo_sublist h [] markets).
  - apply (deleteOrderGo_length h [] markets).
  - done.
Qed.
(** ** PredictOrders: grouping, amounts, batch cancel *)

Lemma ofType_cons neg yb o orders :
  ofType neg yb (o :: orders) =
  if Bool.eqb (od_isNegRisk o) neg && Bool.eqb (od_isYieldBearing o) yb
  then o :: ofType neg yb orders else ofType neg yb orders.
Proof. done. Qed.

(** X9.  [groupOrdersByType] distributes the batch over its four groups:
    the signed orders of the groups taken together are those of the batch,
    each once; every group keeps the order of the batch; an order is in the
    group named by its two flags. *)
Theorem groupOrdersByType_partitions (orders : list OrderData) :
  let g := groupOrdersByType orders in
  regular g ++ negRisk g ++ regularYieldBearing g ++ negRiskYieldBearing g
    ≡ₚ map od_order orders /\
  (length (regular g) + length (negRisk g) + length (regularYieldBearing g) +
   length (negRiskYieldBearing g) = length orders)%nat /\
  regular g `sublist_of` map od_order orders /\
  negRisk g `sublist_of` map od_order orders /\
  regularYieldBearing g `sublist_of` map od_order orders /\
  negRiskYieldBearing g `sublist_of` map od_order orders /\
  forall o, o ∈ orders ->
    od_order o ∈ (if od_isYieldBearing o
                  then if od_isNegRisk o then negRiskYieldBearing g else regularYieldBearing g
                  else if od_isNegRisk o then negRisk g else regular g).
Proof.
  cbv zeta.
  assert (regular (groupOrdersByType orders) ++ negRisk (groupOrdersByType orders) ++
          regularYieldBearing (groupOrdersByType orders) ++
          negRiskYieldBearing (groupOrdersByType orders) ≡ₚ map od_order orders) as Hperm.
  { unfold groupOrdersByType. simpl.
    induction orders as [|o orders IH]; [done|].
    rewrite !ofType_cons. cbn [map]. rewrite <- IH.
    set (l1 := map od_order (ofType false false orders)).
    set (l2 := map od_order (ofType true false orders)).
    set (l3 := map od_order (ofType false true orders)).
    set (l4 := map od_order (ofType true true orders)).
    destruct (od_isNegRisk o), (od_isYieldBearing o); simpl.
    - symmetry. rewrite !(app_assoc _ _ l4), !(app_assoc _ _ (_ :: l4)).
      apply Permutation_middle.
    - symmetry. apply Permutation_middle.
    - symmetry. rewrite (app_assoc l1 l2 (l3 ++ l4)), (app_assoc l1 l2 (_ :: l3 ++ l4)).
      apply Permutation_middle.
    - done. }
  split; [exact Hperm|]. split.
  { apply Permutation_length in Hperm. rewrite !length_app, length_map in Hperm. lia. }
  unfold groupOrdersByType. simpl.
  split; [apply (fmap_sublist od_order), filter_sublist|].
  split; [apply (fmap_sublist od_order), filter_sublist|].
  split; [apply (fmap_sublist od_order), filter_sublist|].
  split; [apply (fmap_sublist od_order), filter_sublist|].
  intros o Ho. apply list_elem_of_In in Ho.
  destruct (od_isYieldBearing o) eqn:Ey, (od_isNegRisk o) eqn:En;
    apply list_elem_of_In, in_map, filter_In; (split; [done|]); by rewrite Ey, En.
Qed.

Lemma groupOrdersByType_partitions_witness :
  let batch := (collectOrderData (scripted negRiskRefused) 1 (orders mixedLadder) [] mixedWorld).1 in
  map od_hash batch = ["a620"; "b619"] /\
  map o_hash (negRisk (groupOrdersByType batch)) = [Some "b619"] /\
  (length (regular (groupOrdersByType batch)) + length (negRisk (groupOrdersByType batch)) +
   length (regularYieldBearing (groupOrdersByType batch)) +
   length (negRiskYieldBearing (groupOrdersByType batch)) = 2)%nat.
Proof.
  cbv zeta.
  destruct (groupOrdersByType_partitions
              (collectOrderData (scripted negRiskRefused) 1 (orders mixedLadder) [] mixedWorld).1)
    as (_ & Hlen & _).
  split; [reflexivity|]. split; [reflexivity|]. exact Hlen.
Defined.

Lemma roundMakerAmount_spec makerAmount :
  0 <= makerAmount ->
  roundMakerAmount makerAmount = PRECISION * (makerAmount / PRECISION).
Proof.
  intros Hm. unfold roundMakerAmount. cbv zeta.
  rewrite Z.rem_mod_nonneg by (unfold PRECISION; lia).
  pose proof (Z.div_mod makerAmount PRECISION ltac:(unfold PRECISION; lia)) as Hdm.
  destruct (Z.eqb_spec (makerAmount mod PRECISION) 0) as [E|E]; simpl; lia.
Qed.

(** X10.  The maker amount that [openOrder] signs is the amount of the SDK
    rounded down to a multiple of 1e13: for a non-negative amount it is a
    multiple of 1e13, at most the amount and less than 1e13 below it, and an
    amount that is a multiple already is kept. *)
Theorem maker_amount_is_rounded_down (makerAmount : Z) :
  0 <= makerAmount ->
  Z.rem (roundMakerAmount makerAmount) PRECISION = 0 /\
  roundMakerAmount makerAmount <= makerAmount < roundMakerAmount makerAmount + PRECISION /\
  0 <= roundMakerAmount makerAmount /\
  roundMakerAmount (roundMakerAmount makerAmount) = roundMakerAmount makerAmount.
Proof.
  intros Hm. rewrite roundMakerAmount_spec by done.
  assert (0 < PRECISION) as Hp by (unfold PRECISION; lia).
  pose proof (Z.div_mod makerAmount PRECISION ltac:(lia)) as Hdm.
  pose proof (Z.mod_pos_bound makerAmount PRECISION Hp) as Hb.
  pose proof (Z.div_pos makerAmount PRECISION Hm Hp) as Hq.
  split; [|split; [|split]].
  - rewrite Z.rem_mod_nonneg by nia. rewrite Z.mul_comm. apply Z.mod_mul. lia.
  - lia.
  - nia.
  - rewrite roundMakerAmount_spec by nia. f_equal.
    rewrite Z.mul_comm. apply Z.div_mul. lia.
Qed.

Lemma maker_amount_is_rounded_down_witness :
  roundMakerAmount 1000000012345678901 = 1000000000000000000 /\
  roundMakerAmount 1000000012345678901 <= 1000000012345678901.
Proof.
  split; [reflexivity|].
  destruct (maker_amount_is_rounded_down 1000000012345678901) as (_ & [H _] & _); [lia|].
  exact H.
Defined.

Lemma taker_amount_bounds (makerAmount price : Z) :
  0 <= makerAmount -> 0 < price ->
  exists t, takerAmountFor BUY makerAmount price = Some t /\
            makerAmount * WEI <= t * price /\ (t - 1) * price < makerAmount * WEI.
Proof.
  intros Hm Hp. unfold takerAmountFor, WEI.
  destruct (Z.eqb_spec price 0) as [?|_]; [lia|]. eexists. split; [done|].
  rewrite Z.quot_div_nonneg by nia.
  pose proof (Z.div_mod (makerAmount * 1000000000000000000 + price - 1) price ltac:(lia)).
  pose proof (Z.mod_pos_bound (makerAmount * 1000000000000000000 + price - 1) price Hp).
  nia.
Qed.

(** X11.  The taker amount that [openOrder] recomputes respects the limit
    price and is the least amount that does.  For a buy at a positive price
    per share it is the least [t] with [maker * 1e18 <= t * price] (the price
    paid, maker over taker, is at most the limit); for a sell it is the least
    [t] with [maker * price <= t * 1e18] (the price received, taker over
    maker, is at least the limit).  A buy at price 0 divides by zero and
    fails. *)
Theorem taker_amount_respects_limit (makerAmount price : Z) :
  0 <= makerAmount -> 0 < price ->
  (exists t, takerAmountFor BUY makerAmount price = Some t /\
             makerAmount * WEI <= t * price /\ (t - 1) * price < makerAmount * WEI) /\
  (exists t, takerAmountFor SELL makerAmount price = Some t /\
             makerAmount * price <= t * WEI /\ (t - 1) * WEI < makerAmount * price) /\
  takerAmountFor BUY makerAmount 0 = None.
Proof.
  intros Hm Hp. unfold takerAmountFor, WEI. split; [|split; [|done]].
  - destruct (taker_amount_bounds makerAmount price Hm Hp) as (t & Ht & H1 & H2).
    exists t. by unfold takerAmountFor, WEI in *.
  - eexists. split; [done|].
    rewrite Z.quot_div_nonneg by nia.
    pose proof (Z.div_mod (makerAmount * price + 1000000000000000000 - 1)
                  1000000000000000000 ltac:(lia)).
    pose proof (Z.mod_pos_bound (makerAmount * price + 1000000000000000000 - 1)
                  1000000000000000000 ltac:(lia)).
    nia.
Qed.

Lemma taker_amount_respects_limit_witness :
  takerAmountFor BUY 1000000000000000000 (tickPriceWei 333) = Some 3003003003003003004 /\
  exists t, takerAmountFor SELL 1000000000000000000 (tickPriceWei 333) = Some t /\
            (t - 1) * WEI < 1000000000000000000 * tickPriceWei 333.
Proof.
  split; [reflexivity|].
  destruct (taker_amount_respects_limit 1000000000000000000 (tickPriceWei 333))
    as (_ & (t & Ht & _ & Hlt) & _); [lia|unfold tickPriceWei; lia|].
  exists t. split; [exact Ht|exact Hlt].
Defined.




Lemma cancelGroup_events {R} (G : Gateway R) group neg yb w :
  events (cancelGroup G group neg yb w).2 =
  events w ++ groupEvent group neg yb (cancelGroup G group neg yb w).1.
Proof.
  destruct (decide (group = [])) as [->|Hne]; [simpl; by rewrite app_nil_r|].
  rewrite cancelGroup_nonempty by done.
  rewrite !bind_run. unfold call.
  destruct (sdk_cancelOrders G group neg yb (remote w)) as [[|] r]; cbn [fst snd]; [|done].
  rewrite bind_run, removeOrdersFromStorage_run. done.
Qed.

Lemma cancelGroup_sent {R} (G : Gateway R) group neg yb w :
  sentIfNonEmpty group (cancelGroup G group neg yb w).1.
Proof.
  unfold sentIfNonEmpty. destruct (decide (group = [])) as [->|Hne]; [done|].
  rewrite cancelGroup_nonempty by done.
  rewrite !bind_run. unfold call.
  destruct (sdk_cancelOrders G group neg yb (remote w)) as [[|] r]; cbn [fst snd].
  - rewrite bind_run. done.
  - done.
Qed.

Lemma deleteAll_sublist hs st : storedHashes (deleteAll hs st) `sublist_of` storedHashes st.
Proof.
  revert st. induction hs as [|h hs IH]; intros st; [done|].
  unfold deleteAll in *. simpl. etrans; [apply IH|].
  apply (deleteOrderGo_sublist h [] st).
Qed.

(** X13.  With an SDK that answers every call, [cancelOrders] calls it once
    for each non-empty type group, in the order regular, negRisk,
    regularYieldBearing, negRiskYieldBearing, and never for an empty group
    (none at all for an empty batch); it places no order; the storage only
    loses records. *)
Theorem cancelOrders_calls_sdk_per_group {R} (G : Gateway R) (batch : list OrderData)
    (w : World R) :
  let g := groupOrdersByType batch in
  let out := cancelOrders G batch w in
  events out.2 = events w ++ batchEvents g out.1 /\
  sentIfNonEmpty (regular g) (res_regular out.1) /\
  sentIfNonEmpty (negRisk g) (res_negRisk out.1) /\
  sentIfNonEmpty (regularYieldBearing g) (res_regularYieldBearing out.1) /\
  sentIfNonEmpty (negRiskYieldBearing g) (res_negRiskYieldBearing out.1) /\
  placedPrices (events out.2) = placedPrices (events w) /\
  storedHashes (storage out.2) `sublist_of` storedHashes (storage w).
Proof.
  cbv zeta.
  split; [|split; [|split; [|split; [|split; [|split]]]]].
  6: apply noPlacement_cancelOrders.
  6: rewrite cancelOrders_storage; apply deleteAll_sublist.
  all: unfold cancelOrders; destruct batch as [|od batch];
    [first [done | simpl; by rewrite app_nil_r]|].
  all: set (g := groupOrdersByType (od :: batch)).
  all: rewrite !bind_run; unfold ret, batchEvents;
    cbn [fst snd res_regular res_negRisk res_regularYieldBearing res_negRiskYieldBearing].
  - rewrite !cancelGroup_events, <- !app_assoc. done.
  - apply cancelGroup_sent.
  - apply cancelGroup_sent.
  - apply cancelGroup_sent.
  - apply cancelGroup_sent.
Qed.

(** ** Start-up: existing orders, processMarket, main *)











Lemma placeLoop_new {R} (G : Gateway R) m ps :
  forall acc w, exists new,
    (placeLoop G m ps acc w).1 = acc ++ new /\ prices new `sublist_of` ps.
Proof.
  induction ps as [|p ps IH]; intros acc w; simpl.
  - exists []. by rewrite app_nil_r.
  - rewrite bind_run. destruct (openOrder G m p w).1 as [h|].
    + match goal with |- context [placeLoop G m ps ?a ?w1] =>
        destruct (IH a w1) as (new & -> & Hs) end.
      eexists (_ :: new). rewrite <- app_assoc. split; [done|]. by apply sublist_skip.
    + match goal with |- context [placeLoop G m ps ?a ?w1] =>
        destruct (IH a w1) as (new & -> & Hs) end.
      exists new. split; [done|]. by apply sublist_cons.
Qed.

Lemma targetLoop_length sp i n : (length (targetLoop sp i n) <= n)%nat.
Proof.
  revert i. induction n as [|n IH]; intros i; simpl; [lia|].
  destruct (0 <? sp - i); simpl; [|lia]. specialize (IH (i + 1)). lia.
Qed.

Lemma mkTracked_fresh marketId marketTitle os :
  freshlyTracked marketId marketTitle (mkTracked marketId marketTitle os).
Proof. unfold freshlyTracked. simpl. repeat split; try done. apply sortDesc_sorted. Qed.

(** X16.  [processMarket] on an empty book returns no market and places
    nothing, whatever orders exist.  A market it returns has the given id
    and title, both counters at zero and its orders sorted by price; these
    orders are the existing open orders together with the orders it placed,
    at most five, each at a price no existing order has.  It returns no
    market only when the book is empty or no order exists. *)
Theorem processMarket_tracks_existing_and_new {R} (G : Gateway R) (marketId : Z)
    (marketTitle : string) (w : World R) :
  let existing := (getExistingOrdersForMarket G marketId w).1 in
  let bids := (api_orderbook G marketId (remote (getExistingOrdersForMarket G marketId w).2)).1 in
  let out := processMarket G marketId marketTitle w in
  (bids = [] -> out.1 = None /\ events out.2 = events w) /\
  (forall t, out.1 = Some t ->
     freshlyTracked marketId marketTitle t /\
     exists new, orders t ≡ₚ existing ++ new /\ (length new <= 5)%nat /\
                 Forall (fun o => price o ∉ prices existing) new) /\
  (out.1 = None -> bids = [] \/ existing = []).
Proof.
  cbv zeta. unfold processMarket. rewrite !bind_run. unfold fetchOrderbook.
  rewrite call_fst.
  set (existing := (getExistingOrdersForMarket G marketId w).1).
  set (w1 := (getExistingOrdersForMarket G marketId w).2).
  assert (events (call (api_orderbook G marketId) w1).2 = events w) as Hev.
  { rewrite call_events. apply quiet_getExisting. }
  set (w2 := (call (api_orderbook G marketId) w1).2) in *.
  destruct (api_orderbook G marketId (remote w1)).1 as [|b bids] eqn:Eb.
  { split; [done|]. split; [done|]. by left. }
  split; [done|].
  set (book := b :: bids).
  assert (forall (w' : World R) os,
            os = existing ->
            let r := (match os with
                      | [] => ret None
                      | _ => ret (Some (mkTracked marketId marketTitle os))
                      end w').1 in
            (forall t, r = Some t ->
               freshlyTracked marketId marketTitle t /\
               exists new, orders t ≡ₚ existing ++ new /\ (length new <= 5)%nat /\
                           Forall (fun o => price o ∉ prices existing) new) /\
            (r = None -> b :: bids = [] \/ existing = [])) as Hsame.
  { intros w' os ->. cbv zeta. destruct existing as [|o os] eqn:Ee.
    - split; [done|]. by right.
    - split; [|done]. intros t [= <-]. split; [apply mkTracked_fresh|].
      exists []. rewrite app_nil_r. split; [apply sortDesc_perm|]. split; [simpl; lia|done]. }
  destruct (findStartIndex book) as [k|]; [|by apply Hsame].
  set (targets := targetLoop (triggerPrice book k - 1) 0 (targetOrderCount k)).
  destruct (List.filter _ targets) as [|p ps] eqn:Ef.
  - split; [|done]. intros t [= <-]. split; [apply mkTracked_fresh|].
    exists []. rewrite app_nil_r. split; [apply sortDesc_perm|]. split; [simpl; lia|done].
  - rewrite bind_run.
    destruct (placeLoop_new G marketId (p :: ps) existing w2) as (new & -> & Hs).
    assert ((length new <= 5)%nat /\ Forall (fun o => price o ∉ prices existing) new)
      as [Hlen Hfresh].
    { split.
      - rewrite <- (length_map price new). fold (prices new).
        etrans; [apply sublist_length, Hs|]. rewrite <- Ef.
        etrans; [apply sublist_length, filter_sublist|].
        etrans; [apply targetLoop_length|]. unfold targetOrderCount. lia.
      - apply Forall_forall. intros o Ho.
        assert (price o ∈ p :: ps) as Hp.
        { eapply elem_of_sublist; [|exact Hs]. apply list_elem_of_fmap. eauto. }
        rewrite <- Ef in Hp. apply list_elem_of_In, filter_In in Hp as [_ Hp].
        by apply negb_true_iff, bool_decide_eq_false in Hp. }
    destruct (existing ++ new) as [|o os] eqn:Een.
    + split; [done|]. intros _. right. by destruct existing.
    + split; [|done]. intros t [= <-]. split; [apply mkTracked_fresh|].
      exists new. rewrite Een. split; [apply sortDesc_perm|]. done.
Qed.

Lemma processMarket_tracks_existing_and_new_witness :
  exists t, (processMarket (scripted (cooperative [bid 620 1000])) 1 "market" mixedWorld).1
            = Some t /\
            freshlyTracked 1 "market" t /\ length (orders t) = 7%nat.
Proof.
  destruct (processMarket_tracks_existing_and_new (scripted (cooperative [bid 620 1000]))
              1 "market" mixedWorld) as (_ & H & _).
  eexists. split; [vm_compute; reflexivity|].
  split; [|reflexivity].
  match goal with |- freshlyTracked _ _ ?t =>
    destruct (H t) as [Hf _]; [vm_compute; reflexivity|exact Hf] end.
Defined.

Lemma processMarket_fresh {R} (G : Gateway R) marketId marketTitle w t :
  (processMarket G marketId marketTitle w).1 = Some t -> freshlyTracked marketId marketTitle t.
Proof.
  unfold processMarket. rewrite !bind_run.
  set (existing := (getExistingOrdersForMarket G marketId w).1).
  set (w1 := (getExistingOrdersForMarket G marketId w).2).
  destruct (fetchOrderbook G marketId w1).1 as [|b bids]; [done|].
  assert (forall os (w' : World R) r,
            (match os with
             | [] => ret None
             | _ => ret (Some (mkTracked marketId marketTitle os))
             end w').1 = Some r -> freshlyTracked marketId marketTitle r) as Hmk.
  { intros [|o os] w' r; [done|]. intros [= <-]. apply mkTracked_fresh. }
  destruct (findStartIndex (b :: bids)) as [k|]; [|apply Hmk].
  destruct (List.filter _ _) as [|p ps].
  - intros [= <-]. apply mkTracked_fresh.
  - rewrite bind_run. apply Hmk.
Qed.

(** X17.  [main] tracks markets of the file only, in the order of the file
    and each at most once for each entry: the ids of the tracked markets are
    a sublist of the ids of the file.  Every market it hands to the monitor
    loop carries the title of its entry, both counters at zero and its
    orders sorted by price. *)
Theorem main_tracks_markets_of_the_file {R} (G : Gateway R) (markets : list (Z * string))
    (w : World R) :
  let out := trackAll G markets w in
  map tm_id out.1 `sublist_of` map fst markets /\
  Forall (fun t => exists marketTitle,
            (tm_id t, marketTitle) ∈ markets /\ freshlyTracked (tm_id t) marketTitle t) out.1.
Proof.
  cbv zeta. revert w. induction markets as [|[marketId marketTitle] rest IH]; intros w; simpl.
  - split; [done|constructor].
  - rewrite !bind_run. unfold ret. cbn [fst snd].
    set (w1 := (processMarket G marketId marketTitle w).2).
    destruct (IH w1) as [Hs Hf].
    assert (Forall (fun t => exists title,
              (tm_id t, title) ∈ (marketId, marketTitle) :: rest /\
              freshlyTracked (tm_id t) title t) (trackAll G rest w1).1) as Hf'.
    { eapply Forall_impl; [exact Hf|]. intros t (title & Hin & Hfr).
      exists title. split; [by right|done]. }
    destruct (processMarket G marketId marketTitle w).1 as [t|] eqn:E.
    + apply processMarket_fresh in E. simpl. destruct E as (Hid & Hrest).
      split.
      * rewrite Hid. by apply sublist_skip.
      * constructor; [|done]. exists marketTitle. rewrite Hid. split; [by left|done].
    + split; [by apply sublist_cons|done].
Qed.

(** ** Reopening filled orders *)

Lemma getOrderByHash_fst {R} (G : Gateway R) h w :
  (getOrderByHash G h w).1 = (api_getOrder G h (remote w)).1.
Proof.
  unfold getOrderByHash. rewrite bind_run. unfold call.
  destruct (api_getOrder G h (remote w)) as [[d|] r]; cbn [fst snd]; [|done].
  by rewrite bind_run.
Qed.

Lemma quiet_fetchAfterOpen {R} (G : Gateway R) (h : string) :
  quiet (if decide (h = "") then ret None else getOrderByHash G h).
Proof. destruct (decide (h = "")); [apply quiet_ret|apply quiet_getOrderByHash]. Qed.

Lemma reopenLoop_run {R} (G : Gateway R) marketId os :
  forall toRemove adds w,
  exists S A evs,
    (reopenLoop G marketId os toRemove adds w).1 = (toRemove ++ hashes S, adds ++ A) /\
    S `sublist_of` os /\ prices A `sublist_of` prices S /\
    events (reopenLoop G marketId os toRemove adds w).2 = events w ++ evs /\
    resubmissions marketId S evs /\
    (opensAlways G -> prices A = prices S) /\
    (forall det, (forall h r, (api_getOrder G h r).1 = det h) ->
                 S = List.filter (reportedClosed det) os).
Proof.
  induction os as [|o os IH]; intros toRemove adds w; simpl.
  - exists [], [], []. rewrite !app_nil_r. repeat split; try done. constructor.
  - rewrite bind_run.
    pose proof (getOrderByHash_fst G (orderHash o) w) as Hfst.
    pose proof (quiet_getOrderByHash G (orderHash o) w) as Hq.
    set (w0 := (getOrderByHash G (orderHash o) w).2) in *.
    assert (forall tr ad,
              exists S A evs,
                (reopenLoop G marketId os tr ad w0).1 = (tr ++ hashes S, ad ++ A) /\
                S `sublist_of` o :: os /\ prices A `sublist_of` prices S /\
                events (reopenLoop G marketId os tr ad w0).2 = events w ++ evs /\
                resubmissions marketId S evs /\
                (opensAlways G -> prices A = prices S) /\
                (forall det, (forall h r, (api_getOrder G h r).1 = det h) ->
                   reportedClosed det o = false ->
                   S = List.filter (reportedClosed det) (o :: os))) as Hskip.
    { intros tr ad. destruct (IH tr ad w0) as (S & A & evs & E1 & E2 & E3 & E4 & E5 & E6 & E7).
      exists S, A, evs. rewrite Hq in E4. repeat split; try done.
      - by apply sublist_cons.
      - intros det Hdet Hc. simpl. rewrite Hc. by apply E7. }
    destruct (getOrderByHash G (orderHash o) w).1 as [d|] eqn:Ed.
    + destruct (bool_decide (api_status d = "OPEN")) eqn:Eo.
      * destruct (Hskip toRemove adds) as (S & A & evs & ? & ? & ? & ? & ? & ? & H7).
        exists S, A, evs. repeat split; try done.
        intros det Hdet. apply H7; [done|]. unfold reportedClosed.
        rewrite <- Hdet with (r := remote w), <- Hfst. by rewrite Eo.
      * rewrite !bind_run. cbn [fst snd modifyStorage].
        match goal with |- context [openOrder G marketId (price o) ?w1'] =>
          set (w1 := w1') end.
        pose proof (openOrder_events G marketId (price o) w1) as Hev.
        assert (events w1 = events w) as Hw1 by (unfold w1; simpl; done).
        rewrite Hw1 in Hev.
        assert (forall det, (forall h r, (api_getOrder G h r).1 = det h) ->
                  reportedClosed det o = true) as Hclosed.
        { intros det Hdet. unfold reportedClosed.
          rewrite <- Hdet with (r := remote w), <- Hfst. by rewrite Eo. }
        destruct (openOrder G marketId (price o) w1).1 as [h|] eqn:Eh;
          set (w2 := (openOrder G marketId (price o) w1).2) in *.
        -- rewrite bind_run.
           pose proof (quiet_fetchAfterOpen G h w2) as Hq2.
           match goal with |- context [reopenLoop G marketId os ?tr ?ad ?w3'] =>
             set (w3 := w3') in *;
             destruct (IH tr ad w3) as (S & A & evs & -> & HS & HA & HE & HR & HO & HD) end.
           exists (o :: S), ({| price := price o; orderHash := h |} :: A),
             (EvOpenOrder marketId (price o)
                (option_map sr_hash (api_createOrder G marketId (price o) (remote w1)).1) :: evs).
           rewrite <- !app_assoc. split; [done|]. split; [by apply sublist_skip|].
           split; [unfold prices; simpl; by apply sublist_skip|].
           split; [rewrite HE, Hq2, Hev, <- app_assoc; done|].
           split; [constructor; [eauto|done]|].
           split.
           ++ intros Ho. unfold prices in *. simpl. f_equal. by apply HO.
           ++ intros det Hdet. simpl. rewrite (Hclosed det Hdet). f_equal. by apply HD.
        -- match goal with |- context [reopenLoop G marketId os ?tr ?ad ?w3'] =>
             destruct (IH tr ad w3') as (S & A & evs & -> & HS & HA & HE & HR & HO & HD) end.
           exists (o :: S), A,
             (EvOpenOrder marketId (price o)
                (option_map sr_hash (api_createOrder G marketId (price o) (remote w1)).1) :: evs).
           rewrite <- !app_assoc. split; [done|]. split; [by apply sublist_skip|].
           split; [unfold prices; simpl; by apply sublist_cons|].
           split; [rewrite HE, Hev, <- app_assoc; done|].
           split; [constructor; [eauto|done]|].
           split.
           ++ intros Ho. exfalso. destruct (openOrder_coop G marketId (price o) w1 Ho)
                as (sr & _ & Hsr). fold w2 in Hsr. congruence.
           ++ intros det Hdet. simpl. rewrite (Hclosed det Hdet). f_equal. by apply HD.
    + destruct (Hskip toRemove adds) as (S & A & evs & ? & ? & ? & ? & ? & ? & H7).
      exists S, A, evs. repeat split; try done.
      intros det Hdet. apply H7; [done|]. unfold reportedClosed.
      by rewrite <- Hdet with (r := remote w), <- Hfst.
Qed.

Lemma filter_rest_perm (S os : list TrackedOrder) :
  S `sublist_of` os -> NoDup (hashes os) ->
  List.filter (fun o => negb (bool_decide (orderHash o ∈ hashes S))) os ++ S ≡ₚ os.
Proof.
  induction 1 as [|x S os Hsub IH|x S os Hsub IH]; intros Hnd.
  - done.
  - change (hashes (x :: os)) with (orderHash x :: hashes os) in Hnd.
    apply NoDup_cons in Hnd as [Hx Hnd].
    change (hashes (x :: S)) with (orderHash x :: hashes S).
    cbn [List.filter]. rewrite bool_decide_eq_true_2 by (by left). cbn [negb].
    assert (List.filter (fun o => negb (bool_decide (orderHash o ∈ orderHash x :: hashes S))) os
            = List.filter (fun o => negb (bool_decide (orderHash o ∈ hashes S))) os) as ->.
    { apply filter_ext_in. intros o Ho. f_equal.
      apply bool_decide_ext. rewrite elem_of_cons. split; [|tauto].
      intros [E|?]; [|done]. exfalso. apply Hx. rewrite <- E.
      apply list_elem_of_fmap. exists o. split; [done|]. by apply list_elem_of_In. }
    rewrite <- Permutation_middle. constructor. by apply IH.
  - change (hashes (x :: os)) with (orderHash x :: hashes os) in Hnd.
    apply NoDup_cons in Hnd as [Hx Hnd].
    cbn [List.filter]. rewrite bool_decide_eq_false_2.
    + simpl. constructor. by apply IH.
    + intros Hin. apply Hx. eapply elem_of_sublist; [exact Hin|].
      by apply (fmap_sublist orderHash).
Qed.

(** X18.  [checkAndReopenFilledOrders] never cancels and never lets a
    ladder grow: for each market it keeps the id and the title, ends with at
    most as many orders as it started with, and the only calls it logs are
    submissions for this market, at most one for each tracked order, at the
    price of that order and in the order of the ladder. *)
Theorem reopen_never_cancels_nor_grows {R} (G : Gateway R) (tracked : TrackedMarket)
    (w : World R) :
  let out := reopenMarket G tracked w in
  tm_id out.1 = tm_id tracked /\ tm_title out.1 = tm_title tracked /\
  (length (orders out.1) <= length (orders tracked))%nat /\
  exists resubmitted evs,
    resubmitted `sublist_of` orders tracked /\
    events out.2 = events w ++ evs /\
    resubmissions (tm_id tracked) resubmitted evs.
Proof.
  cbv zeta. unfold reopenMarket. rewrite bind_run.
  destruct (reopenLoop_run G (tm_id tracked) (orders tracked) [] [] w)
    as (S & A & evs & E1 & HS & HA & HE & HR & _ & _).
  rewrite E1. simpl.
  assert (exists resubmitted evs0,
            resubmitted `sublist_of` orders tracked /\
            events (reopenLoop G (tm_id tracked) (orders tracked) [] [] w).2 = events w ++ evs0 /\
            resubmissions (tm_id tracked) resubmitted evs0) as Hev by eauto.
  destruct (hashes S) as [|h hs] eqn:Eh; [done|]. rewrite <- Eh.
  cbn [ret fst snd set_orders tm_id tm_title orders].
  split; [done|]. split; [done|]. split; [|done].
  rewrite sortDesc_length, length_app.
  set (kept := List.filter (fun o => negb (bool_decide (orderHash o ∈ hashes S)))
                 (orders tracked)).
  assert (length (kept ++ S) <= length (orders tracked))%nat as Hk.
  { apply submseteq_length, filter_rest_submseteq; [done|]. intros s Hs.
    apply negb_false_iff, bool_decide_eq_true. unfold hashes.
    apply list_elem_of_fmap. eauto. }
  rewrite length_app in Hk.
  apply sublist_length in HA. unfold prices in HA. rewrite !length_map in HA. lia.
Qed.

(** X19.  When the details the API gives for a hash do not depend on the
    moment of the call, [checkAndReopenFilledOrders] submits one order for
    each tracked order reported as no longer open, at its price, and makes no
    other call that places or cancels; a market with no such order is
    returned as it was.  When in addition every submission is accepted and
    the tracked hashes are distinct, the prices of the ladder are the same
    before and after. *)
Theorem reopen_resubmits_closed_orders {R} (G : Gateway R) (det : string -> option ApiOrder)
    (tracked : TrackedMarket) (w : World R) :
  (forall h r, (api_getOrder G h r).1 = det h) ->
  let closed := List.filter (reportedClosed det) (orders tracked) in
  let out := reopenMarket G tracked w in
  (exists evs, events out.2 = events w ++ evs /\ resubmissions (tm_id tracked) closed evs) /\
  (closed = [] -> out.1 = tracked) /\
  (opensAlways G -> NoDup (hashes (orders tracked)) ->
   prices (orders out.1) ≡ₚ prices (orders tracked)).
Proof.
  intros Hdet. cbv zeta. unfold reopenMarket. rewrite bind_run.
  destruct (reopenLoop_run G (tm_id tracked) (orders tracked) [] [] w)
    as (S & A & evs & E1 & HS & HA & HE & HR & HO & HD).
  rewrite E1. simpl. rewrite <- (HD det Hdet).
  assert (exists evs0,
            events (reopenLoop G (tm_id tracked) (orders tracked) [] [] w).2 = events w ++ evs0 /\
            resubmissions (tm_id tracked) S evs0) as Hev by eauto.
  destruct (hashes S) as [|h hs] eqn:Eh.
  - split; [done|]. split; [done|]. done.
  - rewrite <- Eh. cbn [ret fst snd set_orders orders].
    split; [done|]. split; [intros ->; done|].
    intros Ho Hnd.
    set (kept := List.filter (fun o => negb (bool_decide (orderHash o ∈ hashes S)))
                   (orders tracked)).
    trans (prices (kept ++ A)); [apply Permutation_map, sortDesc_perm|].
    rewrite prices_app, (HO Ho), <- prices_app.
    by apply Permutation_map, filter_rest_perm.
Qed.

Lemma reopen_resubmits_closed_orders_witness :
  let G := scripted filledAfterSale in
  let out := reopenMarket G (ladder [501; 500; 499]) world0 in
  (forall h r, (api_getOrder G h r).1 = sc_details filledAfterSale h) /\
  prices (List.filter (reportedClosed (sc_details filledAfterSale)) (orders (ladder [501; 500; 499])))
    = [500] /\
  prices (orders out.1) ≡ₚ [501; 500; 499].
Proof.
  cbv zeta.
  assert (forall h r, (api_getOrder (scripted filledAfterSale) h r).1 =
                      sc_details filledAfterSale h) as Hdet by (intros h r; reflexivity).
  split; [exact Hdet|]. split; [reflexivity|].
  destruct (reopen_resubmits_closed_orders (scripted filledAfterSale)
              (sc_details filledAfterSale) (ladder [501; 500; 499]) world0 Hdet)
    as (_ & _ & H).
  apply H.
  - intros m p r. discriminate.
  - change (NoDup (map priceHash [501; 500; 499])).
    apply NoDup_fmap_2; [intros p q; apply priceHash_inj|].
    apply NoDup_cons. split; [rewrite !elem_of_cons, elem_of_nil; lia|].
    apply NoDup_cons. split; [rewrite !elem_of_cons, elem_of_nil; lia|].
    apply NoDup_singleton.
Defined.

(** ** The rebalancer at its edges *)

(** X20.  A rebalance pass on an empty book does nothing: outside the
    cooldown window and with at most five orders, [checkAndRebalance] places
    and cancels nothing and leaves the storage and the orders as they were;
    the market is returned as it was, with both counters cleared when its
    cooldown had expired. *)
Theorem rebalance_on_empty_book {R} (G : Gateway R) (tracked : TrackedMarket) (w : World R) :
  inCooldown tracked (date_now G (remote w)) = false ->
  (length (orders tracked) <= 5)%nat ->
  (api_orderbook G (tm_id tracked) (remote w)).1 = [] ->
  let out := checkAndRebalance G tracked w in
  out.1 = (if 0 <? cooldownUntil tracked then resetCooldown tracked else tracked) /\
  events out.2 = events w /\ storage out.2 = storage w.
Proof.
  intros Hc Hl Hb. cbv zeta.
  set (t1 := if 0 <? cooldownUntil tracked then resetCooldown tracked else tracked).
  assert (checkAndRebalance G tracked w =
          (t1, (call (api_orderbook G (tm_id tracked)) w).2)) as ->.
  { unfold checkAndRebalance. rewrite bind_run.
    unfold now at 1 2. cbn [fst snd]. rewrite Hc. fold t1.
    assert (orders t1 = orders tracked /\ tm_id t1 = tm_id tracked) as [Ho Hi].
    { unfold t1. by destruct (0 <? cooldownUntil tracked). }
    rewrite bind_run. unfold trimExcess. rewrite Ho.
    replace (5 <? length (orders tracked))%nat with false by (symmetry; apply Nat.ltb_ge; lia).
    unfold ret at 1 2. cbn [fst snd].
    unfold refillAndShift. rewrite bind_run. unfold fetchOrderbook. rewrite call_fst, Hi, Hb.
    done. }
  cbn [fst snd]. split; [done|].
  destruct (call_sameLogs (api_orderbook G (tm_id tracked)) w) as [? ?]. done.
Qed.

Lemma rebalance_on_empty_book_witness :
  let out := checkAndRebalance (scripted (cooperative [])) (ladder [500; 499]) world0 in
  out.1 = ladder [500; 499] /\ events out.2 = [].
Proof.
  cbv zeta.
  destruct (rebalance_on_empty_book (scripted (cooperative [])) (ladder [500; 499]) world0)
    as (H1 & H2 & _); [reflexivity|simpl; lia|reflexivity|].
  split; [exact H1|exact H2].
Defined.

Lemma collect_take_all {R} (G : Gateway R) t count :
  (length (orders t) <= count)%nat ->
  take count (reverse (orders t)) = take (length (orders t)) (reverse (orders t)).
Proof.
  intros Hl. rewrite !take_ge; [done| |]; rewrite length_reverse; lia.
Qed.

(** X21.  The cancel functions at the bounds of the list.  With a count of
    0 or an empty list both return 0 and do nothing.  [cancelBottomOrders]
    with a count beyond the list cancels as for the whole list.
    [cancelTopOrders] with a count beyond a non-empty list reads the hash of
    an order that is not there: it throws, after it has looked up the details
    of the orders there are and before any cancel call. *)
Theorem cancel_functions_at_the_bounds {R} (G : Gateway R) (tracked : TrackedMarket)
    (count : nat) (w : World R) :
  (count = O \/ orders tracked = [] ->
   cancelBottomOrders G tracked count w = ((O, tracked), w) /\
   cancelTopOrders G tracked count w = (Some (O, tracked), w)) /\
  ((length (orders tracked) <= count)%nat ->
   cancelBottomOrders G tracked count w =
   cancelBottomOrders G tracked (length (orders tracked)) w) /\
  (orders tracked <> [] -> (length (orders tracked) < count)%nat ->
   cancelTopOrders G tracked count w =
   (None, (collectOrderData G (tm_id tracked) (orders tracked) [] w).2) /\
   events (cancelTopOrders G tracked count w).2 = events w).
Proof.
  split; [|split].
  - intros [->|He].
    + unfold cancelBottomOrders, cancelTopOrders. rewrite !take_0.
      by destruct (orders tracked).
    + unfold cancelBottomOrders, cancelTopOrders. rewrite He.
      change (reverse (@nil TrackedOrder)) with (@nil TrackedOrder).
      by rewrite take_nil.
  - intros Hl. unfold cancelBottomOrders. by rewrite (collect_take_all G).
  - intros Hne Hl.
    assert (cancelTopOrders G tracked count w =
            (None, (collectOrderData G (tm_id tracked) (orders tracked) [] w).2)) as ->.
    { unfold cancelTopOrders.
      assert (match orders tracked with [] => [] | _ => take count (orders tracked) end
              = orders tracked) as ->.
      { destruct (orders tracked) eqn:Eo; [done|]. apply take_ge. lia. }
      destruct (orders tracked) as [|o os] eqn:Eo; [done|]. rewrite <- Eo in Hl |- *.
      rewrite bind_run.
      replace (length (orders tracked) <? count)%nat with true
        by (symmetry; apply Nat.ltb_lt; lia).
      done. }
    split; [done|]. apply quiet_collectOrderData.
Qed.

Lemma cancel_functions_at_the_bounds_witness :
  (cancelTopOrders (scripted (cooperative [])) (ladder [500; 499]) 3 world0).1 = None /\
  cancelBottomOrders (scripted (cooperative [])) (ladder [500; 499]) 3 world0 =
  cancelBottomOrders (scripted (cooperative [])) (ladder [500; 499]) 2 world0.
Proof.
  destruct (cancel_functions_at_the_bounds (scripted (cooperative [])) (ladder [500; 499])
              3 world0) as (_ & H2 & H3).
  split.
  - destruct H3 as [-> _]; [discriminate|simpl; lia|reflexivity].
  - apply H2. simpl. lia.
Defined.

Lemma openOrder_placed {R} (G : Gateway R) m p w :
  placedPrices (events (openOrder G m p w).2) = placedPrices (events w) ++ [p].
Proof. rewrite openOrder_events, placedPrices_app. done. Qed.

Lemma bottomLoop_prices {R} (G : Gateway R) n :
  forall t sp i w,
  placedPrices (events (bottomLoop G t sp i n w).2) =
  placedPrices (events w) ++ stepsDown (sp - i) (Nat.min n (Z.to_nat (sp - i))).
Proof.
  induction n as [|n IH]; intros t sp i w; cbn [bottomLoop].
  - simpl. by rewrite app_nil_r.
  - destruct (Z.leb_spec (sp - i) 0) as [Hle|Hgt].
    + replace (Z.to_nat (sp - i)) with O by lia. simpl. by rewrite app_nil_r.
    + rewrite bind_run.
      replace (Z.to_nat (sp - i)) with (S (Z.to_nat (sp - (i + 1)))) by lia.
      rewrite <- Nat.succ_min_distr, stepsDown_S.
      replace (sp - i - 1) with (sp - (i + 1)) by lia.
      destruct (openOrder G (tm_id t) (sp - i) w).1;
        rewrite IH, openOrder_placed, <- app_assoc; done.
Qed.

Lemma openBottomOrders_prices {R} (G : Gateway R) t count w :
  exists start k,
    placedPrices (events (openBottomOrders G t count w).2) =
      placedPrices (events w) ++ stepsDown start k /\
    (k <= count)%nat /\ (k <= Z.to_nat start)%nat /\
    (forall lowest, last (orders t) = Some lowest ->
       start = price lowest - 1 /\ k = Nat.min count (Z.to_nat (price lowest - 1))).
Proof.
  unfold openBottomOrders. destruct (last (orders t)) as [lowest|] eqn:El.
  - exists (price lowest - 1), (Nat.min count (Z.to_nat (price lowest - 1))).
    rewrite bottomLoop_prices, Z.sub_0_r. split; [done|]. split; [lia|]. split; [lia|].
    by intros ? [= <-].
  - rewrite bind_run. pose proof (quiet_fetchOrderbook G (tm_id t) w) as Hq.
    destruct (fetchOrderbook G (tm_id t) w).1 as [|b bids].
    { exists 0, O. cbn [ret fst snd stepsDown]. rewrite Hq. simpl. rewrite app_nil_r.
      split; [done|]. split; [lia|]. split; [lia|done]. }
    destruct (findStartIndex (b :: bids)) as [k|].
    + eexists _, _. rewrite bottomLoop_prices, Z.sub_0_r, Hq.
      split; [done|]. split; [apply Nat.le_min_l|]. split; [apply Nat.le_min_r|done].
    + exists 0, O. cbn [ret fst snd stepsDown]. rewrite Hq. simpl. rewrite app_nil_r.
      split; [done|]. split; [lia|]. split; [lia|done].
Qed.

Lemma openTopOrders_prices {R} (G : Gateway R) n :
  forall t w, exists ps,
    placedPrices (events (openTopOrders G t n w).2) = placedPrices (events w) ++ ps /\
    (length ps <= n)%nat /\ Forall (fun p => p < 1000) ps /\ (orders t = [] -> ps = []).
Proof.
  induction n as [|n IH]; intros t w; simpl.
  - exists []. by rewrite app_nil_r.
  - destruct (orders t) as [|highestOrder rest] eqn:Eo.
    { exists []. rewrite app_nil_r. split; [done|]. split; [simpl; lia|]. done. }
    destruct (Z.leb_spec 1000 (price highestOrder + 1)) as [Hge|Hlt].
    { exists []. rewrite app_nil_r. split; [done|]. split; [simpl; lia|]. done. }
    rewrite bind_run.
    pose proof (openOrder_placed G (tm_id t) (price highestOrder + 1) w) as Hp.
    destruct (openOrder G (tm_id t) (price highestOrder + 1) w).1 as [h|].
    + rewrite bind_run.
      match goal with |- context [openTopOrders G ?t1 n ?w1'] =>
        set (w1 := w1'); destruct (IH t1 w1) as (ps & -> & Hl & Hf & _) end.
      assert (events w1 = events (openOrder G (tm_id t) (price highestOrder + 1) w).2) as ->
        by apply quiet_fetchAfterOpen.
      exists ((price highestOrder + 1) :: ps). rewrite Hp, <- app_assoc.
      split; [done|]. split; [simpl; lia|]. split; [by constructor|done].
    + match goal with |- context [openTopOrders G t n ?w1] =>
        destruct (IH t w1) as (ps & -> & Hl & Hf & _) end.
      exists ((price highestOrder + 1) :: ps). rewrite Hp, <- app_assoc.
      split; [done|]. split; [simpl; lia|]. split; [by constructor|done].
Qed.

(** X22.  The prices the open functions ask for, whatever the gateway
    answers.  [openBottomOrders] submits a run of prices going down tick by
    tick, at most [count] of them, all above 0; below a non-empty ladder the
    run starts one tick under its last order and has [count] prices or as
    many as are positive, also when submissions fail.  [openTopOrders]
    submits at most [count] prices, all below 1, and none for an empty
    ladder. *)
Theorem open_functions_price_range {R} (G : Gateway R) (tracked : TrackedMarket)
    (count : nat) (w : World R) :
  (exists ps,
     placedPrices (events (openBottomOrders G tracked count w).2) = placedPrices (events w) ++ ps /\
     (length ps <= count)%nat /\ Forall (fun p => 0 < p) ps /\ strictlyDescending ps /\
     forall lowest, last (orders tracked) = Some lowest ->
       ps = stepsDown (price lowest - 1) (Nat.min count (Z.to_nat (price lowest - 1)))) /\
  (exists ps,
     placedPrices (events (openTopOrders G tracked count w).2) = placedPrices (events w) ++ ps /\
     (length ps <= count)%nat /\ Forall (fun p => p < 1000) ps /\
     (orders tracked = [] -> ps = [])).
Proof.
  split; [|apply openTopOrders_prices].
  destruct (openBottomOrders_prices G tracked count w) as (start & k & E & Hk & Hs & Hl).
  exists (stepsDown start k). split; [done|]. rewrite stepsDown_length.
  split; [done|]. split; [by apply stepsDown_positive|]. split; [apply stepsDown_strict|].
  intros lowest Hlow. by destruct (Hl lowest Hlow) as [-> ->].
Qed.

Lemma open_functions_price_range_witness :
  placedPrices (events (openBottomOrders (scripted refusing) (ladder [3; 2]) 5 world0).2) = [1].
Proof.
  destruct (open_functions_price_range (scripted refusing) (ladder [3; 2]) 5 world0)
    as [(ps & E & _ & _ & _ & H) _].
  rewrite E, (H (ord 2)); reflexivity.
Defined.

(** ** What a tick carries over *)

Lemma carried_refl {R} (G : Gateway R) t : carried G t t.
Proof. split; [by split|]. by intros. Qed.

Lemma carried_trans {R} (G : Gateway R) t1 t2 t3 :
  carried G t1 t2 -> carried G t2 t3 -> carried G t1 t3.
Proof.
  intros [[? ?] H12] [[? ?] H23]. split; [split; congruence|]. intros Hc Hok. auto.
Qed.

Lemma carried_set_orders {R} (G : Gateway R) t os : carried G t (set_orders t os).
Proof. split; [by split|]. intros _ H. exact H. Qed.

Lemma carried_set_orders_after {R} (G : Gateway R) t t' os :
  carried G t t' -> carried G t (set_orders t' os).
Proof. intros H. eapply carried_trans; [exact H|apply carried_set_orders]. Qed.

Lemma incrementCancelCount_carried {R} (G : Gateway R) t n :
  always (incrementCancelCount G t n) (carried G t).
Proof.
  intros w. destruct (incrementCancelCount_run G t n w) as [_ (Hid & Hti & _ & Hc & Hu)].
  split; [by split|]. intros Hclock [H0 H10]. unfold cooldownOk. rewrite Hc, Hu.
  specialize (Hclock (remote w)). unfold COOLDOWN_MS.
  destruct (Z.leb_spec 10 (cancelCount t + Z.of_nat n));
    destruct (Z.eqb_spec (cooldownUntil t) 0); simpl; lia.
Qed.

Lemma batchCancel_carried {R} (G : Gateway R) t batch :
  always (batchCancel G t batch) (fun r => carried G t r.2).
Proof.
  unfold batchCancel. destruct batch as [|od batch]; [apply always_ret, carried_refl|].
  apply always_bind_any. intros res.
  destruct (success res); [|apply always_ret, carried_refl].
  eapply always_bind; [apply incrementCancelCount_carried|].
  intros t' Ht'. apply always_ret. simpl.
  eapply carried_trans; [apply carried_set_orders|exact Ht'].
Qed.

Lemma cancelBottomOrders_carried {R} (G : Gateway R) t n :
  always (cancelBottomOrders G t n) (fun r => carried G t r.2).
Proof. intros w. rewrite cancelBottomOrders_run. apply batchCancel_carried. Qed.

Lemma cancelTopOrders_carried {R} (G : Gateway R) t n :
  always (cancelTopOrders G t n)
    (fun r => match r with Some r' => carried G t r'.2 | None => True end).
Proof.
  unfold cancelTopOrders.
  destruct (match orders t with [] => [] | _ => take n (orders t) end);
    [apply always_ret, carried_refl|].
  apply always_bind_any. intros batch.
  destruct (length (orders t) <? n)%nat; [by apply always_ret|].
  eapply always_bind; [apply batchCancel_carried|].
  intros r Hr. by apply always_ret.
Qed.

Lemma bottomLoop_carried {R} (G : Gateway R) n :
  forall t sp i, always (bottomLoop G t sp i n) (carried G t).
Proof.
  induction n as [|n IH]; intros t sp i; simpl; [apply always_ret, carried_refl|].
  destruct (sp - i <=? 0); [apply always_ret, carried_refl|].
  apply always_bind_any. intros [h|]; [|apply IH].
  eapply always_weaken; [apply IH|]. intros t' Ht'.
  eapply carried_trans; [apply carried_set_orders|exact Ht'].
Qed.

Lemma openBottomOrders_carried {R} (G : Gateway R) t n :
  always (openBottomOrders G t n) (carried G t).
Proof.
  unfold openBottomOrders. destruct (last (orders t)); [apply bottomLoop_carried|].
  apply always_bind_any. intros [|b bids]; [apply always_ret, carried_refl|].
  destruct (findStartIndex (b :: bids)); [apply bottomLoop_carried|].
  apply always_ret, carried_refl.
Qed.

Lemma openTopOrders_carried {R} (G : Gateway R) n :
  forall t, always (openTopOrders G t n) (carried G t).
Proof.
  induction n as [|n IH]; intros t; simpl; [apply always_ret, carried_refl|].
  destruct (orders t) as [|o os]; [apply always_ret, carried_refl|].
  destruct (1000 <=? price o + 1); [apply always_ret, carried_refl|].
  apply always_bind_any. intros [h|]; [|apply IH].
  apply always_bind_any. intros _.
  eapply always_weaken; [apply IH|]. intros t' Ht'.
  eapply carried_trans; [apply carried_set_orders|exact Ht'].
Qed.

Lemma shiftLadder_carried {R} (G : Gateway R) t bids bestBid highestOrder :
  always (shiftLadder G t bids bestBid highestOrder) (carried G t).
Proof.
  unfold shiftLadder. destruct (_ || _).
  - eapply always_bind; [apply cancelTopOrders_carried|].
    intros [[c t']|] Hr; [|apply always_ret, carried_refl]. simpl in Hr.
    destruct (0 <? c)%nat; [|by apply always_ret].
    eapply always_weaken; [apply openBottomOrders_carried|].
    intros t'' Ht''. by eapply carried_trans.
  - destruct (_ <? _); [|apply always_ret, carried_refl].
    destruct (0 <? _)%nat; [|apply always_ret, carried_refl].
    eapply always_bind; [apply cancelBottomOrders_carried|].
    intros [c t'] Hr. simpl in Hr.
    destruct (0 <? c)%nat; [|by apply always_ret].
    eapply always_weaken; [apply openTopOrders_carried|].
    intros t'' Ht''. by eapply carried_trans.
Qed.

Lemma trimExcess_carried {R} (G : Gateway R) t : always (trimExcess G t) (carried G t).
Proof.
  unfold trimExcess. destruct (5 <? length (orders t))%nat; [|apply always_ret, carried_refl].
  eapply always_bind; [apply cancelBottomOrders_carried|].
  intros [c t'] Hr. by apply always_ret.
Qed.

Lemma refillAndShift_carried {R} (G : Gateway R) t : always (refillAndShift G t) (carried G t).
Proof.
  unfold refillAndShift. apply always_bind_any. intros [|bestBid bids].
  { apply always_ret, carried_refl. }
  eapply (always_bind _ _ (carried G t)).
  { destruct (length (orders t) <? 5)%nat; [apply openBottomOrders_carried|].
    apply always_ret, carried_refl. }
  intros t2 Ht2. destruct (orders t2) as [|highestOrder os]; [by apply always_ret|].
  eapply always_weaken; [apply shiftLadder_carried|].
  intros t3 Ht3. by eapply carried_trans.
Qed.

Lemma checkAndRebalance_carried {R} (G : Gateway R) t :
  always (checkAndRebalance G t) (carried G t).
Proof.
  unfold checkAndRebalance. apply always_bind_any. intros time.
  destruct (inCooldown t time).
  - destruct (orders t); [apply always_ret, carried_refl|].
    eapply always_bind; [apply cancelBottomOrders_carried|].
    intros [c t'] Hr. by apply always_ret.
  - set (t1 := if 0 <? cooldownUntil t then resetCooldown t else t).
    assert (carried G t t1) as H1.
    { unfold t1. destruct (0 <? cooldownUntil t); [|apply carried_refl].
      split; [by split|]. intros _ _. split; simpl; lia. }
    eapply always_bind; [apply trimExcess_carried|].
    intros t2 H2. eapply always_weaken; [apply refillAndShift_carried|].
    intros t3 H3. eapply carried_trans; [exact H1|]. by eapply carried_trans.
Qed.

Lemma syncMarket_carried {R} (G : Gateway R) allOpenOrders t :
  always (@syncMarket R allOpenOrders t) (carried G t).
Proof.
  unfold syncMarket. apply always_bind_any. intros [apiHashes os].
  apply always_ret, carried_set_orders.
Qed.

Lemma reopenMarket_carried {R} (G : Gateway R) t : always (reopenMarket G t) (carried G t).
Proof.
  unfold reopenMarket. apply always_bind_any. intros [[|h toRemove] toAdd].
  - apply always_ret, carried_refl.
  - apply always_ret, carried_set_orders.
Qed.

Lemma Forall2_chain {A} (P : A -> A -> Prop) l1 l2 l3 :
  (forall a b c, P a b -> P b c -> P a c) ->
  Forall2 P l1 l2 -> Forall2 P l2 l3 -> Forall2 P l1 l3.
Proof.
  intros Ht H12. revert l3. induction H12 as [|a b l1 l2 Hab H12 IH]; intros l3 H23.
  - by inversion H23.
  - inversion H23 as [|? c ? l3' Hbc H23']; subst. constructor; [by eapply Ht|by apply IH].
Qed.

Lemma tick_carried {R} (G : Gateway R) ts w : Forall2 (carried G) ts (tick G ts w).1.
Proof.
  unfold tick. rewrite !bind_run.
  set (w1 := (call (sellAllPositions G) w).2).
  set (sold := (call (sellAllPositions G) w).1).
  set (stage1 := (if sold then checkAndReopenFilledOrders G ts else ret ts) w1).
  assert (Forall2 (carried G) ts stage1.1) as H1.
  { unfold stage1. destruct sold.
    - apply mapM_Forall2. intros t w'. apply reopenMarket_carried.
    - simpl. apply Forall_Forall2_diag, Forall_forall. intros t _. apply carried_refl. }
  set (stage2 := syncOpenOrders G stage1.1 stage1.2).
  assert (Forall2 (carried G) stage1.1 stage2.1) as H2.
  { unfold stage2, syncOpenOrders. rewrite bind_run.
    destruct (call (api_openOrders G) stage1.2).1 as [allOpenOrders|].
    - apply mapM_Forall2. intros t w'. apply syncMarket_carried.
    - simpl. apply Forall_Forall2_diag, Forall_forall. intros t _. apply carried_refl. }
  eapply Forall2_chain; [apply carried_trans|exact H1|].
  eapply Forall2_chain; [apply carried_trans|exact H2|].
  apply mapM_Forall2. intros t w'. apply checkAndRebalance_carried.
Qed.

(** X23.  A tick keeps the markets it was given: the list it returns has
    the same markets, in the same order, each with its id and its title;
    none is dropped, added or renamed, whatever the gateway answers. *)
Theorem tick_keeps_the_markets {R} (G : Gateway R) (trackedMarkets : list TrackedMarket)
    (w : World R) :
  map tm_id (tick G trackedMarkets w).1 = map tm_id trackedMarkets /\
  map tm_title (tick G trackedMarkets w).1 = map tm_title trackedMarkets /\
  length (tick G trackedMarkets w).1 = length trackedMarkets.
Proof.
  pose proof (tick_carried G trackedMarkets w) as H.
  induction H as [|t t' ts ts' [[Hid Hti] _] _ (IH1 & IH2 & IH3)]; [done|].
  simpl. by rewrite Hid, Hti, IH1, IH2, IH3.
Qed.

(** X24.  The cooldown bookkeeping stays consistent.  A market as
    [processMarket] returns it has a cooldown timestamp that is not negative,
    and set if it has counted ten cancellations; with a clock that shows no
    negative time, a tick over markets that all have this property returns
    markets that all have it: at the end of every tick, a market with ten or
    more cancellations on its counter has its cooldown set. *)
Theorem cooldown_is_set_at_ten {R} (G : Gateway R) (trackedMarkets : list TrackedMarket)
    (w : World R) :
  clockStarted G -> Forall cooldownOk trackedMarkets ->
  Forall cooldownOk (tick G trackedMarkets w).1 /\
  forall marketId marketTitle t w',
    (processMarket G marketId marketTitle w').1 = Some t -> cooldownOk t.
Proof.
  intros Hclock Hok. split.
  - pose proof (tick_carried G trackedMarkets w) as H.
    induction H as [|t t' ts ts' [_ Hc] _ IH]; [constructor|].
    inversion_clear Hok. constructor; [by apply Hc|by apply IH].
  - intros marketId marketTitle t w' E.
    apply processMarket_fresh in E as (_ & _ & Hc & Hu & _).
    unfold cooldownOk. lia.
Qed.

Lemma cooldown_is_set_at_ten_witness :
  let t := {| tm_id := 1; tm_title := "market"; orders := map ord [500; 499; 498; 497; 496];
              cancelCount := 9; cooldownUntil := 0 |} in
  clockStarted (scripted (cooperative [bid 510 100])) /\ cooldownOk t /\
  Forall cooldownOk (tick (scripted (cooperative [bid 510 100])) [t] world0).1 /\
  map cancelCount (tick (scripted (cooperative [bid 510 100])) [t] world0).1 = [10] /\
  map cooldownUntil (tick (scripted (cooperative [bid 510 100])) [t] world0).1 = [1000 + COOLDOWN_MS].
Proof.
  cbv zeta.
  assert (clockStarted (scripted (cooperative [bid 510 100]))) as Hc
    by (intros r; simpl; lia).
  assert (cooldownOk {| tm_id := 1; tm_title := "market";
                        orders := map ord [500; 499; 498; 497; 496];
                        cancelCount := 9; cooldownUntil := 0 |}) as Hok
    by (split; simpl; lia).
  split; [exact Hc|]. split; [exact Hok|].
  destruct (cooldown_is_set_at_ten (scripted (cooperative [bid 510 100])) _ world0 Hc
              (Forall_cons_2 _ _ _ Hok (Forall_nil_2 _))) as [H _].
  split; [exact H|]. split; reflexivity.
Defined.

(** ** The early exits of the scans *)




(** ** Reconciling twice *)




(** ** Pagination of the open orders *)

(** X27.  [getOpenOrdersRecursively] gives a listing only when every page
    was fetched.  When the server answers a chain of pages down to one
    without cursor, the result, given requests enough, is a success whose
    data are the accumulated orders followed by the orders of all pages, in
    order.  When a request of the chain fails, the result is a failure that
    carries the orders fetched so far (nothing when there are none), and the
    monitor loop, which asks for success, gets no listing to reconcile
    against. *)
Theorem pagination_is_all_or_nothing (server : option string -> option Page)
    (cursor : option string) (pages : list Page) (accumulatedOrders : list ApiOrder)
    (fuel : nat) :
  (served server cursor pages -> (length pages <= fuel)%nat ->
   getOpenOrdersRecursively server fuel cursor accumulatedOrders =
   Some {| lr_success := true; lr_data := Some (accumulatedOrders ++ allData pages) |}) /\
  (broken server cursor pages -> (length pages < fuel)%nat ->
   exists res,
     getOpenOrdersRecursively server fuel cursor accumulatedOrders = Some res /\
     res = failedListing (accumulatedOrders ++ allData pages) /\
     usableListing res = None).
Proof.
  split.
  - intros Hs. revert accumulatedOrders fuel.
    induction Hs as [c page Hp Hok Hc|c page next pages Hp Hok Hc Hs IH];
      intros acc fuel Hf; (destruct fuel as [|fuel]; [simpl in Hf; lia|]); simpl.
    + rewrite Hp, Hok, Hc. unfold allData. simpl. by rewrite app_nil_r.
    + rewrite Hp, Hok, Hc. rewrite IH by (simpl in Hf; lia).
      unfold allData. simpl. by rewrite <- app_assoc.
  - intros Hb. revert accumulatedOrders fuel.
    induction Hb as [c Hp|c page Hp Hok|c page next pages Hp Hok Hc Hb IH];
      intros acc fuel Hf; (destruct fuel as [|fuel]; [simpl in Hf; lia|]); simpl.
    + rewrite Hp. eexists. split; [done|]. unfold allData. simpl. by rewrite app_nil_r.
    + rewrite Hp, Hok. eexists. split; [done|]. unfold allData. simpl. by rewrite app_nil_r.
    + rewrite Hp, Hok, Hc.
      destruct (IH (acc ++ pg_data page) fuel ltac:(simpl in Hf; lia)) as (res & -> & -> & Hu).
      eexists. split; [done|]. unfold allData in *. simpl. rewrite <- app_assoc. done.
Qed.

Lemma pagination_is_all_or_nothing_witness :
  getOpenOrdersRecursively twoPages 2 None [] =
    Some {| lr_success := true; lr_data := Some (openAt [620; 619; 618]) |} /\
  exists res, getOpenOrdersRecursively secondPageFails 2 None [] = Some res /\
              lr_data res = Some (openAt [620; 619]) /\ usableListing res = None.
Proof.
  assert (served twoPages None [firstPage; lastPage]) as Hs.
  { eapply served_next; [reflexivity|reflexivity|reflexivity|].
    apply served_last; reflexivity. }
  assert (broken secondPageFails None [firstPage]) as Hb.
  { eapply broken_next; [reflexivity|reflexivity|reflexivity|].
    apply broken_throws. reflexivity. }
  split.
  - destruct (pagination_is_all_or_nothing twoPages None [firstPage; lastPage] [] 2) as [H _].
    rewrite (H Hs); [reflexivity|simpl; lia].
  - destruct (pagination_is_all_or_nothing secondPageFails None [firstPage] [] 2) as [_ H].
    destruct (H Hb) as (res & E & -> & Hu); [simpl; lia|].
    exists (failedListing ([] ++ allData [firstPage])).
    split; [exact E|]. split; [reflexivity|exact Hu].
Defined.
